(** * OpenSoT aggregation layer: constraints::Aggregated, tasks::Aggregated
      and OptvarHelper, embedded as executable Rocq definitions.

    Scalars ([double]) are kept abstract behind the [Scalar] class: the
    embedding uses exactly the operations the C++ code applies to them
    (product, sum, unary minus, [<], the two [numeric_limits] sentinels).
Theorems that need arithmetic or order facts about scalars state them
as the [ScalarRing] / [ScalarOrder] laws.

An [assert] is modelled as a live check: a failing assertion ends the
computation with [Err (AssertionFailed line)], [line] being the line of
the assertion in its source file. *)

From stdpp Require Import base option list strings gmap.
From Stdlib Require Import ZArith NArith Lia.

(** ** Results of fallible code *)

Inductive failure : Type :=
| AssertionFailed (line : nat)
| DimensionMismatch
| invalid_argument (what : string).

Inductive result (A : Type) : Type :=
| Ok (a : A)
| Err (e : failure).
Arguments Ok {A} a.
Arguments Err {A} e.

Definition bind {A B : Type} (c : result A) (k : A -> result B) : result B :=
  match c with
  | Ok a => k a
  | Err e => Err e
  end.

Notation "'let*' x ':=' c 'in' k" := (bind c (fun x => k))
  (at level 10, x name, c at level 100, k at level 200).
Notation "c ';;;' k" := (bind c (fun _ => k))
  (at level 100, k at level 200, right associativity).

(** [assert(cond)] at source line [line]. *)
Definition assert_ (line : nat) (cond : bool) : result unit :=
  if cond then Ok tt else Err (AssertionFailed line).

(** Monadic left fold: a [for] loop over a list whose body may fail. *)
Fixpoint foldM {A B : Type} (f : A -> B -> result A) (a : A) (l : list B)
  : result A :=
  match l with
  | [] => Ok a
  | b :: l' => let* a' := f a b in foldM f a' l'
  end.

(** ** Scalars *)

Class Scalar (R : Type) : Type := {
  s_zero : R;
  s_one : R;
  s_add : R -> R -> R;
  s_mul : R -> R -> R;
  s_opp : R -> R;
  s_ltb : R -> R -> bool;
(** [std::numeric_limits<double>::infinity()] *)
s_infinity : R;
(** [std::numeric_limits<double>::max()] *)
s_max : R
}.

(** Laws of a commutative ring, as far as the weighting theorems use them. *)
Class ScalarRing (R : Type) `{Scalar R} : Prop := {
  s_add_0_l : forall x : R, s_add s_zero x = x;
  s_add_0_r : forall x : R, s_add x s_zero = x;
  s_mul_0_l : forall x : R, s_mul s_zero x = s_zero;
  s_mul_0_r : forall x : R, s_mul x s_zero = s_zero;
  s_mul_1_l : forall x : R, s_mul s_one x = x;
  s_mul_1_r : forall x : R, s_mul x s_one = x
}.

(** [<] is a strict weak order (a strict total order up to equivalence). *)
Class ScalarOrder (R : Type) `{Scalar R} : Prop := {
  s_ltb_irrefl : forall x : R, s_ltb x x = false;
  s_ltb_asym : forall x y : R, s_ltb x y = true -> s_ltb y x = false;
  s_ltb_negtrans : forall x y z : R,
      s_ltb x y = false -> s_ltb y z = false -> s_ltb x z = false
}.

(** Reading a vector out of range yields this default; the code only
    indexes vectors whose length it has asserted. *)
#[global] Instance Scalar_inhabited {R : Type} `{Scalar R} : Inhabited R :=
  populate s_zero.

(** A dense vector ([Eigen::VectorXd], [yarp::sig::Vector]). *)
Abbreviation Vector R := (list R) (only parsing).

Section LinearAlgebra.
Context {R : Type} `{Scalar R}.

(** [std::min(a, b)]: [(b < a) ? b : a]. *)
Definition std_min (a b : R) : R := if s_ltb b a then b else a.
(** [std::max(a, b)]: [(a < b) ? b : a]. *)
Definition std_max (a b : R) : R := if s_ltb a b then b else a.

(** [k * v] *)
Definition vscale (k : R) (v : Vector R) : Vector R := map (s_mul k) v.
(** [v * k] *)
Definition vscale_r (v : Vector R) (k : R) : Vector R := map (fun x => s_mul x k) v.
(** [v.setOnes(n) * k] *)
Definition vones_times (n : nat) (k : R) : Vector R := replicate n (s_mul s_one k).
Definition vadd (u v : Vector R) : Vector R := zip_with s_add u v.
Definition vzero (n : nat) : Vector R := replicate n s_zero.
Definition dot (u v : Vector R) : R :=
  fold_left s_add (zip_with s_mul u v) s_zero.

End LinearAlgebra.

(** A dense matrix ([Eigen::MatrixXd], [yarp::sig::Matrix]): its column
    count, kept even when there are no rows, and its rows. *)
Record Matrix (R : Type) : Type := mkMatrix {
  cols : nat;
  mrows : list (list R)
}.
Arguments mkMatrix {R} cols mrows.
Arguments cols {R} m.
Arguments mrows {R} m.

Section Matrices.
Context {R : Type} `{Scalar R}.

Definition rows (m : Matrix R) : nat := length (mrows m).

(** Every row has [cols m] entries. *)
Definition wf_matrix (m : Matrix R) : bool :=
  forallb (fun r => length r =? cols m) (mrows m).

(** [m.resize(0, c)] *)
Definition empty_matrix (c : nat) : Matrix R := mkMatrix c [].

(** [k * m] *)
Definition mscale (k : R) (m : Matrix R) : Matrix R :=
  mkMatrix (cols m) (map (vscale k) (mrows m)).
(** [m * k] *)
Definition mscale_r (m : Matrix R) (k : R) : Matrix R :=
  mkMatrix (cols m) (map (fun r => vscale_r r k) (mrows m)).

(** Row [w] of the left factor times the matrix [m]:
    [sum_k w[k] * m.row(k)]. *)
Definition row_times (w : list R) (m : Matrix R) : list R :=
  fold_left (fun acc '(wk, r) => vadd acc (vscale wk r))
            (zip w (mrows m)) (vzero (cols m)).

(** [a * b], matrix product. *)
Definition mmul (a b : Matrix R) : Matrix R :=
  mkMatrix (cols b) (map (fun w => row_times w b) (mrows a)).

(** [m * v], matrix times vector. *)
Definition mvmul (m : Matrix R) (v : Vector R) : Vector R :=
  map (fun r => dot r v) (mrows m).

(** Unit vector of length [n] with the one at position [k]. *)
Definition unit_row (n k : nat) : list R :=
  map (fun j => if j =? k then s_one else s_zero) (seq 0 n).

(** [Identity(r, c)] *)
Definition identity (r c : nat) : Matrix R :=
  mkMatrix c (map (fun i => unit_row c i) (seq 0 r)).

(** [setZero(r, c)] *)
Definition zero_matrix (r c : nat) : Matrix R :=
  mkMatrix c (replicate r (vzero c)).

(** Entry [(i, j)], when it exists. *)
Definition entry (m : Matrix R) (i j : nat) : option R :=
  match mrows m !! i with
  | Some r => r !! j
  | None => None
  end.

End Matrices.

(** ** OpenSoT::constraints::Aggregated (src/constraints/Aggregated.cpp) *)
Module constraints.
Section Constraints.
Context {R : Type} `{Scalar R}.

(** Modelled from the spec: the [AggregationPolicy] enumerators are
    declared in Aggregated.h, which is not part of the sources; they are
    two independent bits of the policy mask. *)
Definition EQUALITIES_TO_INEQUALITIES : N := 0x001.
Definition UNILATERAL_TO_BILATERAL : N := 0x100.

(** [policy & flag], as a condition. *)
Definition flag_set (policy flag : N) : bool :=
  negb (N.land policy flag =? 0)%N.

(** The data members of a [Constraint]: what [getConstraintID],
    [getXSize], [getLowerBound], ..., [getbUpperBound] read. *)
Record Constraint : Type := mkConstraint {
  getConstraintID : string;
  getXSize : nat;
  getLowerBound : Vector R;
  getUpperBound : Vector R;
  getAeq : Matrix R;
  getbeq : Vector R;
  getAineq : Matrix R;
  getbLowerBound : Vector R;
  getbUpperBound : Vector R
}.

(** An [Aggregated] is a [Constraint] (its merged members, [base]) with
    the list of aggregated constraints and the policy. The children are
    held as the values their accessors return. *)
Record Aggregated : Type := mkAggregated {
  base : Constraint;
  _bounds : list Constraint;
  _aggregationPolicy : N
}.

Definition with_base (a : Aggregated) (c : Constraint) : Aggregated :=
  mkAggregated c (_bounds a) (_aggregationPolicy a).

Definition set_box (c : Constraint) (lo up : Vector R) : Constraint :=
  mkConstraint (getConstraintID c) (getXSize c) lo up
               (getAeq c) (getbeq c)
               (getAineq c) (getbLowerBound c) (getbUpperBound c).
Definition set_eq (c : Constraint) (Aeq : Matrix R) (beq : Vector R)
  : Constraint :=
  mkConstraint (getConstraintID c) (getXSize c)
               (getLowerBound c) (getUpperBound c) Aeq beq
               (getAineq c) (getbLowerBound c) (getbUpperBound c).
Definition set_ineq (c : Constraint) (Aineq : Matrix R)
           (bLower bUpper : Vector R) : Constraint :=
  mkConstraint (getConstraintID c) (getXSize c)
               (getLowerBound c) (getUpperBound c)
               (getAeq c) (getbeq c) Aineq bLower bUpper.

(** Modelled from the spec: [pile] is declared outside the sources
    (LinearSystemPiling: stacks vertically "while enforcing consistent
    column count"). *)
Definition pile (A B : Matrix R) : result (Matrix R) :=
  if cols A =? cols B
  then Ok (mkMatrix (cols A) (mrows A ++ mrows B))
  else Err DimensionMismatch.
Definition pile_vec (a b : Vector R) : Vector R := a ++ b.

(** Lines 118-125: the element-wise loop over [i < _x_size]. *)
Definition intersect_boxes (x_size : nat)
           (upper lower boundUpper boundLower : Vector R)
  : Vector R * Vector R :=
  fold_left
    (fun ul i =>
       (<[i := std_min (ul.1 !!! i) (boundUpper !!! i)]> (ul.1),
        <[i := std_max (ul.2 !!! i) (boundLower !!! i)]> (ul.2)))
    (seq 0 x_size) (upper, lower).

(** Lines 106-127: copying lowerBound, upperBound. *)
Definition copy_bounds (c : Constraint) (b : Constraint)
  : result Constraint :=
  let boundUpperBound := getUpperBound b in
  let boundLowerBound := getLowerBound b in
  if negb (length boundUpperBound =? 0) || negb (length boundLowerBound =? 0)
  then
    assert_ 109 (length boundUpperBound =? getXSize c) ;;;
    assert_ 110 (length boundLowerBound =? getXSize c) ;;;
    if (length (getUpperBound c) =? 0) || (length (getLowerBound c) =? 0)
    then
      assert_ 114 (length (getUpperBound c) =? length (getLowerBound c)) ;;;
      Ok (set_box c boundLowerBound boundUpperBound)
    else
      let ul := intersect_boxes (getXSize c)
                  (getUpperBound c) (getLowerBound c)
                  boundUpperBound boundLowerBound in
      Ok (set_box c ul.2 ul.1)
  else Ok c.

(** Lines 129-155: copying Aeq, beq. *)
Definition copy_equalities (policy : N) (c : Constraint) (b : Constraint)
  : result Constraint :=
  let boundAeq := getAeq b in
  let boundbeq := getbeq b in
  if negb (rows boundAeq =? 0) || negb (length boundbeq =? 0)
  then
    assert_ 132 (rows boundAeq =? length boundbeq) ;;;
    if flag_set policy EQUALITIES_TO_INEQUALITIES
    then
      assert_ 137 (cols (getAineq c) =? cols boundAeq) ;;;
      let* Aineq := pile (getAineq c) boundAeq in
      let bUpperBound := pile_vec (getbUpperBound c) boundbeq in
      if flag_set policy UNILATERAL_TO_BILATERAL
      then
        let bLowerBound := pile_vec (getbLowerBound c) boundbeq in
        Ok (set_ineq c Aineq bLowerBound bUpperBound)
      else
        assert_ 146 (cols Aineq =? cols boundAeq) ;;;
        let* Aineq := pile Aineq (mscale (s_opp s_one) boundAeq) in
        let bUpperBound :=
          pile_vec bUpperBound (vscale (s_opp s_one) boundbeq) in
        Ok (set_ineq c Aineq (getbLowerBound c) bUpperBound)
    else
      assert_ 151 (cols (getAeq c) =? cols boundAeq) ;;;
      let* Aeq := pile (getAeq c) boundAeq in
      Ok (set_eq c Aeq (pile_vec (getbeq c) boundbeq))
  else Ok c.

(** Lines 167-196: the local copies [boundAineq], [boundbLowerBound],
    [boundbUpperBound] after the sidedness conversion. *)
Definition normalize_sides (policy : N)
           (boundAineq : Matrix R) (boundbLowerBound boundbUpperBound : Vector R)
  : result (Matrix R * Vector R * Vector R) :=
  if flag_set policy UNILATERAL_TO_BILATERAL
  then
    if length boundbUpperBound =? 0
    then
      assert_ 170 (rows boundAineq =? length boundbLowerBound) ;;;
      Ok (boundAineq, boundbLowerBound,
          vones_times (rows boundAineq) s_infinity)
    else if length boundbLowerBound =? 0
    then
      assert_ 174 (rows boundAineq =? length boundbUpperBound) ;;;
      Ok (boundAineq, vones_times (rows boundAineq) (s_opp s_max),
          boundbUpperBound)
    else
      assert_ 178 (rows boundAineq =? length boundbLowerBound) ;;;
      assert_ 179 (rows boundAineq =? length boundbUpperBound) ;;;
      Ok (boundAineq, boundbLowerBound, boundbUpperBound)
  else
    if length boundbUpperBound =? 0
    then
      let boundAineq := mscale (s_opp s_one) boundAineq in
      let boundbLowerBound := vscale (s_opp s_one) boundbLowerBound in
      assert_ 187 (rows boundAineq =? length boundbLowerBound) ;;;
      Ok (boundAineq, boundbLowerBound, boundbUpperBound)
    else if length boundbLowerBound =? 0
    then
      assert_ 189 (rows boundAineq =? length boundbUpperBound) ;;;
      Ok (boundAineq, boundbLowerBound, boundbUpperBound)
    else
      assert_ 191 (rows boundAineq =? length boundbLowerBound) ;;;
      assert_ 192 (rows boundAineq =? length boundbUpperBound) ;;;
      let* stacked := pile boundAineq (mscale (s_opp s_one) boundAineq) in
      Ok (stacked, boundbLowerBound,
          pile_vec boundbUpperBound (vscale (s_opp s_one) boundbLowerBound)).

(** Lines 157-205: copying Aineq, bUpperBound, bLowerBound. *)
Definition copy_inequalities (policy : N) (c : Constraint) (b : Constraint)
  : result Constraint :=
  let boundAineq := getAineq b in
  let boundbUpperBound := getbUpperBound b in
  let boundbLowerBound := getbLowerBound b in
  if negb (rows boundAineq =? 0) || negb (length boundbUpperBound =? 0)
     || negb (length boundbLowerBound =? 0)
  then
    assert_ 162 (0 <? rows boundAineq) ;;;
    assert_ 163 ((0 <? length boundbLowerBound)
                 || (0 <? length boundbUpperBound)) ;;;
    assert_ 165 (cols boundAineq =? getXSize c) ;;;
    let* n := normalize_sides policy boundAineq
                              boundbLowerBound boundbUpperBound in
    let '(boundAineq, boundbLowerBound, boundbUpperBound) := n in
    assert_ 198 (cols (getAineq c) =? cols boundAineq) ;;;
    let* Aineq := pile (getAineq c) boundAineq in
    let bUpperBound := pile_vec (getbUpperBound c) boundbUpperBound in
    if flag_set policy UNILATERAL_TO_BILATERAL
    then Ok (set_ineq c Aineq
                      (pile_vec (getbLowerBound c) boundbLowerBound)
                      bUpperBound)
    else Ok (set_ineq c Aineq (getbLowerBound c) bUpperBound)
  else Ok c.

(** Lines 94-205: the body of the loop over [_bounds]. *)
Definition merge_bound (policy : N) (c : Constraint) (b : Constraint)
  : result Constraint :=
  let* c := copy_bounds c b in
  let* c := copy_equalities policy c b in
  copy_inequalities policy c b.

(** Lines 80-88: resetting all internal data. *)
Definition reset (c : Constraint) : Constraint :=
  mkConstraint (getConstraintID c) (getXSize c) [] []
               (empty_matrix (getXSize c)) []
               (empty_matrix (getXSize c)) [] [].

(** Lines 208-220: checking everything went fine. *)
Definition check_merged (policy : N) (c : Constraint) : result unit :=
  assert_ 209 ((length (getLowerBound c) =? 0)
               || (length (getLowerBound c) =? getXSize c)) ;;;
  assert_ 210 ((length (getUpperBound c) =? 0)
               || (length (getUpperBound c) =? getXSize c)) ;;;
  assert_ 212 (rows (getAeq c) =? length (getbeq c)) ;;;
  (if 0 <? rows (getAeq c)
   then assert_ 214 (cols (getAeq c) =? getXSize c) else Ok tt) ;;;
  assert_ 216 (rows (getAineq c) =? length (getbUpperBound c)) ;;;
  (if negb (flag_set policy UNILATERAL_TO_BILATERAL)
   then assert_ 218 (rows (getAineq c) =? length (getbLowerBound c))
   else Ok tt) ;;;
  (if 0 <? rows (getAineq c)
   then assert_ 220 (cols (getAineq c) =? getXSize c) else Ok tt).

(** Lines 78-206: reset and merge loop, up to the closing checks. *)
Definition merge_all (a : Aggregated) : result Constraint :=
  foldM (merge_bound (_aggregationPolicy a)) (reset (base a)) (_bounds a).

(** [Aggregated::generateAll()] *)
Definition generateAll (a : Aggregated) : result Aggregated :=
  let* c := merge_all a in
  check_merged (_aggregationPolicy a) c ;;;
  Ok (with_base a c).

(** [Aggregated::checkSizes()] *)
Definition checkSizes (a : Aggregated) : result unit :=
  foldM (fun _ t => assert_ 228 (getXSize (base a) =? getXSize t))
        tt (_bounds a).

(** [Aggregated::concatenateConstraintsIds] *)
Fixpoint concatenateConstraintsIds (constraints : list Constraint) : string :=
  match constraints with
  | [] => ""
  | [c] => getConstraintID c
  | c :: rest => getConstraintID c +:+ "+" +:+ concatenateConstraintsIds rest
  end.

(** Modelled from the spec: the [Constraint(id, x_size)] base constructor
    is declared in Constraint.h, outside the sources; it leaves every
    representation empty. *)
Definition Constraint_ctor (id : string) (x_size : nat) : Constraint :=
  mkConstraint id x_size [] [] (mkMatrix 0 []) [] (mkMatrix 0 []) [] [].

(** The virtual [update(x)] of the aggregated constraints. *)
Context (child_update : Vector R -> Constraint -> Constraint).

(** [Aggregated::update(x)]. A constraint listed twice is updated once
    per occurrence here; no statement below depends on children being
    shared. *)
Definition update (x : Vector R) (a : Aggregated) : result Aggregated :=
  generateAll (mkAggregated (base a) (map (child_update x) (_bounds a))
                            (_aggregationPolicy a)).

(** [Aggregated(bounds, q, aggregationPolicy)], lines 26-37. *)
Definition Aggregated_from_state (bounds : list Constraint) (q : Vector R)
           (aggregationPolicy : N) : result Aggregated :=
  let a := mkAggregated
             (Constraint_ctor (concatenateConstraintsIds bounds) (length q))
             bounds aggregationPolicy in
  assert_ 32 (0 <? length bounds) ;;;
  checkSizes a ;;;
  update q a.

(** [Aggregated(bounds, x_size, aggregationPolicy)], lines 39-48. *)
Definition Aggregated_from_list (bounds : list Constraint) (x_size : nat)
           (aggregationPolicy : N) : result Aggregated :=
  let a := mkAggregated
             (Constraint_ctor (concatenateConstraintsIds bounds) x_size)
             bounds aggregationPolicy in
  checkSizes a ;;;
  generateAll a.

(** [Aggregated(bound1, bound2, x_size, aggregationPolicy)], lines 50-63. *)
Definition Aggregated_from_pair (bound1 bound2 : Constraint) (x_size : nat)
           (aggregationPolicy : N) : result Aggregated :=
  let a := mkAggregated
             (Constraint_ctor
                (getConstraintID bound1 +:+ "+" +:+ getConstraintID bound2)
                x_size)
             [bound1; bound2] aggregationPolicy in
  checkSizes a ;;;
  generateAll a.

End Constraints.
Arguments Constraint R : clear implicits.
Arguments Aggregated R : clear implicits.
End constraints.

(** ** OpenSoT::tasks::Aggregated (src/tasks/Aggregated.cpp) *)
Module tasks.

(** Modelled from the spec: the [hessianType] tag of a [Task]; the
    enumeration is declared outside the sources, which only name
    [HST_SEMIDEF]. *)
Inductive HessianType : Type :=
| HST_UNKNOWN
| HST_IDENTITY
| HST_POSDEF
| HST_SEMIDEF.

Section Tasks.
Context {R : Type} `{Scalar R}.
(** Shared pointers to constraints, compared by identity. *)
Context {ConstraintPtr : Type}.

(** The data members of a [Task]: what [getTaskID], [getXSize], [getA],
    [getb], [getWeight], [getLambda], [getConstraints] read. *)
Record Task : Type := mkTask {
  getTaskID : string;
  getXSize : nat;
  getA : Matrix R;
  getb : Vector R;
  getWeight : Matrix R;
  getLambda : R;
  getHessianAtype : HessianType;
  getConstraints : list ConstraintPtr
}.

Record Aggregated : Type := mkAggregated {
  base : Task;
  _tasks : list Task
}.

(** [yarp::math::pile] (YARP library): row stacking; when the column
    counts differ an operand without entries is dropped, and two
    non-empty operands give the empty matrix. *)
Definition pile (m1 m2 : Matrix R) : Matrix R :=
  if cols m1 =? cols m2
  then mkMatrix (cols m1) (mrows m1 ++ mrows m2)
  else if rows m1 * cols m1 =? 0 then m2
  else if rows m2 * cols m2 =? 0 then m1
  else mkMatrix 0 [].

(** [yarp::math::cat] on vectors. *)
Definition cat (v1 v2 : Vector R) : Vector R := v1 ++ v2.

(** Lines 97-100: [push_back] of every constraint of the child. *)
Definition push_constraints (mine theirs : list ConstraintPtr)
  : list ConstraintPtr :=
  fold_left (fun acc j => acc ++ [j]) theirs mine.

(** Lines 94-100: the body of the loop over [_tasks]. *)
Definition merge_task (acc : Task) (t : Task) : Task :=
  mkTask (getTaskID acc) (getXSize acc)
         (pile (getA acc) (mmul (getWeight t) (getA t)))
         (cat (getb acc)
              (mvmul (mscale_r (getWeight t) (getLambda t)) (getb t)))
         (getWeight acc) (getLambda acc) (getHessianAtype acc)
         (push_constraints (getConstraints acc) (getConstraints t)).

(** Lines 89-91: clearing the constraint list, [_A] and [_b]. *)
Definition clear (t : Task) : Task :=
  mkTask (getTaskID t) (getXSize t)
         (empty_matrix (getXSize t)) []
         (getWeight t) (getLambda t) (getHessianAtype t) [].

(** [Aggregated::generateAll()] *)
Definition generateAll (a : Aggregated) : Aggregated :=
  mkAggregated (fold_left merge_task (_tasks a) (clear (base a)))
               (_tasks a).

(** [Aggregated::checkSizes()] *)
Definition checkSizes (a : Aggregated) : result unit :=
  foldM (fun _ t => assert_ 83 (getXSize (base a) =? getXSize t))
        tt (_tasks a).

(** The virtual [update(x)] of the aggregated tasks. *)
Context (child_update : Vector R -> Task -> Task).

(** [Aggregated::_update(x)]. A task listed twice is updated once per
    occurrence here; no statement below depends on children being
    shared. *)
Definition _update (x : Vector R) (a : Aggregated) : Aggregated :=
  generateAll (mkAggregated (base a) (map (child_update x) (_tasks a))).

(** Modelled from the spec: [Task::update(x)] is declared in Task.h,
    outside the sources; for the aggregate it "forwards update(x) to
    every child task and then calls generateAll()", which is [_update]. *)
Definition update (x : Vector R) (a : Aggregated) : Aggregated :=
  _update x a.

(** Modelled from the spec: the [Task(id, x_size)] base constructor is
    declared in Task.h, outside the sources; the values it leaves in
    [_W], [_lambda] and [_hessianType] are overwritten or carried along
    unchanged by the code below. *)
Definition Task_ctor (id : string) (x_size : nat) : Task :=
  mkTask id x_size (mkMatrix 0 []) [] (mkMatrix 0 []) s_one HST_UNKNOWN [].

(** [_W.resize(_A.rows(),_A.rows()); _W.eye(); _hessianType = HST_SEMIDEF;] *)
Definition init_weight (a : Aggregated) : Aggregated :=
  let t := base a in
  mkAggregated
    (mkTask (getTaskID t) (getXSize t) (getA t) (getb t)
            (identity (rows (getA t)) (rows (getA t)))
            (getLambda t) HST_SEMIDEF (getConstraints t))
    (_tasks a).

(** [Aggregated(tasks, x_size)], lines 25-35. *)
Definition Aggregated_from_list (tasks : list Task) (x_size : nat)
  : result Aggregated :=
  let a := mkAggregated (Task_ctor "aggregated" x_size) tasks in
  checkSizes a ;;;
  Ok (init_weight (generateAll a)).

(** [Aggregated(task1, task2, x_size)], lines 37-52. *)
Definition Aggregated_from_pair (task1 task2 : Task) (x_size : nat)
  : result Aggregated :=
  let a := mkAggregated (Task_ctor "aggregated" x_size) [task1; task2] in
  checkSizes a ;;;
  Ok (init_weight (generateAll a)).

(** [Aggregated(tasks, q)], lines 54-63. *)
Definition Aggregated_from_state (tasks : list Task) (q : Vector R)
  : result Aggregated :=
  let a := mkAggregated (Task_ctor "aggregated" (length q)) tasks in
  checkSizes a ;;;
  Ok (init_weight (_update q a)).

End Tasks.
Arguments Task R ConstraintPtr : clear implicits.
Arguments Aggregated R ConstraintPtr : clear implicits.
End tasks.

(** ** OpenSoT::OptvarHelper (utils/AffineHelper.cpp) *)
Module OptvarHelper.

(** [int]: 32-bit two's complement. *)
Definition int_wrap (z : Z) : Z := ((z + 2 ^ 31) mod 2 ^ 32 - 2 ^ 31)%Z.
Definition INT_MAX : Z := (2 ^ 31 - 1)%Z.

Record VarInfo : Type := mkVarInfo {
  size : Z;
  start_idx : Z
}.

Record OptvarHelper : Type := mkOptvarHelper {
  _size : Z;
  _vars : list VarInfo;
  _vars_map : gmap string VarInfo
}.

Definition getSize (h : OptvarHelper) : Z := _size h.

(** Lines 13-29: the body of the loop over [name_size_pairs]. *)
Definition register (h : OptvarHelper) (pair : string * Z)
  : result OptvarHelper :=
  match _vars_map h !! pair.1 with
  | Some _ =>
      Err (invalid_argument "Duplicate variable names are not allowed")
  | None =>
      let vinfo := mkVarInfo pair.2 (_size h) in
      Ok (mkOptvarHelper (int_wrap (_size h + size vinfo))
                         (_vars h ++ [vinfo])
                         (<[pair.1 := vinfo]> (_vars_map h)))
  end.

(** [OptvarHelper::OptvarHelper(name_size_pairs)] *)
Definition ctor (name_size_pairs : list (string * Z)) : result OptvarHelper :=
  foldM register (mkOptvarHelper 0 [] ∅) name_size_pairs.

Section GetVar.
Context {R : Type} `{Scalar R}.

(** The pair [(M, q)] handed to the [AffineHelper] constructor. *)
Record AffineHelper : Type := mkAffineHelper {
  getM : Matrix R;
  getq : Vector R
}.

(** [M.block(i0, j0, br, bc) = B]: Eigen checks that the block lies
    inside [M] and that [B] has the block's shape. *)
Definition assign_block (M : Matrix R) (i0 j0 br bc : Z) (B : Matrix R)
  : result (Matrix R) :=
  if ((0 <=? i0) && (0 <=? br) && (i0 + br <=? Z.of_nat (rows M))
      && (0 <=? j0) && (0 <=? bc) && (j0 + bc <=? Z.of_nat (cols M))
      && (Z.of_nat (rows B) =? br) && (Z.of_nat (cols B) =? bc))%Z
  then
    Ok (mkMatrix (cols M)
          (imap (fun i row =>
                   imap (fun j x =>
                           if (Z.to_nat i0 <=? i) && (i <? Z.to_nat (i0 + br))
                              && (Z.to_nat j0 <=? j) && (j <? Z.to_nat (j0 + bc))
                           then default x (entry B (i - Z.to_nat i0)
                                                   (j - Z.to_nat j0))
                           else x) row)
                (mrows M)))
  else Err DimensionMismatch.

(** [OptvarHelper::getVar(name)] *)
Definition getVar (h : OptvarHelper) (name : string) : result AffineHelper :=
  match _vars_map h !! name with
  | None => Err (invalid_argument "Variable does not exist")
  | Some it =>
      if ((size it <? 0) || (_size h <? 0))%Z then Err DimensionMismatch
      else
        let M := zero_matrix (Z.to_nat (size it)) (Z.to_nat (_size h)) in
        let q := vzero (Z.to_nat (size it)) in
        let* M := assign_block M 0 (start_idx it)
                               (Z.of_nat (rows M)) (size it)
                               (identity (rows M) (Z.to_nat (size it))) in
        Ok (mkAffineHelper M q)
  end.

End GetVar.
Arguments AffineHelper R : clear implicits.
End OptvarHelper.

(** ** A concrete scalar type for running the embedding: integers, with
    [DBL_MAX = 2^1024 - 2^971] and the first integer above it standing for
    infinity. *)
#[global] Instance Z_Scalar : Scalar Z := {
  s_zero := 0%Z;
  s_one := 1%Z;
  s_add := Z.add;
  s_mul := Z.mul;
  s_opp := Z.opp;
  s_ltb := Z.ltb;
  s_infinity := (2 ^ 1024)%Z;
  s_max := (2 ^ 1024 - 2 ^ 971)%Z
}.

(** ** Concrete inputs *)
Module examples.
Import constraints.

Definition no_matrix : Matrix Z := mkMatrix 0 [].

(** Two boxes over [x_size = 2]: the boxes [-1,1]^2 and
    [-0.5,0.5] x [-2,2], scaled by two to stay in the integers. *)
Definition box1 : Constraint Z :=
  mkConstraint "box1" 2 [-2; -2]%Z [2; 2]%Z no_matrix [] no_matrix [] [].
Definition box2 : Constraint Z :=
  mkConstraint "box2" 2 [-1; -4]%Z [1; 4]%Z no_matrix [] no_matrix [] [].

(** An equality [x0 + 2 x1 = 7]. *)
Definition equality : Constraint Z :=
  mkConstraint "eq" 2 [] [] (mkMatrix 2 [[1; 2]%Z]) [7%Z] no_matrix [] [].

(** Inequalities on [x0 + 2 x1]: bounded below by 5, above by 5, and
    between 3 and 5. *)
Definition lower_only : Constraint Z :=
  mkConstraint "lower" 2 [] [] no_matrix [] (mkMatrix 2 [[1; 2]%Z]) [5%Z] [].
Definition upper_only : Constraint Z :=
  mkConstraint "upper" 2 [] [] no_matrix [] (mkMatrix 2 [[1; 2]%Z]) [] [5%Z].
Definition two_sided : Constraint Z :=
  mkConstraint "both" 2 [] [] no_matrix [] (mkMatrix 2 [[1; 2]%Z]) [3%Z] [5%Z].

(** A constraint over seven variables. *)
Definition seven : Constraint Z :=
  mkConstraint "seven" 7 [] [] no_matrix [] no_matrix [] [].

(** An aggregate over [x_size = 2] before its first [generateAll()]. *)
Definition aggregate (bounds : list (Constraint Z)) (policy : N)
  : Aggregated Z :=
  mkAggregated (Constraint_ctor (concatenateConstraintsIds bounds) 2)
               bounds policy.

Definition merged (lower upper : list Z)
           (Aeq : list (list Z)) (beq : list Z)
           (Aineq : list (list Z)) (bLower bUpper : list Z)
           (bounds : list (Constraint Z)) (policy : N) : Aggregated Z :=
  mkAggregated
    (mkConstraint (concatenateConstraintsIds bounds) 2 lower upper
                  (mkMatrix 2 Aeq) beq (mkMatrix 2 Aineq) bLower bUpper)
    bounds policy.

Definition bilateral_folding : N :=
  N.lor EQUALITIES_TO_INEQUALITIES UNILATERAL_TO_BILATERAL.

(** A two-sided inequality, an equality and a box, and what
    [generateAll()] makes of them with both policy flags set. *)
Definition mixed : list (Constraint Z) := [two_sided; equality; box1].
Definition mixed_merged : Aggregated Z :=
  merged [-2; -2]%Z [2; 2]%Z [] [] [[1; 2]; [1; 2]]%Z [3; 7]%Z [5; 7]%Z
         mixed bilateral_folding.

(** Two tasks over [x_size = 2]: [T1] with [W1 = 2 I], [lambda1 = 1];
    [T2] with [W2 = I], [lambda2 = 3]. *)
Definition T1 : tasks.Task Z nat :=
  tasks.mkTask "T1" 2 (mkMatrix 2 [[1; 2]; [3; 4]]%Z) [5; 6]%Z
               (mscale 2%Z (identity 2 2)) 1%Z tasks.HST_SEMIDEF [10].
Definition T2 : tasks.Task Z nat :=
  tasks.mkTask "T2" 2 (mkMatrix 2 [[7; 8]]%Z) [9]%Z
               (identity 1 1) 3%Z tasks.HST_SEMIDEF [10; 11].
Definition task_aggregate : tasks.Aggregated Z nat :=
  tasks.mkAggregated (tasks.Task_ctor "aggregated" 2) [T1; T2].

(** An update that gives every task a single row. *)
Definition shrink (x : list Z) (t : tasks.Task Z nat) : tasks.Task Z nat :=
  tasks.mkTask (tasks.getTaskID t) (tasks.getXSize t)
               (mkMatrix 2 [x]) [0%Z] (identity 1 1)
               (tasks.getLambda t) (tasks.getHessianAtype t)
               (tasks.getConstraints t).

End examples.

(** ** Vocabulary of the statements *)
Section Vocabulary.
Context {R : Type} `{Scalar R}.
Import constraints.

(** [m] is a least element of [xs] for [<]. *)
Definition is_minimum (m : R) (xs : list R) : Prop :=
  m ∈ xs /\ forall v, v ∈ xs -> s_ltb v m = false.
(** [m] is a greatest element of [xs] for [<]. *)
Definition is_maximum (m : R) (xs : list R) : Prop :=
  m ∈ xs /\ forall v, v ∈ xs -> s_ltb m v = false.

(** What a step of the merge loop leaves alone and what it appends to. *)
Record grows (p : N) (c c' : Constraint R) : Prop := mkGrows {
  grows_id : getConstraintID c' = getConstraintID c;
  grows_x_size : getXSize c' = getXSize c;
  grows_cols_eq : cols (getAeq c') = cols (getAeq c);
  grows_cols_ineq : cols (getAineq c') = cols (getAineq c);
  grows_Aineq : exists d, mrows (getAineq c') = mrows (getAineq c) ++ d;
  grows_bLower : exists d, getbLowerBound c' = getbLowerBound c ++ d;
  grows_bUpper : exists d, getbUpperBound c' = getbUpperBound c ++ d;
  grows_E2I : flag_set p EQUALITIES_TO_INEQUALITIES = true ->
              getAeq c' = getAeq c /\ getbeq c' = getbeq c
}.

(** In bilateral mode every inequality row carries both bounds. *)
Definition balanced (c : Constraint R) : Prop :=
  length (getbLowerBound c) = rows (getAineq c) /\
  length (getbUpperBound c) = rows (getAineq c).

(** [k] times the [n] by [n] identity, written out entry by entry. *)
Definition scalar_matrix (n : nat) (k : R) : Matrix R :=
  mkMatrix n (map (fun i => map (fun j => if j =? i then k else s_zero)
                                (seq 0 n))
                  (seq 0 n)).

(** [1.0 + 1.0] *)
Definition s_two : R := s_add s_one s_one.

(** The two exceptions of [OptvarHelper]. *)
Definition duplicate_names : failure :=
  invalid_argument "Duplicate variable names are not allowed".
Definition unknown_name : failure :=
  invalid_argument "Variable does not exist".

(** Sum of the sizes of a list of named segments. *)
Definition total_size (pairs : list (string * Z)) : Z :=
  foldr (fun (p : string * Z) acc => (p.2 + acc)%Z) 0%Z pairs.

End Vocabulary.

(** ** OpenSoT::tasks::torque::CartesianImpedanceCtrl
    (src/tasks/torque/CartesianImpedanceCtrl.cpp) *)
Module torque.

(** What the task asks of the robot model ([XBot::ModelInterface]) at the
    time of a call: the answers of [getLinkID], [getJacobian] and
    [getRelativeJacobian] ([None] when they return [false]),
    [getInertiaMatrix], the two [getPose] and [getJointVelocity]. *)
Record ModelInterface (R : Type) : Type := mkModelInterface {
  getLinkID : string -> Z;
  getJacobian : string -> option (Matrix R);
  getRelativeJacobian : string -> string -> option (Matrix R);
  getInertiaMatrix : Matrix R;
  getPose : string -> Matrix R;
  getRelativePose : string -> string -> Matrix R;
  getJointVelocity : Vector R
}.
Arguments getLinkID {R} m link.
Arguments getJacobian {R} m link.
Arguments getRelativeJacobian {R} m link base.
Arguments getInertiaMatrix {R} m.
Arguments getPose {R} m link.
Arguments getRelativePose {R} m base link.
Arguments getJointVelocity {R} m.

Section Torque.
Context {R : Type} `{Scalar R} {ConstraintPtr : Type}.
(** Outside the sources: the frame name [WORLD_FRAME_NAME], the literal
    [100.0], Eigen's [inverse()] and
    [cartesian_utils::computeCartesianError]. *)
Context (WORLD_FRAME_NAME : string) (hundred : R)
        (inverse : Matrix R -> Matrix R)
        (computeCartesianError : Matrix R -> Matrix R -> Vector R * Vector R).

(** The data members; a link index is [None] until it is assigned. *)
Record CartesianImpedanceCtrl : Type := mkCartesianImpedanceCtrl {
  task : tasks.Task R ConstraintPtr;
  _distal_link : string;
  _base_link : string;
  _base_link_index : option Z;
  _distal_link_index : option Z;
  _base_link_is_world : bool;
  _J : Matrix R;
  _M : Matrix R;
  _K : Matrix R;
  _D : Matrix R;
  _desiredPose : Matrix R;
  _actualPose : Matrix R;
  _desiredTwist : Vector R;
  positionError : Vector R;
  orientationError : Vector R;
  linearVelocityError : Vector R;
  orientationVelocityError : Vector R;
  _use_inertia_matrix : bool
}.

Definition set_task (s : CartesianImpedanceCtrl) (v : tasks.Task R ConstraintPtr)
  : CartesianImpedanceCtrl :=
  mkCartesianImpedanceCtrl v (_distal_link s) (_base_link s)
    (_base_link_index s) (_distal_link_index s) (_base_link_is_world s) (_J
    s) (_M s) (_K s) (_D s) (_desiredPose s) (_actualPose s) (_desiredTwist
    s) (positionError s) (orientationError s) (linearVelocityError s)
    (orientationVelocityError s) (_use_inertia_matrix s).
Definition set_distal_link (s : CartesianImpedanceCtrl) (v : string)
  : CartesianImpedanceCtrl :=
  mkCartesianImpedanceCtrl (task s) v (_base_link s) (_base_link_index s)
    (_distal_link_index s) (_base_link_is_world s) (_J s) (_M s) (_K s) (_D
    s) (_desiredPose s) (_actualPose s) (_desiredTwist s) (positionError s)
    (orientationError s) (linearVelocityError s) (orientationVelocityError
    s) (_use_inertia_matrix s).
Definition set_base_link (s : CartesianImpedanceCtrl) (v : string)
  : CartesianImpedanceCtrl :=
  mkCartesianImpedanceCtrl (task s) (_distal_link s) v (_base_link_index
    s) (_distal_link_index s) (_base_link_is_world s) (_J s) (_M s) (_K s)
    (_D s) (_desiredPose s) (_actualPose s) (_desiredTwist s) (positionError
    s) (orientationError s) (linearVelocityError s)
    (orientationVelocityError s) (_use_inertia_matrix s).
Definition set_base_link_index (s : CartesianImpedanceCtrl) (v : option Z)
  : CartesianImpedanceCtrl :=
  mkCartesianImpedanceCtrl (task s) (_distal_link s) (_base_link s) v
    (_distal_link_index s) (_base_link_is_world s) (_J s) (_M s) (_K s) (_D
    s) (_desiredPose s) (_actualPose s) (_desiredTwist s) (positionError s)
    (orientationError s) (linearVelocityError s) (orientationVelocityError
    s) (_use_inertia_matrix s).
Definition set_distal_link_index (s : CartesianImpedanceCtrl) (v : option Z)
  : CartesianImpedanceCtrl :=
  mkCartesianImpedanceCtrl (task s) (_distal_link s) (_base_link s)
    (_base_link_index s) v (_base_link_is_world s) (_J s) (_M s) (_K s) (_D
    s) (_desiredPose s) (_actualPose s) (_desiredTwist s) (positionError s)
    (orientationError s) (linearVelocityError s) (orientationVelocityError
    s) (_use_inertia_matrix s).
Definition set_base_link_is_world (s : CartesianImpedanceCtrl) (v : bool)
  : CartesianImpedanceCtrl :=
  mkCartesianImpedanceCtrl (task s) (_distal_link s) (_base_link s)
    (_base_link_index s) (_distal_link_index s) v (_J s) (_M s) (_K s) (_D
    s) (_desiredPose s) (_actualPose s) (_desiredTwist s) (positionError s)
    (orientationError s) (linearVelocityError s) (orientationVelocityError
    s) (_use_inertia_matrix s).
Definition set_J (s : CartesianImpedanceCtrl) (v : Matrix R)
  : CartesianImpedanceCtrl :=
  mkCartesianImpedanceCtrl (task s) (_distal_link s) (_base_link s)
    (_base_link_index s) (_distal_link_index s) (_base_link_is_world s) v
    (_M s) (_K s) (_D s) (_desiredPose s) (_actualPose s) (_desiredTwist s)
    (positionError s) (orientationError s) (linearVelocityError s)
    (orientationVelocityError s) (_use_inertia_matrix s).
Definition set_M (s : CartesianImpedanceCtrl) (v : Matrix R)
  : CartesianImpedanceCtrl :=
  mkCartesianImpedanceCtrl (task s) (_distal_link s) (_base_link s)
    (_base_link_index s) (_distal_link_index s) (_base_link_is_world s) (_J
    s) v (_K s) (_D s) (_desiredPose s) (_actualPose s) (_desiredTwist s)
    (positionError s) (orientationError s) (linearVelocityError s)
    (orientationVelocityError s) (_use_inertia_matrix s).
Definition set_K (s : CartesianImpedanceCtrl) (v : Matrix R)
  : CartesianImpedanceCtrl :=
  mkCartesianImpedanceCtrl (task s) (_distal_link s) (_base_link s)
    (_base_link_index s) (_distal_link_index s) (_base_link_is_world s) (_J
    s) (_M s) v (_D s) (_desiredPose s) (_actualPose s) (_desiredTwist s)
    (positionError s) (orientationError s) (linearVelocityError s)
    (orientationVelocityError s) (_use_inertia_matrix s).
Definition set_D (s : CartesianImpedanceCtrl) (v : Matrix R)
  : CartesianImpedanceCtrl :=
  mkCartesianImpedanceCtrl (task s) (_distal_link s) (_base_link s)
    (_base_link_index s) (_distal_link_index s) (_base_link_is_world s) (_J
    s) (_M s) (_K s) v (_desiredPose s) (_actualPose s) (_desiredTwist s)
    (positionError s) (orientationError s) (linearVelocityError s)
    (orientationVelocityError s) (_use_inertia_matrix s).
Definition set_desiredPose (s : CartesianImpedanceCtrl) (v : Matrix R)
  : CartesianImpedanceCtrl :=
  mkCartesianImpedanceCtrl (task s) (_distal_link s) (_base_link s)
    (_base_link_index s) (_distal_link_index s) (_base_link_is_world s) (_J
    s) (_M s) (_K s) (_D s) v (_actualPose s) (_desiredTwist s)
    (positionError s) (orientationError s) (linearVelocityError s)
    (orientationVelocityError s) (_use_inertia_matrix s).
Definition set_actualPose (s : CartesianImpedanceCtrl) (v : Matrix R)
  : CartesianImpedanceCtrl :=
  mkCartesianImpedanceCtrl (task s) (_distal_link s) (_base_link s)
    (_base_link_index s) (_distal_link_index s) (_base_link_is_world s) (_J
    s) (_M s) (_K s) (_D s) (_desiredPose s) v (_desiredTwist s)
    (positionError s) (orientationError s) (linearVelocityError s)
    (orientationVelocityError s) (_use_inertia_matrix s).
Definition set_desiredTwist (s : CartesianImpedanceCtrl) (v : Vector R)
  : CartesianImpedanceCtrl :=
  mkCartesianImpedanceCtrl (task s) (_distal_link s) (_base_link s)
    (_base_link_index s) (_distal_link_index s) (_base_link_is_world s) (_J
    s) (_M s) (_K s) (_D s) (_desiredPose s) (_actualPose s) v
    (positionError s) (orientationError s) (linearVelocityError s)
    (orientationVelocityError s) (_use_inertia_matrix s).
Definition set_positionError (s : CartesianImpedanceCtrl) (v : Vector R)
  : CartesianImpedanceCtrl :=
  mkCartesianImpedanceCtrl (task s) (_distal_link s) (_base_link s)
    (_base_link_index s) (_distal_link_index s) (_base_link_is_world s) (_J
    s) (_M s) (_K s) (_D s) (_desiredPose s) (_actualPose s) (_desiredTwist
    s) v (orientationError s) (linearVelocityError s)
    (orientationVelocityError s) (_use_inertia_matrix s).
Definition set_orientationError (s : CartesianImpedanceCtrl) (v : Vector R)
  : CartesianImpedanceCtrl :=
  mkCartesianImpedanceCtrl (task s) (_distal_link s) (_base_link s)
    (_base_link_index s) (_distal_link_index s) (_base_link_is_world s) (_J
    s) (_M s) (_K s) (_D s) (_desiredPose s) (_actualPose s) (_desiredTwist
    s) (positionError s) v (linearVelocityError s) (orientationVelocityError
    s) (_use_inertia_matrix s).
Definition set_linearVelocityError (s : CartesianImpedanceCtrl) (v : Vector R)
  : CartesianImpedanceCtrl :=
  mkCartesianImpedanceCtrl (task s) (_distal_link s) (_base_link s)
    (_base_link_index s) (_distal_link_index s) (_base_link_is_world s) (_J
    s) (_M s) (_K s) (_D s) (_desiredPose s) (_actualPose s) (_desiredTwist
    s) (positionError s) (orientationError s) v (orientationVelocityError s)
    (_use_inertia_matrix s).
Definition set_orientationVelocityError (s : CartesianImpedanceCtrl) (v : Vector R)
  : CartesianImpedanceCtrl :=
  mkCartesianImpedanceCtrl (task s) (_distal_link s) (_base_link s)
    (_base_link_index s) (_distal_link_index s) (_base_link_is_world s) (_J
    s) (_M s) (_K s) (_D s) (_desiredPose s) (_actualPose s) (_desiredTwist
    s) (positionError s) (orientationError s) (linearVelocityError s) v
    (_use_inertia_matrix s).
Definition set_use_inertia_matrix (s : CartesianImpedanceCtrl) (v : bool)
  : CartesianImpedanceCtrl :=
  mkCartesianImpedanceCtrl (task s) (_distal_link s) (_base_link s)
    (_base_link_index s) (_distal_link_index s) (_base_link_is_world s) (_J
    s) (_M s) (_K s) (_D s) (_desiredPose s) (_actualPose s) (_desiredTwist
    s) (positionError s) (orientationError s) (linearVelocityError s)
    (orientationVelocityError s) v.

Definition set_A (s : CartesianImpedanceCtrl) (A : Matrix R)
  : CartesianImpedanceCtrl :=
  let t := task s in
  set_task s (tasks.mkTask (tasks.getTaskID t) (tasks.getXSize t) A
                           (tasks.getb t) (tasks.getWeight t)
                           (tasks.getLambda t) (tasks.getHessianAtype t)
                           (tasks.getConstraints t)).
Definition set_b (s : CartesianImpedanceCtrl) (b : Vector R)
  : CartesianImpedanceCtrl :=
  let t := task s in
  set_task s (tasks.mkTask (tasks.getTaskID t) (tasks.getXSize t)
                           (tasks.getA t) b (tasks.getWeight t)
                           (tasks.getLambda t) (tasks.getHessianAtype t)
                           (tasks.getConstraints t)).

(** Eigen's products, sums, differences and [segment] check their
    operands' sizes. *)
Definition checked_mmul (a b : Matrix R) : result (Matrix R) :=
  if cols a =? rows b then Ok (mmul a b) else Err DimensionMismatch.
Definition checked_mvmul (m : Matrix R) (v : Vector R) : result (Vector R) :=
  if cols m =? length v then Ok (mvmul m v) else Err DimensionMismatch.
Definition checked_vadd (u v : Vector R) : result (Vector R) :=
  if length u =? length v then Ok (vadd u v) else Err DimensionMismatch.
Definition checked_vsub (u v : Vector R) : result (Vector R) :=
  if length u =? length v
  then Ok (zip_with (fun x y => s_add x (s_opp y)) u v)
  else Err DimensionMismatch.
Definition segment (v : Vector R) (start n : nat) : result (Vector R) :=
  if start + n <=? length v then Ok (take n (drop start v))
  else Err DimensionMismatch.
Definition transpose (m : Matrix R) : Matrix R :=
  mkMatrix (rows m)
           (map (fun j => map (fun r : list R => r !!! j) (mrows m))
                (seq 0 (cols m))).

(** [setStiffness], [setDamping], [setStiffnessDamping] *)
Definition setStiffness (Stiffness : Matrix R) (s : CartesianImpedanceCtrl)
  : CartesianImpedanceCtrl :=
  if (cols Stiffness =? 6) && (rows Stiffness =? 6)
  then set_K s Stiffness else s.
Definition setDamping (Damping : Matrix R) (s : CartesianImpedanceCtrl)
  : CartesianImpedanceCtrl :=
  if (cols Damping =? 6) && (rows Damping =? 6)
  then set_D s Damping else s.
Definition setStiffnessDamping (Stiffness Damping : Matrix R)
           (s : CartesianImpedanceCtrl) : CartesianImpedanceCtrl :=
  setDamping Damping (setStiffness Stiffness s).

(** [getStiffness], [getDamping], [getStiffnessDamping] *)
Definition getStiffness (s : CartesianImpedanceCtrl) : Matrix R := _K s.
Definition getDamping (s : CartesianImpedanceCtrl) : Matrix R := _D s.
Definition getStiffnessDamping (s : CartesianImpedanceCtrl)
  : Matrix R * Matrix R :=
  (getStiffness s, getDamping s).

(** [getSpringForce], [getDamperForce] *)
Definition getSpringForce (s : CartesianImpedanceCtrl) : result (Vector R) :=
  let tmp := positionError s ++ vscale (s_opp s_one) (orientationError s) in
  checked_mvmul (_K s) tmp.
Definition getDamperForce (s : CartesianImpedanceCtrl) : result (Vector R) :=
  let tmp := linearVelocityError s ++ orientationVelocityError s in
  checked_mvmul (_D s) tmp.

(** [update_b] *)
Definition update_b (robot : ModelInterface R) (s : CartesianImpedanceCtrl)
  : result CartesianImpedanceCtrl :=
  let errors := computeCartesianError (_actualPose s) (_desiredPose s) in
  let s := set_orientationError (set_positionError s errors.1) errors.2 in
  let qdot := getJointVelocity robot in
  let* xdot := checked_mvmul (_J s) qdot in
  let* twist_lin := segment (_desiredTwist s) 0 3 in
  let* xdot_lin := segment xdot 0 3 in
  let* lin := checked_vsub twist_lin xdot_lin in
  let s := set_linearVelocityError s lin in
  let* twist_ang := segment (_desiredTwist s) 3 3 in
  let* xdot_ang := segment xdot 3 3 in
  let* ang := checked_vsub twist_ang xdot_ang in
  let s := set_orientationVelocityError s ang in
  let* damper := getDamperForce s in
  let* spring := getSpringForce s in
  let* F := checked_vadd damper spring in
  let* AJt := checked_mmul (tasks.getA (task s)) (transpose (_J s)) in
  let* b := checked_mvmul AJt F in
  Ok (set_b s b).

(** [_update(x)]; the state vector is not read. *)
Definition _update (robot : ModelInterface R) (x : Vector R)
           (s : CartesianImpedanceCtrl) : result CartesianImpedanceCtrl :=
  let* s :=
    if _base_link_is_world s
    then match getJacobian robot (_distal_link s) with
         | Some J => Ok (set_A s J)
         | None => Err (AssertionFailed 77)
         end
    else match getRelativeJacobian robot (_distal_link s) (_base_link s) with
         | Some J => Ok (set_A s J)
         | None => Err (AssertionFailed 80)
         end in
  let s := set_J s (tasks.getA (task s)) in
  let* s :=
    if _use_inertia_matrix s
    then
      let s := set_M s (getInertiaMatrix robot) in
      let* A := checked_mmul (_J s) (inverse (_M s)) in
      Ok (set_A s A)
    else Ok s in
  let s := set_actualPose s
             (if _base_link_is_world s
              then getPose robot (_distal_link s)
              else getRelativePose robot (_base_link s) (_distal_link s)) in
  let s :=
    if rows (_desiredPose s) =? 0
    then set_b (set_desiredPose s (_actualPose s))
               (vzero (length (tasks.getb (task s))))
    else s in
  let* s := update_b robot s in
  Ok (set_desiredTwist s (vzero (length (_desiredTwist s)))).

(** [setReference(desiredPose)] *)
Definition setReference (robot : ModelInterface R) (desiredPose : Matrix R)
           (s : CartesianImpedanceCtrl) : result CartesianImpedanceCtrl :=
  assert_ 144 (rows desiredPose =? 4) ;;;
  assert_ 145 (cols desiredPose =? 4) ;;;
  let s := set_desiredPose s desiredPose in
  let s := set_desiredTwist s (vzero (length (_desiredTwist s))) in
  update_b robot s.

(** [setReference(desiredPose, desiredTwist)] *)
Definition setReference_twist (robot : ModelInterface R)
           (desiredPose : Matrix R) (desiredTwist : Vector R)
           (s : CartesianImpedanceCtrl) : result CartesianImpedanceCtrl :=
  assert_ 155 (length desiredTwist =? 6) ;;;
  assert_ 156 (rows desiredPose =? 4) ;;;
  assert_ 157 (cols desiredPose =? 4) ;;;
  let s := set_desiredPose s desiredPose in
  let s := set_desiredTwist s desiredTwist in
  update_b robot s.

(** [getReference], [getActualPose], [getDistalLink], [getBaseLink],
    [baseLinkIsWorld], [useInertiaMatrix] *)
Definition getReference (s : CartesianImpedanceCtrl) : Matrix R :=
  _desiredPose s.
Definition getReference_twist (s : CartesianImpedanceCtrl)
  : Matrix R * Vector R :=
  (_desiredPose s, _desiredTwist s).
Definition getActualPose (s : CartesianImpedanceCtrl) : Matrix R :=
  _actualPose s.
Definition getDistalLink (s : CartesianImpedanceCtrl) : string :=
  _distal_link s.
Definition getBaseLink (s : CartesianImpedanceCtrl) : string := _base_link s.
Definition baseLinkIsWorld (s : CartesianImpedanceCtrl) : bool :=
  _base_link_is_world s.
Definition useInertiaMatrix (use : bool) (s : CartesianImpedanceCtrl)
  : CartesianImpedanceCtrl :=
  set_use_inertia_matrix s use.

(** The constructor, lines 26-65. The members it does not initialise
    (matrices of no size, the error vectors) are given as empty. *)
Definition CartesianImpedanceCtrl_ctor (task_id : string) (x : Vector R)
           (robot : ModelInterface R) (distal_link base_link : string)
  : result CartesianImpedanceCtrl :=
  let s := mkCartesianImpedanceCtrl
             (tasks.Task_ctor task_id (length x))
             distal_link base_link None None false
             (mkMatrix 0 []) (mkMatrix 0 []) (mkMatrix 0 []) (mkMatrix 0 [])
             (mkMatrix 0 []) (mkMatrix 0 []) (vzero 6)
             [] [] [] [] true in
  let s := set_desiredTwist s (vzero (length (_desiredTwist s))) in
  let s := set_base_link_is_world s (String.eqb (_base_link s) WORLD_FRAME_NAME) in
  let* s :=
    if negb (_base_link_is_world s)
    then
      let idx := getLinkID robot (_base_link s) in
      assert_ 42 (0 <=? idx)%Z ;;;
      Ok (set_base_link_index s (Some idx))
    else Ok s in
  let idx := getLinkID robot (_distal_link s) in
  let s := set_distal_link_index s (Some idx) in
  assert_ 46 (0 <=? idx)%Z ;;;
  (if negb (_base_link_is_world s)
   then assert_ 49 (negb (bool_decide (_distal_link_index s = _base_link_index s)))
   else Ok tt) ;;;
  let s := set_K s (mscale hundred (identity 6 6)) in
  let s := set_D s (mscale s_one (identity 6 6)) in
  let* s := _update robot x s in
  let t := task s in
  let n := rows (tasks.getA t) in
  Ok (set_task s (tasks.mkTask (tasks.getTaskID t) (tasks.getXSize t)
                               (tasks.getA t) (tasks.getb t)
                               (identity n n) s_one tasks.HST_SEMIDEF
                               (tasks.getConstraints t))).

End Torque.
Arguments CartesianImpedanceCtrl R ConstraintPtr : clear implicits.
End torque.

(** ** Further concrete inputs *)
Module more_examples.
Import constraints examples.

(** A second equality, [3 x0 = 4], and a constraint exposing nothing. *)
Definition equality2 : Constraint Z :=
  mkConstraint "eq2" 2 [] [] (mkMatrix 2 [[3; 0]%Z]) [4%Z] no_matrix [] [].
Definition nothing : Constraint Z :=
  mkConstraint "none" 2 [] [] no_matrix [] no_matrix [] [].

Definition sided : list (Constraint Z) :=
  [upper_only; lower_only; two_sided; equality].

(** A robot model with two joints: the links "hand" and "torso", one
    Jacobian, a unit inertia matrix, the identity as every pose. *)
Definition jacobian : Matrix Z :=
  mkMatrix 2 [[1; 0]; [0; 1]; [1; 1]; [0; 0]; [2; 0]; [0; 2]]%Z.
Definition robot : torque.ModelInterface Z :=
  torque.mkModelInterface Z
    (fun link => if String.eqb link "hand" then 3%Z
                 else if String.eqb link "torso" then 1%Z else (-1)%Z)
    (fun link => if String.eqb link "hand" then Some jacobian else None)
    (fun link base => Some jacobian)
    (identity 2 2)
    (fun _ => identity 4 4)
    (fun _ _ => identity 4 4)
    [1; 1]%Z.
Definition no_error (actual desired : Matrix Z) : list Z * list Z :=
  ([0; 0; 0]%Z, [0; 0; 0]%Z).
Definition new_impedance (distal base : string)
  : result (torque.CartesianImpedanceCtrl Z nat) :=
  torque.CartesianImpedanceCtrl_ctor "world" 100%Z (fun m => m) no_error
    "impedance" [0; 0]%Z robot distal base.

(** A box over one variable only. *)
Definition short_box : Constraint Z :=
  mkConstraint "short" 2 [0%Z] [1%Z] no_matrix [] no_matrix [] [].

Definition three_names : list (string * Z) :=
  [("a", 2%Z); ("b", 3%Z); ("c", 1%Z)].

Definition raised_pose : Matrix Z :=
  mkMatrix 4 [[1; 0; 0; 0]; [0; 1; 0; 0]; [0; 0; 1; 5]; [0; 0; 0; 1]]%Z.

End more_examples.

(** ** Vocabulary of the further statements *)
Section MergeVocabulary.
Context {R : Type} `{Scalar R}.
Import constraints.

(** The rows a child adds to the merged inequality matrix when
    UNILATERAL_TO_BILATERAL is set: its equality rows if equalities are
    folded, then its inequality rows. *)
Definition bilateral_rows (p : N) (b : Constraint R) : list (list R) :=
  (if flag_set p EQUALITIES_TO_INEQUALITIES then mrows (getAeq b) else [])
  ++ mrows (getAineq b).

(** The entries a child adds to [_bLowerBound] in that mode: a missing
    lower side is filled with [1 * -max()]. *)
Definition bilateral_lower (p : N) (b : Constraint R) : list R :=
  (if flag_set p EQUALITIES_TO_INEQUALITIES then getbeq b else [])
  ++ (if length (getbUpperBound b) =? 0 then getbLowerBound b
      else if length (getbLowerBound b) =? 0
           then vones_times (rows (getAineq b)) (s_opp s_max)
           else getbLowerBound b).

(** The entries a child adds to [_bUpperBound] in that mode: a missing
    upper side is filled with [1 * infinity()]. *)
Definition bilateral_upper (p : N) (b : Constraint R) : list R :=
  (if flag_set p EQUALITIES_TO_INEQUALITIES then getbeq b else [])
  ++ (if length (getbUpperBound b) =? 0
      then vones_times (rows (getAineq b)) s_infinity
      else getbUpperBound b).

(** A child that passes every assertion of the merge loop of an aggregate
    over [x_size] variables. *)
Definition consistent_child (x_size : nat) (b : Constraint R) : bool :=
  (((length (getUpperBound b) =? 0) && (length (getLowerBound b) =? 0))
   || ((length (getUpperBound b) =? x_size)
       && (length (getLowerBound b) =? x_size)))
  && (rows (getAeq b) =? length (getbeq b))
  && ((rows (getAeq b) =? 0) || (cols (getAeq b) =? x_size))
  && (((rows (getAineq b) =? 0) && (length (getbLowerBound b) =? 0)
       && (length (getbUpperBound b) =? 0))
      || ((0 <? rows (getAineq b)) && (cols (getAineq b) =? x_size)
          && ((0 <? length (getbLowerBound b))
              || (0 <? length (getbUpperBound b)))
          && ((length (getbLowerBound b) =? 0)
              || (length (getbLowerBound b) =? rows (getAineq b)))
          && ((length (getbUpperBound b) =? 0)
              || (length (getbUpperBound b) =? rows (getAineq b))))).

(** A child that exposes no representation at all. *)
Definition exposes_nothing (b : Constraint R) : bool :=
  (length (getUpperBound b) =? 0) && (length (getLowerBound b) =? 0)
  && (rows (getAeq b) =? 0) && (length (getbeq b) =? 0)
  && (rows (getAineq b) =? 0) && (length (getbLowerBound b) =? 0)
  && (length (getbUpperBound b) =? 0).

(** [Aggregated::concatenateConstraintsIds] as the loop is written: the
    identifiers are appended one by one, the counter [constraintSize] is
    decremented, and a ["+"] is appended while it stays positive. *)
Definition concatenateConstraintsIds_loop (constraints : list (Constraint R))
  : string :=
  (fold_left
     (fun (st : string * Z) (c : Constraint R) =>
        let concatenatedId := st.1 +:+ getConstraintID c in
        let constraintSize := (st.2 - 1)%Z in
        (if (0 <? constraintSize)%Z then concatenatedId +:+ "+"
         else concatenatedId,
         constraintSize))
     constraints ("", Z.of_nat (length constraints))).1.

(** What the merge loop keeps true of the merged members between two
    children. *)
Definition shape_ok (c : Constraint R) : Prop :=
  cols (getAeq c) = getXSize c /\ cols (getAineq c) = getXSize c /\
  ((length (getUpperBound c) = 0 /\ length (getLowerBound c) = 0) \/
   (length (getUpperBound c) = getXSize c /\
    length (getLowerBound c) = getXSize c)) /\
  rows (getAeq c) = length (getbeq c).

(** [lower <= x <= upper], entry by entry: no entry of [x] is below the
    lower bound and no upper bound is below the entry. *)
Definition in_box (lower upper x : list R) : Prop :=
  forall i l u v,
    lower !! i = Some l -> upper !! i = Some u -> x !! i = Some v ->
    s_ltb v l = false /\ s_ltb u v = false.

(** The seven merged members of a constraint. *)
Definition merged_members (c : Constraint R)
  : list R * list R * Matrix R * list R * Matrix R * list R * list R :=
  (getLowerBound c, getUpperBound c, getAeq c, getbeq c,
   getAineq c, getbLowerBound c, getbUpperBound c).

(** The box of a constraint, upper bound first. *)
Definition box_of (c : Constraint R) : list R * list R :=
  (getUpperBound c, getLowerBound c).

(** Lines 106-127 on the two boxes alone: [B] is the merged box so far,
    [C] the box of the child. *)
Definition box_op (x_size : nat) (B C : list R * list R) : list R * list R :=
  if negb (length C.1 =? 0) || negb (length C.2 =? 0)
  then if (length B.1 =? 0) || (length B.2 =? 0) then C
       else intersect_boxes x_size B.1 B.2 C.1 C.2
  else B.

(** A box that is absent, or [x_size] long on both sides. *)
Definition valid_box (x_size : nat) (B : list R * list R) : Prop :=
  (B.1 = [] /\ B.2 = []) \/ (length B.1 = x_size /\ length B.2 = x_size).

End MergeVocabulary.

(** The segments of a list of named sizes laid out back to back from
    [start]. *)
Fixpoint layout_from (start : Z) (pairs : list (string * Z))
  : list OptvarHelper.VarInfo :=
  match pairs with
  | [] => []
  | p :: rest =>
      OptvarHelper.mkVarInfo p.2 start :: layout_from (start + p.2)%Z rest
  end.

(** * Properties *)

(** ** The result monad *)

Lemma bind_Ok_inv {A B : Type} (c : result A) (k : A -> result B) (b : B) :
  bind c k = Ok b -> exists a, c = Ok a /\ k a = Ok b.
Proof. destruct c as [a|e]; simpl; [eauto | discriminate]. Qed.

Lemma assert_Ok_inv (line : nat) (cond : bool) (u : unit) :
  assert_ line cond = Ok u -> cond = true.
Proof. unfold assert_. destruct cond; [reflexivity | discriminate]. Qed.

Lemma assert_true (line : nat) : assert_ line true = Ok tt.
Proof. reflexivity. Qed.

Lemma foldM_app {A B : Type} (f : A -> B -> result A) (l1 l2 : list B) (a : A) :
  foldM f a (l1 ++ l2) = (let* a1 := foldM f a l1 in foldM f a1 l2).
Proof.
  revert a. induction l1 as [|b l1 IH]; intros a; simpl; [reflexivity|].
  destruct (f a b) as [a'|e]; simpl; [apply IH | reflexivity].
Qed.

(** A relation that every successful step of a loop preserves, and that is
    reflexive and transitive, relates the start and the end of the loop. *)
Lemma foldM_preserves {A B : Type} (f : A -> B -> result A)
      (P : A -> A -> Prop) :
  (forall a, P a a) ->
  (forall a1 a2 a3, P a1 a2 -> P a2 a3 -> P a1 a3) ->
  (forall a b a', f a b = Ok a' -> P a a') ->
  forall l a a', foldM f a l = Ok a' -> P a a'.
Proof.
  intros Hrefl Htrans Hstep l. induction l as [|b l IH]; intros a a' Hf; simpl in Hf.
  - injection Hf as <-. apply Hrefl.
  - apply bind_Ok_inv in Hf as (a1 & H1 & H2).
    eapply Htrans; [eapply Hstep; eassumption | apply IH; assumption].
Qed.

Ltac monad_inv :=
  repeat match goal with
    | H : bind _ _ = Ok _ |- _ =>
        let a := fresh "r" in
        let Ha := fresh "Hr" in
        apply bind_Ok_inv in H as (a & Ha & H)
    | H : assert_ _ _ = Ok _ |- _ => apply assert_Ok_inv in H
    | H : Err _ = Ok _ |- _ => discriminate H
    | H : Ok _ = Ok _ |- _ => injection H as H
    | H : (if ?b then _ else _) = Ok _ |- _ => destruct b eqn:?
    end.

Ltac bool_to_prop :=
  repeat match goal with
    | H : (_ || _) = true |- _ => apply orb_true_iff in H
    | H : (_ || _) = false |- _ => apply orb_false_iff in H as [? ?]
    | H : (_ && _) = true |- _ => apply andb_true_iff in H as [? ?]
    | H : negb _ = true |- _ => apply negb_true_iff in H
    | H : negb _ = false |- _ => apply negb_false_iff in H
    | H : (_ =? _) = true |- _ => apply Nat.eqb_eq in H
    | H : (_ =? _) = false |- _ => apply Nat.eqb_neq in H
    | H : (_ <? _) = true |- _ => apply Nat.ltb_lt in H
    | H : (_ <? _) = false |- _ => apply Nat.ltb_ge in H
    end.

(** Case analysis on the comparisons of natural numbers in the goal. *)
Ltac nat_bools :=
  repeat match goal with
    | |- context [?x <=? ?y] => destruct (Nat.leb_spec x y)
    | |- context [?x <? ?y] => destruct (Nat.ltb_spec x y)
    end;
  cbn [andb]; try reflexivity; try lia.

(** Goals [exists d, l ++ ... = l ++ d]. *)
Ltac solve_ext :=
  unfold constraints.pile_vec; rewrite <- ?app_assoc;
  first [ eexists; reflexivity
        | exists []; rewrite app_nil_r; reflexivity ].

(** ** constraints::Aggregated *)
Section ConstraintFacts.
Context {R : Type} `{Scalar R}.
Import constraints.

Implicit Types (c b : Constraint R) (a : Aggregated R) (p : N).

Lemma grows_refl p c : grows p c c.
Proof.
  split; try reflexivity; try (exists []; rewrite app_nil_r; reflexivity).
  intros _; split; reflexivity.
Qed.

Lemma grows_trans p c1 c2 c3 : grows p c1 c2 -> grows p c2 c3 -> grows p c1 c3.
Proof.
  intros [i1 x1 e1 n1 [dA1 A1] [dl1 L1] [du1 U1] E1]
         [i2 x2 e2 n2 [dA2 A2] [dl2 L2] [du2 U2] E2].
  split; try congruence.
  - exists (dA1 ++ dA2). rewrite A2, A1, app_assoc. reflexivity.
  - exists (dl1 ++ dl2). rewrite L2, L1, app_assoc. reflexivity.
  - exists (du1 ++ du2). rewrite U2, U1, app_assoc. reflexivity.
  - intros Hp. destruct (E1 Hp), (E2 Hp). split; congruence.
Qed.

Lemma copy_bounds_inv c b c' :
  copy_bounds c b = Ok c' ->
  exists lo up, c' = set_box c lo up.
Proof.
  unfold copy_bounds. intros Hc. monad_inv; subst c'; eauto.
  exists (getLowerBound c), (getUpperBound c). destruct c; reflexivity.
Qed.

Lemma pile_Ok_inv (A B C : Matrix R) :
  pile A B = Ok C -> cols A = cols B /\ C = mkMatrix (cols A) (mrows A ++ mrows B).
Proof.
  unfold pile. intros Hp. monad_inv. bool_to_prop. split; congruence.
Qed.

Ltac pile_inv :=
  repeat match goal with
    | Hq : pile _ _ = Ok _ |- _ => apply pile_Ok_inv in Hq as [? ->]
    end.

Lemma copy_equalities_grows p c b c' :
  copy_equalities p c b = Ok c' -> grows p c c'.
Proof.
  unfold copy_equalities. intros Hc. monad_inv;
pile_inv; subst c'; try apply grows_refl;
      (split; simpl; try reflexivity; try congruence;
       try solve_ext; try (intros _; split; reflexivity)).
  Qed.

Lemma copy_bounds_grows p c b c' :
  copy_bounds c b = Ok c' -> grows p c c'.
Proof.
  intros Hc. apply copy_bounds_inv in Hc as (lo & up & ->).
  split; simpl; try reflexivity; try solve_ext.
Qed.

Lemma normalize_sides_cols p (A A' : Matrix R) (l u l' u' : Vector R) :
  normalize_sides p A l u = Ok (A', l', u') -> cols A' = cols A.
Proof.
  unfold normalize_sides. intros Hn. monad_inv;
pile_inv; simplify_eq; reflexivity.
  Qed.

Lemma copy_inequalities_grows p c b c' :
  copy_inequalities p c b = Ok c' -> grows p c c'.
Proof.
  unfold copy_inequalities. intros Hc. monad_inv; try (subst c'; apply grows_refl).
  destruct r2 as [[A' l'] u']. monad_inv; pile_inv; subst c';
    (split; simpl; try reflexivity; try solve_ext).
Qed.

Lemma merge_bound_grows p c b c' :
  merge_bound p c b = Ok c' -> grows p c c'.
Proof.
  unfold merge_bound. intros Hm. monad_inv.
  eapply grows_trans; [eapply copy_bounds_grows; eassumption|].
  eapply grows_trans; [eapply copy_equalities_grows; eassumption|].
  eapply copy_inequalities_grows; eassumption.
Qed.

Lemma foldM_merge_grows p l c c' :
  foldM (merge_bound p) c l = Ok c' -> grows p c c'.
Proof.
  apply (foldM_preserves (merge_bound p) (grows p)).
  - apply grows_refl.
  - apply grows_trans.
  - apply merge_bound_grows.
Qed.

Lemma normalize_sides_bilateral p (A A' : Matrix R) (l u l' u' : Vector R) :
  flag_set p UNILATERAL_TO_BILATERAL = true ->
  normalize_sides p A l u = Ok (A', l', u') ->
  length l' = rows A' /\ length u' = rows A'.
Proof.
  unfold normalize_sides. intros -> Hn. monad_inv; simplify_eq;
    bool_to_prop; unfold vones_times; rewrite ?length_replicate; lia.
Qed.

Lemma copy_bounds_balanced c b c' :
  copy_bounds c b = Ok c' -> balanced c -> balanced c'.
Proof.
  intros Hc. apply copy_bounds_inv in Hc as (lo & up & ->). exact id.
Qed.

Lemma copy_equalities_balanced p c b c' :
  flag_set p UNILATERAL_TO_BILATERAL = true ->
  copy_equalities p c b = Ok c' -> balanced c -> balanced c'.
Proof.
  unfold copy_equalities, balanced, rows. intros Hp Hc [Hl Hu].
  rewrite Hp in Hc. monad_inv;
pile_inv; subst c'; simpl; unfold pile_vec; rewrite ?length_app;
      bool_to_prop; unfold rows in *; lia.
  Qed.

Lemma copy_inequalities_balanced p c b c' :
  flag_set p UNILATERAL_TO_BILATERAL = true ->
  copy_inequalities p c b = Ok c' -> balanced c -> balanced c'.
Proof.
  unfold copy_inequalities, balanced. intros Hp Hc [Hl Hu].
  rewrite Hp in Hc. monad_inv; try (subst c'; split; assumption).
  destruct r2 as [[A' l'] u']. monad_inv.
  match goal with
  | Hn : normalize_sides _ _ _ _ = Ok _ |- _ =>
      apply normalize_sides_bilateral in Hn as [? ?]; [|assumption]
  end.
  pile_inv. subst c'. simpl.
  unfold pile_vec, rows in *. simpl. rewrite !length_app. lia.
Qed.

Lemma merge_bound_balanced p c b c' :
  flag_set p UNILATERAL_TO_BILATERAL = true ->
  merge_bound p c b = Ok c' -> balanced c -> balanced c'.
Proof.
  unfold merge_bound. intros Hp Hm Hb. monad_inv.
  eapply copy_inequalities_balanced; [eassumption..|].
  eapply copy_equalities_balanced; [eassumption..|].
  eapply copy_bounds_balanced; eassumption.
Qed.

Lemma foldM_merge_balanced p l c c' :
  flag_set p UNILATERAL_TO_BILATERAL = true ->
  foldM (merge_bound p) c l = Ok c' -> balanced c -> balanced c'.
Proof.
  intros Hp. revert c. induction l as [|b l IH]; intros c Hf Hb; simpl in Hf.
  - injection Hf as <-. assumption.
  - monad_inv. eapply IH; [eassumption|].
    eapply merge_bound_balanced; eassumption.
Qed.

Lemma reset_balanced c : balanced (reset c).
Proof. split; reflexivity. Qed.

Lemma generateAll_inv a a' :
  generateAll a = Ok a' ->
  exists c, merge_all a = Ok c /\
            check_merged (_aggregationPolicy a) c = Ok tt /\
            a' = with_base a c.
Proof.
  unfold generateAll. intros Hg. monad_inv. destruct r0.
  exists r. repeat split; congruence.
Qed.

Lemma check_merged_inv p c :
  check_merged p c = Ok tt ->
  (length (getLowerBound c) = 0 \/ length (getLowerBound c) = getXSize c) /\
  (length (getUpperBound c) = 0 \/ length (getUpperBound c) = getXSize c) /\
  rows (getAeq c) = length (getbeq c) /\
  (rows (getAeq c) <> 0 -> cols (getAeq c) = getXSize c) /\
  rows (getAineq c) = length (getbUpperBound c) /\
  (flag_set p UNILATERAL_TO_BILATERAL = false ->
   rows (getAineq c) = length (getbLowerBound c)) /\
  (rows (getAineq c) <> 0 -> cols (getAineq c) = getXSize c).
Proof.
  unfold check_merged. intros Hc. monad_inv; bool_to_prop;
    repeat match goal with
      | Hd : _ \/ _ |- _ => rewrite !Nat.eqb_eq in Hd
      end;
    repeat split; try assumption; try lia; intros; try lia;
    try match goal with
      | Hf : flag_set _ _ = false |- _ => rewrite Hf in *; discriminate
      end.
Qed.

Lemma merge_all_balanced a c :
  flag_set (_aggregationPolicy a) UNILATERAL_TO_BILATERAL = true ->
  merge_all a = Ok c -> balanced c.
Proof.
  intros Hp Hm. eapply foldM_merge_balanced; [exact Hp | exact Hm |].
  apply reset_balanced.
Qed.

(** C3. When [generateAll()] returns, the merged members are consistent:
    each box bound is empty or [x_size] long; the equality matrix has as
    many rows as [beq] has entries and, with a row, [x_size] columns; the
    inequality matrix has as many rows as [bUpperBound] has entries and,
    unless the policy is pure-unilateral, as [bLowerBound] has; and, with
    a row, it has [x_size] columns. *)
Theorem generateAll_consistent a a' :
  generateAll a = Ok a' ->
  (length (getLowerBound (base a')) = 0 \/
   length (getLowerBound (base a')) = getXSize (base a')) /\
  (length (getUpperBound (base a')) = 0 \/
   length (getUpperBound (base a')) = getXSize (base a')) /\
  rows (getAeq (base a')) = length (getbeq (base a')) /\
  (rows (getAeq (base a')) <> 0 ->
   cols (getAeq (base a')) = getXSize (base a')) /\
  rows (getAineq (base a')) = length (getbUpperBound (base a')) /\
  (flag_set (_aggregationPolicy a') UNILATERAL_TO_BILATERAL = true ->
   rows (getAineq (base a')) = length (getbLowerBound (base a'))) /\
  (rows (getAineq (base a')) <> 0 ->
   cols (getAineq (base a')) = getXSize (base a')).
Proof.
  intros Hg. apply generateAll_inv in Hg as (c & Hm & Hc & ->). simpl.
  apply check_merged_inv in Hc as (Hl & Hu & He & Hec & Hi & _ & Hic).
  repeat split; try assumption.
  intros Hp. destruct (merge_all_balanced a c Hp Hm) as [Hb _].
  symmetry. exact Hb.
Qed.

Lemma copy_equalities_folded p c b c' :
  flag_set p EQUALITIES_TO_INEQUALITIES = true ->
  flag_set p UNILATERAL_TO_BILATERAL = true ->
  copy_equalities p c b = Ok c' ->
  mrows (getAineq c') = mrows (getAineq c) ++ mrows (getAeq b) /\
  getbLowerBound c' = getbLowerBound c ++ getbeq b /\
  getbUpperBound c' = getbUpperBound c ++ getbeq b /\
  length (getbeq b) = rows (getAeq b).
Proof.
  unfold copy_equalities. intros -> -> Hc. monad_inv; pile_inv; subst c';
    bool_to_prop; simpl.
  - repeat split; try reflexivity. lia.
  - unfold rows in *.
    rewrite (nil_length_inv (mrows (getAeq b))) by lia.
    rewrite (nil_length_inv (getbeq b)) by lia.
    rewrite !app_nil_r. repeat split; reflexivity.
Qed.

(** C5. With both EQUALITIES_TO_INEQUALITIES and UNILATERAL_TO_BILATERAL
    set, the aggregate's equality block stays empty, and the equality
    block [(Aeq, beq)] of each child occupies a run of rows of the
    aggregate's inequality block whose matrix rows are those of [Aeq]
    and whose lower and upper bounds both are [beq]. *)
Theorem equalities_folded_bilateral a a' (before after : list (Constraint R)) b :
  flag_set (_aggregationPolicy a) EQUALITIES_TO_INEQUALITIES = true ->
  flag_set (_aggregationPolicy a) UNILATERAL_TO_BILATERAL = true ->
  _bounds a = before ++ b :: after ->
  generateAll a = Ok a' ->
  rows (getAeq (base a')) = 0 /\ getbeq (base a') = [] /\
  exists first_row : nat,
    take (rows (getAeq b)) (drop first_row (mrows (getAineq (base a'))))
    = mrows (getAeq b) /\
    take (rows (getAeq b)) (drop first_row (getbLowerBound (base a')))
    = getbeq b /\
    take (rows (getAeq b)) (drop first_row (getbUpperBound (base a')))
    = getbeq b.
Proof.
  intros HE HU Hb Hg. apply generateAll_inv in Hg as (c & Hm & _ & ->). simpl.
  unfold merge_all in Hm. pose proof (foldM_merge_grows _ _ _ _ Hm) as Hall.
  destruct (grows_E2I _ _ _ Hall HE) as [-> ->]. simpl.
  split; [reflexivity|]. split; [reflexivity|].
  rewrite Hb, foldM_app in Hm. simpl in Hm.
  apply bind_Ok_inv in Hm as (c1 & H1 & Hm).
  apply bind_Ok_inv in Hm as (c2 & H2 & H3).
  pose proof (foldM_merge_balanced _ _ _ _ HU H1 (reset_balanced _)) as [Bl Bu].
  unfold merge_bound in H2.
  apply bind_Ok_inv in H2 as (d1 & D1 & H2).
  apply bind_Ok_inv in H2 as (d2 & D2 & D3).
  apply copy_bounds_inv in D1 as (lo & up & ->).
  apply (copy_equalities_folded _ _ _ _ HE HU) in D2 as (EA & EL & EU & Elen).
  simpl in EA, EL, EU.
  apply (copy_inequalities_grows (_aggregationPolicy a)) in D3
    as [_ _ _ _ [sA SA] [sl SL] [su SU] _].
  apply foldM_merge_grows in H3 as [_ _ _ _ [tA TA] [tl TL] [tu TU] _].
  exists (rows (getAineq c1)).
  rewrite TA, SA, EA, TL, SL, EL, TU, SU, EU, <- !app_assoc.
  unfold rows in *.
  rewrite drop_app_length, <- Bl, drop_app_length, Bl, <- Bu, drop_app_length.
  rewrite take_app_length, <- Elen, !take_app_length.
  repeat split; reflexivity.
Qed.

(** *** The closing check in pure-unilateral mode *)

Lemma merge_bound_unilateral_bLower p c b c' :
  flag_set p UNILATERAL_TO_BILATERAL = false ->
  merge_bound p c b = Ok c' -> getbLowerBound c' = getbLowerBound c.
Proof.
  unfold merge_bound. intros Hp Hm.
  apply bind_Ok_inv in Hm as (c1 & H1 & Hm).
  apply bind_Ok_inv in Hm as (c2 & H2 & H3).
  apply copy_bounds_inv in H1 as (lo & up & ->).
  assert (E2 : getbLowerBound c2 = getbLowerBound c).
  { unfold copy_equalities in H2. rewrite Hp in H2.
    monad_inv; subst c2; reflexivity. }
  rewrite <- E2. unfold copy_inequalities in H3. rewrite Hp in H3.
  monad_inv; try (subst c'; reflexivity).
  match goal with
  | Hn : normalize_sides _ _ _ _ = Ok ?t |- _ => destruct t as [[? ?] ?]
  end.
  monad_inv; subst c'; reflexivity.
Qed.

(** Without UNILATERAL_TO_BILATERAL, [_bLowerBound] is never written, and
    the assertion of line 218 lets [generateAll()] return only when the
    merged inequality matrix has no row. *)
Lemma unilateral_generateAll_has_no_row a a' :
  flag_set (_aggregationPolicy a) UNILATERAL_TO_BILATERAL = false ->
  generateAll a = Ok a' -> rows (getAineq (base a')) = 0.
Proof.
  intros Hp Hg. apply generateAll_inv in Hg as (c & Hm & Hc & ->). simpl.
  apply check_merged_inv in Hc as (_ & _ & _ & _ & _ & Hl & _).
  rewrite (Hl Hp).
  assert (Hkeep : getbLowerBound c = getbLowerBound (reset (base a))).
  { unfold merge_all in Hm.
    apply (foldM_preserves (merge_bound (_aggregationPolicy a))
             (fun c1 c2 => getbLowerBound c2 = getbLowerBound c1))
      with (l := _bounds a); try assumption.
    - reflexivity.
    - intros c1 c2 c3 E1 E2. congruence.
    - intros c1 b c2. apply merge_bound_unilateral_bLower. exact Hp. }
  rewrite Hkeep. reflexivity.
Qed.

(** *** Box bounds *)

Lemma fold_insert_zip (f : R -> R -> R) (bv : list R) (k : nat) :
  forall u : list R,
    k <= length u -> k <= length bv ->
    fold_left (fun (u : list R) i => <[i := f (u !!! i) (bv !!! i)]> u)
              (seq 0 k) u
    = zip_with f (take k u) (take k bv) ++ drop k u.
Proof.
  induction k as [|k IH]; intros u Hu Hb.
  - simpl. rewrite drop_0. reflexivity.
  - rewrite seq_S, fold_left_app, IH by lia. simpl.
    destruct (lookup_lt_is_Some_2 u k) as [x Hx]; [lia|].
    destruct (lookup_lt_is_Some_2 bv k) as [y Hy]; [lia|].
    assert (Hlen : length (zip_with f (take k u) (take k bv)) = k).
    { rewrite length_zip_with, !length_take. lia. }
    rewrite (drop_S _ _ _ Hx).
    rewrite (list_lookup_total_correct _ _ _ Hy).
    rewrite (list_lookup_total_correct _ k x).
    2:{ rewrite lookup_app_r by lia. rewrite Hlen, Nat.sub_diag. reflexivity. }
    replace k with (length (zip_with f (take k u) (take k bv)) + 0) at 1 by lia.
    rewrite insert_app_r. simpl.
    rewrite (take_S_r _ _ _ Hx), (take_S_r _ _ _ Hy).
    rewrite zip_with_app by (rewrite !length_take; lia).
    simpl. rewrite <- app_assoc. reflexivity.
Qed.

Lemma intersect_boxes_zip (n : nat) (u l bu bl : list R) :
  length u = n -> length l = n -> length bu = n -> length bl = n ->
  intersect_boxes n u l bu bl = (zip_with std_min u bu, zip_with std_max l bl).
Proof.
  intros Hu Hl Hbu Hbl. unfold intersect_boxes.
  assert (Hsplit : forall (idx : list nat) (ul : list R * list R),
    fold_left
      (fun (ul : list R * list R) i =>
         (<[i := std_min (ul.1 !!! i) (bu !!! i)]> (ul.1),
          <[i := std_max (ul.2 !!! i) (bl !!! i)]> (ul.2))) idx ul
    = (fold_left (fun (u : list R) i => <[i := std_min (u !!! i) (bu !!! i)]> u)
                 idx ul.1,
       fold_left (fun (l : list R) i => <[i := std_max (l !!! i) (bl !!! i)]> l)
                 idx ul.2)).
  { induction idx as [|i idx IH]; intros [u0 l0]; simpl; [reflexivity|].
    rewrite IH. reflexivity. }
  rewrite Hsplit. simpl.
  rewrite !fold_insert_zip by lia.
  rewrite !firstn_all2, !drop_ge, !app_nil_r by lia. reflexivity.
Qed.

Lemma copy_bounds_first c b c' :
  getLowerBound c = [] -> getUpperBound c = [] ->
  length (getUpperBound b) = getXSize c ->
  length (getLowerBound b) = getXSize c ->
  copy_bounds c b = Ok c' ->
  getUpperBound c' = getUpperBound b /\ getLowerBound c' = getLowerBound b.
Proof.
  unfold copy_bounds. intros Hl Hu Hbu Hbl Hc. rewrite Hl, Hu in Hc. simpl in Hc.
  monad_inv; subst c'; simpl; bool_to_prop.
  - split; reflexivity.
  - rewrite Hl, Hu.
    rewrite (nil_length_inv (getUpperBound b)), (nil_length_inv (getLowerBound b))
      by lia.
    split; reflexivity.
Qed.

Lemma copy_bounds_next c b c' :
  length (getUpperBound c) = getXSize c ->
  length (getLowerBound c) = getXSize c ->
  length (getUpperBound b) = getXSize c ->
  length (getLowerBound b) = getXSize c ->
  copy_bounds c b = Ok c' ->
  getUpperBound c' = zip_with std_min (getUpperBound c) (getUpperBound b) /\
  getLowerBound c' = zip_with std_max (getLowerBound c) (getLowerBound b).
Proof.
  unfold copy_bounds. intros Hu Hl Hbu Hbl Hc.
  monad_inv; subst c'; simpl; bool_to_prop.
  - match goal with
    | Hz : _ \/ _ |- _ => rewrite !Nat.eqb_eq in Hz
    end.
    assert (Hn : getXSize c = 0) by lia.
    rewrite (nil_length_inv (getUpperBound c)), (nil_length_inv (getLowerBound c))
      by lia.
    rewrite (nil_length_inv (getUpperBound b)), (nil_length_inv (getLowerBound b))
      by lia.
    split; reflexivity.
  - rewrite intersect_boxes_zip by assumption. split; reflexivity.
  - rewrite (nil_length_inv (getUpperBound b)), (nil_length_inv (getLowerBound b))
      by lia.
    rewrite !zip_with_nil_r. split; apply nil_length_inv; lia.
Qed.

Lemma copy_equalities_boxes p c b c' :
  copy_equalities p c b = Ok c' ->
  getUpperBound c' = getUpperBound c /\ getLowerBound c' = getLowerBound c.
Proof.
  unfold copy_equalities. intros Hc. monad_inv; subst c'; split; reflexivity.
Qed.

Lemma copy_inequalities_boxes p c b c' :
  copy_inequalities p c b = Ok c' ->
  getUpperBound c' = getUpperBound c /\ getLowerBound c' = getLowerBound c.
Proof.
  unfold copy_inequalities. intros Hc. monad_inv; try (subst c'; split; reflexivity).
  match goal with
  | Hn : normalize_sides _ _ _ _ = Ok ?t |- _ => destruct t as [[? ?] ?]
  end.
  monad_inv; subst c'; split; reflexivity.
Qed.

Lemma merge_bound_boxes p c b c' :
  merge_bound p c b = Ok c' ->
  exists c1, copy_bounds c b = Ok c1 /\
             getUpperBound c' = getUpperBound c1 /\
             getLowerBound c' = getLowerBound c1.
Proof.
  unfold merge_bound. intros Hm.
  apply bind_Ok_inv in Hm as (c1 & H1 & Hm).
  apply bind_Ok_inv in Hm as (c2 & H2 & H3).
  apply copy_equalities_boxes in H2 as [? ?].
  apply copy_inequalities_boxes in H3 as [? ?].
  exists c1. repeat split; congruence.
Qed.

Lemma foldM_merge_boxes p (l : list (Constraint R)) :
  forall c c',
    length (getUpperBound c) = getXSize c ->
    length (getLowerBound c) = getXSize c ->
    (forall b, b ∈ l ->
               length (getUpperBound b) = getXSize c /\
               length (getLowerBound b) = getXSize c) ->
    foldM (merge_bound p) c l = Ok c' ->
    getUpperBound c'
    = fold_left (zip_with std_min) (map getUpperBound l) (getUpperBound c) /\
    getLowerBound c'
    = fold_left (zip_with std_max) (map getLowerBound l) (getLowerBound c).
Proof.
  induction l as [|b l IH]; intros c c' Hu Hl Hall Hf; simpl in Hf.
  - injection Hf as <-. split; reflexivity.
  - apply bind_Ok_inv in Hf as (c2 & H2 & Hf).
    pose proof (merge_bound_grows _ _ _ _ H2) as [_ Hx _ _ _ _ _ _].
    apply merge_bound_boxes in H2 as (c1 & H1 & Eu & El).
    destruct (Hall b) as [Hbu Hbl]; [left|].
    apply copy_bounds_next in H1 as [Zu Zl]; try assumption.
    simpl. rewrite <- Zu, <- Zl, <- Eu, <- El.
    apply IH; try assumption.
    + rewrite Eu, Zu, length_zip_with. lia.
    + rewrite El, Zl, length_zip_with. lia.
    + intros b' Hb'. rewrite Hx. apply Hall. right. exact Hb'.
Qed.

Lemma lookup_fold_zip (f : R -> R -> R) (i : nat) (ls : list (list R)) :
  forall (l0 : list R) (x0 : R),
    l0 !! i = Some x0 ->
    (forall l, l ∈ ls -> is_Some (l !! i)) ->
    fold_left (zip_with f) ls l0 !! i
    = Some (fold_left f (map (fun l : list R => l !!! i) ls) x0).
Proof.
  induction ls as [|l ls IH]; intros l0 x0 H0 Hall; simpl; [exact H0|].
  destruct (Hall l) as [y Hy]; [left|].
  apply IH.
  - rewrite lookup_zip_with, H0, Hy. simpl.
    rewrite (list_lookup_total_correct _ _ _ Hy). reflexivity.
  - intros l' Hl'. apply Hall. right. exact Hl'.
Qed.

Section Order.
Context `{!ScalarOrder R}.

Lemma fold_min_is_minimum (xs : list R) :
  forall x0 : R, is_minimum (fold_left std_min xs x0) (x0 :: xs).
Proof.
  induction xs as [|x xs IH]; intros x0; simpl.
  - split; [left|]. intros v Hv. apply list_elem_of_singleton in Hv as ->.
    apply s_ltb_irrefl.
  - destruct (IH (std_min x0 x)) as [Hin Hle].
    assert (Hx0 : s_ltb x0 (std_min x0 x) = false).
    { unfold std_min. destruct (s_ltb x x0) eqn:E;
        [apply s_ltb_asym; exact E | apply s_ltb_irrefl]. }
    assert (Hx : s_ltb x (std_min x0 x) = false).
    { unfold std_min. destruct (s_ltb x x0) eqn:E;
        [apply s_ltb_irrefl | exact E]. }
    assert (Hm : s_ltb (std_min x0 x) (fold_left std_min xs (std_min x0 x))
                 = false) by (apply Hle; left).
    split.
    + apply elem_of_cons in Hin as [Hin|Hin].
      * rewrite Hin. unfold std_min. destruct (s_ltb x x0);
          [right; left | left].
      * right; right; exact Hin.
    + intros v Hv. apply elem_of_cons in Hv as [->|Hv].
      * eapply s_ltb_negtrans; eassumption.
      * apply elem_of_cons in Hv as [->|Hv].
        -- eapply s_ltb_negtrans; eassumption.
        -- apply Hle. right. exact Hv.
Qed.

Lemma fold_max_is_maximum (xs : list R) :
  forall x0 : R, is_maximum (fold_left std_max xs x0) (x0 :: xs).
Proof.
  induction xs as [|x xs IH]; intros x0; simpl.
  - split; [left|]. intros v Hv. apply list_elem_of_singleton in Hv as ->.
    apply s_ltb_irrefl.
  - destruct (IH (std_max x0 x)) as [Hin Hle].
    assert (Hx0 : s_ltb (std_max x0 x) x0 = false).
    { unfold std_max. destruct (s_ltb x0 x) eqn:E;
        [apply s_ltb_asym; exact E | apply s_ltb_irrefl]. }
    assert (Hx : s_ltb (std_max x0 x) x = false).
    { unfold std_max. destruct (s_ltb x0 x) eqn:E;
        [apply s_ltb_irrefl | exact E]. }
    assert (Hm : s_ltb (fold_left std_max xs (std_max x0 x)) (std_max x0 x)
                 = false) by (apply Hle; left).
    split.
    + apply elem_of_cons in Hin as [Hin|Hin].
      * rewrite Hin. unfold std_max. destruct (s_ltb x0 x);
          [right; left | left].
      * right; right; exact Hin.
    + intros v Hv. apply elem_of_cons in Hv as [->|Hv].
      * eapply s_ltb_negtrans; eassumption.
      * apply elem_of_cons in Hv as [->|Hv].
        -- eapply s_ltb_negtrans; eassumption.
        -- apply Hle. right. exact Hv.
Qed.

(** C1. When every aggregated constraint exposes box bounds of length
    [x_size], the merged box is the first child's box intersected
    element-wise, in list order, with the boxes of the later children;
    at every index the merged upper bound is the minimum of the
    children's upper bounds and the merged lower bound is the maximum
    of the children's lower bounds. *)
Theorem box_bounds_intersection a a' b0 (rest : list (Constraint R)) :
  _bounds a = b0 :: rest ->
  (forall b, b ∈ _bounds a ->
             length (getUpperBound b) = getXSize (base a) /\
             length (getLowerBound b) = getXSize (base a)) ->
  generateAll a = Ok a' ->
  getUpperBound (base a')
  = fold_left (zip_with std_min) (map getUpperBound rest) (getUpperBound b0) /\
  getLowerBound (base a')
  = fold_left (zip_with std_max) (map getLowerBound rest) (getLowerBound b0) /\
  forall i, i < getXSize (base a) ->
    exists u l,
      getUpperBound (base a') !! i = Some u /\
      getLowerBound (base a') !! i = Some l /\
      is_minimum u (map (fun b => getUpperBound b !!! i) (_bounds a)) /\
      is_maximum l (map (fun b => getLowerBound b !!! i) (_bounds a)).
Proof.
  intros Hb Hall Hg. apply generateAll_inv in Hg as (c & Hm & _ & ->). simpl.
  unfold merge_all in Hm. rewrite Hb in Hm, Hall |- *. simpl in Hm.
  apply bind_Ok_inv in Hm as (c2 & H2 & Hf).
  pose proof (merge_bound_grows _ _ _ _ H2) as [_ Hx _ _ _ _ _ _].
  simpl in Hx.
  apply merge_bound_boxes in H2 as (c1 & H1 & Eu & El).
  destruct (Hall b0) as [Hbu Hbl]; [left|].
  apply copy_bounds_first in H1 as [Fu Fl]; try reflexivity; try assumption.
  apply foldM_merge_boxes in Hf as [Gu Gl].
  2,3: congruence.
  2:{ intros b Hin. rewrite Hx. apply Hall. right. exact Hin. }
  rewrite Eu, Fu in Gu. rewrite El, Fl in Gl.
  split; [exact Gu|]. split; [exact Gl|].
  intros i Hi.
  destruct (lookup_lt_is_Some_2 (getUpperBound b0) i) as [u0 Hu0]; [lia|].
  destruct (lookup_lt_is_Some_2 (getLowerBound b0) i) as [l0 Hl0]; [lia|].
  eexists _, _. rewrite Gu, Gl.
  split.
  { apply (lookup_fold_zip std_min i _ _ u0 Hu0).
    intros l Hl. apply list_elem_of_fmap in Hl as (b & -> & Hin).
    apply lookup_lt_is_Some_2.
    destruct (Hall b) as [-> _]; [right; exact Hin | exact Hi]. }
  split.
  { apply (lookup_fold_zip std_max i _ _ l0 Hl0).
    intros l Hl. apply list_elem_of_fmap in Hl as (b & -> & Hin).
    apply lookup_lt_is_Some_2.
    destruct (Hall b) as [_ ->]; [right; exact Hin | exact Hi]. }
  simpl. rewrite (list_lookup_total_correct _ _ _ Hu0).
  rewrite (list_lookup_total_correct _ _ _ Hl0).
  rewrite !map_map.
  split; [apply fold_min_is_minimum | apply fold_max_is_maximum].
Qed.

End Order.

End ConstraintFacts.

(** ** tasks::Aggregated *)
Section TaskFacts.
Context {R : Type} `{Scalar R} {ConstraintPtr : Type}.
Import tasks.

Implicit Types (t acc : Task R ConstraintPtr) (a : Aggregated R ConstraintPtr).

Lemma push_constraints_app (mine theirs : list ConstraintPtr) :
  push_constraints mine theirs = mine ++ theirs.
Proof.
  unfold push_constraints. revert mine.
  induction theirs as [|j theirs IH]; intros mine; simpl.
  - rewrite app_nil_r. reflexivity.
  - rewrite IH, <- app_assoc. reflexivity.
Qed.

(** The loop never writes the identifier, [_x_size], [_W], [_lambda] or
    [_hessianType]. *)
Lemma fold_merge_task_frame (ts : list (Task R ConstraintPtr)) :
  forall acc,
    let r := fold_left merge_task ts acc in
    getTaskID r = getTaskID acc /\ getXSize r = getXSize acc /\
    getWeight r = getWeight acc /\ getLambda r = getLambda acc /\
    getHessianAtype r = getHessianAtype acc.
Proof.
  induction ts as [|t ts IH]; intros acc; simpl.
  - repeat split; reflexivity.
  - destruct (IH (merge_task acc t)) as (? & ? & ? & ? & ?).
    repeat split; assumption.
Qed.

Lemma fold_merge_task_stack (ts : list (Task R ConstraintPtr)) :
  forall acc,
    (forall t, t ∈ ts -> cols (getA t) = cols (getA acc)) ->
    let r := fold_left merge_task ts acc in
    cols (getA r) = cols (getA acc) /\
    mrows (getA r)
    = mrows (getA acc)
      ++ concat (map (fun t => mrows (mmul (getWeight t) (getA t))) ts) /\
    getb r
    = getb acc
      ++ concat (map (fun t => mvmul (mscale_r (getWeight t) (getLambda t))
                                     (getb t)) ts) /\
    getConstraints r = getConstraints acc ++ concat (map getConstraints ts).
Proof.
  induction ts as [|t ts IH]; intros acc Hcols; simpl.
  - rewrite !app_nil_r. repeat split; reflexivity.
  - assert (Hp : pile (getA acc) (mmul (getWeight t) (getA t))
                 = mkMatrix (cols (getA acc))
                     (mrows (getA acc) ++ mrows (mmul (getWeight t) (getA t)))).
    { unfold pile. simpl. rewrite (Hcols t) by left.
      rewrite Nat.eqb_refl. reflexivity. }
    destruct (IH (merge_task acc t)) as (Hc & Hr & Hb & Hk).
    { intros t' Ht'. simpl. rewrite Hp. simpl. apply Hcols. right. exact Ht'. }
    simpl in Hc, Hr, Hb, Hk. rewrite Hp in Hc, Hr. simpl in Hc, Hr.
    rewrite push_constraints_app in Hk. unfold cat in Hb.
    rewrite Hc, Hr, Hb, Hk, <- !app_assoc. repeat split; reflexivity.
Qed.

Lemma clear_frame t1 t2 :
  getTaskID t1 = getTaskID t2 -> getXSize t1 = getXSize t2 ->
  getWeight t1 = getWeight t2 -> getLambda t1 = getLambda t2 ->
  getHessianAtype t1 = getHessianAtype t2 ->
  clear t1 = clear t2.
Proof. unfold clear. intros -> -> -> -> ->. reflexivity. Qed.

Lemma task_generateAll_pure a1 a2 :
  _tasks a1 = _tasks a2 -> clear (base a1) = clear (base a2) ->
  generateAll a1 = generateAll a2.
Proof. unfold generateAll. intros -> ->. reflexivity. Qed.

Lemma task_generateAll_idempotent a :
  generateAll (generateAll a) = generateAll a.
Proof.
  apply task_generateAll_pure; [reflexivity|]. simpl.
  destruct (fold_merge_task_frame (_tasks a) (clear (base a)))
    as (Hi & Hx & Hw & Hl & Hh).
  apply clear_frame; assumption.
Qed.

(** *** Weights that are multiples of the identity *)
Section Ring.
Context `{!ScalarRing R}.

Lemma vadd_zero_scaled (acc r : list R) :
  length acc = length r -> vadd acc (vscale s_zero r) = acc.
Proof.
  unfold vadd, vscale. revert r.
  induction acc as [|x acc IH]; intros [|y r] Hlen; simpl in *;
    try reflexivity; try discriminate.
  rewrite s_mul_0_l, s_add_0_r, IH by lia. reflexivity.
Qed.

Lemma vadd_vzero (r : list R) : vadd (vzero (length r)) r = r.
Proof.
  unfold vadd, vzero. induction r as [|y r IH]; simpl; [reflexivity|].
  rewrite s_add_0_l, IH. reflexivity.
Qed.

Lemma identity_scalar_matrix (n : nat) :
  identity n n = scalar_matrix n s_one.
Proof. reflexivity. Qed.

Lemma mscale_identity (n : nat) (k : R) :
  mscale k (identity n n) = scalar_matrix n k.
Proof.
  unfold mscale, identity, scalar_matrix, unit_row, vscale. simpl. f_equal.
  rewrite map_map. apply map_ext. intros i.
  rewrite map_map. apply map_ext. intros j.
  destruct (j =? i); [apply s_mul_1_r | apply s_mul_0_r].
Qed.

Lemma mscale_r_scalar_matrix (n : nat) (k l : R) :
  mscale_r (scalar_matrix n k) l = scalar_matrix n (s_mul k l).
Proof.
  unfold mscale_r, scalar_matrix, vscale_r. simpl. f_equal.
  rewrite map_map. apply map_ext. intros i.
  rewrite map_map. apply map_ext. intros j.
  destruct (j =? i); [reflexivity | apply s_mul_0_l].
Qed.

Lemma fold_rows_weighted (m i : nat) (k : R) (rs : list (list R)) :
  (forall r, r ∈ rs -> length r = m) ->
  forall (s : nat) (acc : list R),
    length acc = m ->
    fold_left (fun (v : list R) '(wk, r) => vadd v (vscale wk r))
              (zip (map (fun j => if j =? i then k else s_zero)
                        (seq s (length rs))) rs)
              acc
    = if (s <=? i) && (i <? s + length rs)
      then vadd acc (vscale k (rs !!! (i - s)))
      else acc.
Proof.
  induction rs as [|r rs IH]; intros Hlen s acc Hacc.
  - simpl. nat_bools.
  - assert (Hr : length r = m) by (apply Hlen; left).
    assert (Hrs : forall r', r' ∈ rs -> length r' = m)
      by (intros r' Hr'; apply Hlen; right; exact Hr').
    cbn [length seq map zip_with fold_left].
    destruct (Nat.eqb_spec s i) as [->|Hne].
    + rewrite IH; [|exact Hrs|].
      2:{ unfold vadd, vscale. rewrite length_zip_with, length_map. lia. }
      nat_bools. rewrite Nat.sub_diag. reflexivity.
    + rewrite vadd_zero_scaled by lia. rewrite IH by assumption.
      nat_bools. replace (i - s) with (S (i - S s)) by lia. reflexivity.
Qed.

Lemma map_lookup_total_seq {A B : Type} `{Inhabited A} (f : A -> B) (l : list A) :
  map (fun i => f (l !!! i)) (seq 0 (length l)) = map f l.
Proof.
  induction l as [|x l IH] using rev_ind; [reflexivity|].
  rewrite length_app. cbn [length]. rewrite Nat.add_1_r, seq_S, !map_app.
  cbn [map Nat.add].
  rewrite lookup_total_app_r, Nat.sub_diag by lia. cbn. f_equal.
  rewrite <- IH. apply map_ext_in. intros i Hi. apply in_seq in Hi.
  rewrite lookup_total_app_l by lia. reflexivity.
Qed.

Lemma mmul_scalar_matrix (k : R) (A : Matrix R) :
  wf_matrix A = true ->
  mmul (scalar_matrix (rows A) k) A = mscale k A.
Proof.
  intros Hwf. unfold mmul, mscale, scalar_matrix, row_times, rows. simpl.
  f_equal. rewrite map_map.
  assert (Hlen : forall r, r ∈ mrows A -> length r = cols A).
  { intros r Hr. unfold wf_matrix in Hwf.
    rewrite forallb_forall in Hwf. apply Nat.eqb_eq, Hwf.
    apply list_elem_of_In. exact Hr. }
  rewrite <- (map_lookup_total_seq (vscale k) (mrows A)).
  apply map_ext_in. intros i Hi. apply in_seq in Hi.
  rewrite (fold_rows_weighted (cols A)); try assumption.
  2:{ unfold vzero. apply length_replicate. }
  replace (0 <=? i) with true by reflexivity.
  replace (i <? 0 + length (mrows A)) with true
    by (symmetry; apply Nat.ltb_lt; lia).
  simpl. rewrite Nat.sub_0_r.
  assert (Hi' : length (vscale k (mrows A !!! i)) = cols A).
  { unfold vscale. rewrite length_map. apply Hlen.
    apply list_elem_of_lookup_total_2. lia. }
  rewrite <- Hi'. apply vadd_vzero.
Qed.

Lemma fold_dot_weighted (i : nat) (k : R) (bv : list R) :
  forall (s : nat) (acc : R),
    fold_left s_add
              (zip_with s_mul (map (fun j => if j =? i then k else s_zero)
                                   (seq s (length bv))) bv)
              acc
    = if (s <=? i) && (i <? s + length bv)
      then s_add acc (s_mul k (bv !!! (i - s)))
      else acc.
Proof.
  induction bv as [|y bv IH]; intros s acc.
  - simpl. nat_bools.
  - cbn [length seq map zip_with fold_left]. rewrite IH.
    destruct (Nat.eqb_spec s i) as [->|Hne].
    + nat_bools. rewrite Nat.sub_diag. reflexivity.
    + rewrite s_mul_0_l, s_add_0_r.
      nat_bools. replace (i - s) with (S (i - S s)) by lia. reflexivity.
Qed.

Lemma mvmul_scalar_matrix (k : R) (bv : list R) :
  mvmul (scalar_matrix (length bv) k) bv = vscale k bv.
Proof.
  unfold mvmul, scalar_matrix, dot, vscale. simpl. rewrite map_map.
  rewrite <- (map_lookup_total_seq (s_mul k) bv).
  apply map_ext_in. intros i Hi. apply in_seq in Hi.
  rewrite fold_dot_weighted.
  replace (0 <=? i) with true by reflexivity.
  replace (i <? 0 + length bv) with true by (symmetry; apply Nat.ltb_lt; lia).
  simpl. rewrite Nat.sub_0_r. apply s_add_0_l.
Qed.

Lemma mscale_one (A : Matrix R) : mrows (mscale s_one A) = mrows A.
Proof.
  unfold mscale, vscale. simpl. rewrite <- (map_id (mrows A)) at 2.
  apply map_ext. intros r. rewrite <- (map_id r) at 2.
  apply map_ext. intros x. apply s_mul_1_l.
Qed.

(** C4. [generateAll()] rebuilds the merged objective from nothing:
    the merged [A] is the row stack, in list order, of
    [child.weight * child.A], the merged [b] the concatenation of
    [child.weight * child.lambda * child.b], the merged constraint list
    the concatenation of the children's lists. In particular, for
    [T1] with [W1 = 2 I], [lambda1 = 1] and [T2] with [W2 = I] and any
    [lambda2] (for instance 0.5), [A = [2 A1; A2]] and
    [b = [2 b1; lambda2 b2]]. *)
Theorem task_weighting a :
  (forall t, t ∈ _tasks a -> cols (getA t) = getXSize (base a)) ->
  (cols (getA (base (generateAll a))) = getXSize (base a) /\
   mrows (getA (base (generateAll a)))
   = concat (map (fun t => mrows (mmul (getWeight t) (getA t))) (_tasks a)) /\
   getb (base (generateAll a))
   = concat (map (fun t => mvmul (mscale_r (getWeight t) (getLambda t))
                                 (getb t)) (_tasks a)) /\
   getConstraints (base (generateAll a))
   = concat (map getConstraints (_tasks a))) /\
  (forall T1 T2 : Task R ConstraintPtr,
      _tasks a = [T1; T2] ->
      wf_matrix (getA T1) = true -> length (getb T1) = rows (getA T1) ->
      wf_matrix (getA T2) = true -> length (getb T2) = rows (getA T2) ->
      getWeight T1 = mscale s_two (identity (rows (getA T1)) (rows (getA T1))) ->
      getLambda T1 = s_one ->
      getWeight T2 = identity (rows (getA T2)) (rows (getA T2)) ->
      mrows (getA (base (generateAll a)))
      = mrows (mscale s_two (getA T1)) ++ mrows (getA T2) /\
      getb (base (generateAll a))
      = vscale s_two (getb T1) ++ vscale (getLambda T2) (getb T2)).
Proof.
  intros Hcols.
  destruct (fold_merge_task_stack (_tasks a) (clear (base a)) Hcols)
    as (Hc & Hr & Hb & Hk).
  cbn [clear getA getb getConstraints empty_matrix mrows cols app]
    in Hc, Hr, Hb, Hk.
  unfold generateAll. cbn [base].
  split; [repeat split; assumption|].
  intros T1 T2 Ht Hwf1 Hb1 Hwf2 Hb2 HW1 HL1 HW2.
  rewrite Hr, Hb, Ht. cbn [map concat]. rewrite !app_nil_r.
  rewrite HW1, HW2, HL1, mscale_identity, identity_scalar_matrix.
  rewrite !mscale_r_scalar_matrix, !mmul_scalar_matrix by assumption.
  rewrite <- Hb1, <- Hb2, !mvmul_scalar_matrix.
  rewrite mscale_one, s_mul_1_r, s_mul_1_l. split; reflexivity.
Qed.

End Ring.

(** *** What an update leaves alone *)
Section Update.
Context (child_update : Vector R -> Task R ConstraintPtr -> Task R ConstraintPtr).

(** C10. [generateAll()], [_update(x)] and [update(x)] leave [_W],
    [_lambda] and [_hessianType] as they were, whatever the children's
    update does to their rows; the constructors, once the first merge
    is done, set [_W] to the identity of the merged row count and
    [_hessianType] to [HST_SEMIDEF]. *)
Theorem update_keeps_weighting a (x : Vector R) :
  (getWeight (base (generateAll a)) = getWeight (base a) /\
   getLambda (base (generateAll a)) = getLambda (base a) /\
   getHessianAtype (base (generateAll a)) = getHessianAtype (base a)) /\
  (getWeight (base (_update child_update x a)) = getWeight (base a) /\
   getLambda (base (_update child_update x a)) = getLambda (base a) /\
   getHessianAtype (base (_update child_update x a))
   = getHessianAtype (base a)) /\
  (getWeight (base (update child_update x a)) = getWeight (base a) /\
   getLambda (base (update child_update x a)) = getLambda (base a) /\
   getHessianAtype (base (update child_update x a))
   = getHessianAtype (base a)) /\
  (forall (ts : list (Task R ConstraintPtr)) (T1 T2 : Task R ConstraintPtr)
          (x_size : nat) (q : Vector R) a0,
      Aggregated_from_list ts x_size = Ok a0 \/
      Aggregated_from_pair T1 T2 x_size = Ok a0 \/
      Aggregated_from_state child_update ts q = Ok a0 ->
      getWeight (base a0)
      = identity (rows (getA (base a0))) (rows (getA (base a0))) /\
      getHessianAtype (base a0) = HST_SEMIDEF).
Proof.
  assert (Hgen : forall a1,
    getWeight (base (generateAll a1)) = getWeight (base a1) /\
    getLambda (base (generateAll a1)) = getLambda (base a1) /\
    getHessianAtype (base (generateAll a1)) = getHessianAtype (base a1)).
  { intros a1. unfold generateAll. simpl.
    destruct (fold_merge_task_frame (_tasks a1) (clear (base a1)))
      as (_ & _ & Hw & Hl & Hh).
    repeat split; assumption. }
  split; [apply Hgen|].
  split; [apply (Hgen (mkAggregated (base a) (map (child_update x) (_tasks a))))|].
  split; [apply (Hgen (mkAggregated (base a) (map (child_update x) (_tasks a))))|].
  intros ts T1 T2 x_size q a0 [Hc|[Hc|Hc]];
    unfold Aggregated_from_list, Aggregated_from_pair, Aggregated_from_state in Hc;
    monad_inv; subst a0; split; reflexivity.
Qed.

End Update.

End TaskFacts.

(** ** Statements about both aggregates *)
Section BothAggregates.
Context {R : Type} `{Scalar R} {ConstraintPtr : Type}.

(** The [checkSizes] loops: an assertion on every element. *)
Lemma size_loop_fails {A : Type} (sz : A -> nat) (line x : nat) (l : list A) (t : A) :
  t ∈ l -> sz t <> x ->
  foldM (fun (_ : unit) t => assert_ line (x =? sz t)) tt l
  = Err (AssertionFailed line).
Proof.
  intros Hin Hne. induction l as [|h l IH]; [inversion Hin|].
  simpl. destruct (Nat.eqb_spec x (sz h)) as [Heq|Hneq]; simpl; [|reflexivity].
  apply IH. apply elem_of_cons in Hin as [->|Hin]; [congruence | exact Hin].
Qed.

Lemma size_loop_passes {A : Type} (sz : A -> nat) (line x : nat) (l : list A) :
  (forall t, t ∈ l -> sz t = x) ->
  foldM (fun (_ : unit) t => assert_ line (x =? sz t)) tt l = Ok tt.
Proof.
  intros Hall. induction l as [|h l IH]; [reflexivity|].
  simpl. rewrite (Hall h) by left. rewrite Nat.eqb_refl. simpl.
  apply IH. intros t Ht. apply Hall. right. exact Ht.
Qed.

Lemma reset_frame (c1 c2 : constraints.Constraint R) :
  constraints.getConstraintID c1 = constraints.getConstraintID c2 ->
  constraints.getXSize c1 = constraints.getXSize c2 ->
  constraints.reset c1 = constraints.reset c2.
Proof. unfold constraints.reset. intros -> ->. reflexivity. Qed.

Lemma constraint_generateAll_pure (a1 a2 : constraints.Aggregated R) :
  constraints._bounds a1 = constraints._bounds a2 ->
  constraints._aggregationPolicy a1 = constraints._aggregationPolicy a2 ->
  constraints.getConstraintID (constraints.base a1)
  = constraints.getConstraintID (constraints.base a2) ->
  constraints.getXSize (constraints.base a1)
  = constraints.getXSize (constraints.base a2) ->
  constraints.generateAll a1 = constraints.generateAll a2.
Proof.
  intros Hb Hp Hi Hx.
  unfold constraints.generateAll, constraints.merge_all, constraints.with_base.
  rewrite Hb, Hp, (reset_frame _ _ Hi Hx). reflexivity.
Qed.

(** C7. A second [generateAll()] with no child changed in between leaves
    exactly the merged members of the first, for the aggregated
    constraint and for the aggregated task; the outcome depends on the
    children (and on the identifier, [x_size], policy and, for a task,
    weighting, which the merge does not write), not on the merged
    members left by an earlier call. *)
Theorem generateAll_idempotent :
  (forall a a' : constraints.Aggregated R,
      constraints.generateAll a = Ok a' -> constraints.generateAll a' = Ok a') /\
  (forall a : tasks.Aggregated R ConstraintPtr,
      tasks.generateAll (tasks.generateAll a) = tasks.generateAll a) /\
  (forall a1 a2 : constraints.Aggregated R,
      constraints._bounds a1 = constraints._bounds a2 ->
      constraints._aggregationPolicy a1 = constraints._aggregationPolicy a2 ->
      constraints.getConstraintID (constraints.base a1)
      = constraints.getConstraintID (constraints.base a2) ->
      constraints.getXSize (constraints.base a1)
      = constraints.getXSize (constraints.base a2) ->
      constraints.generateAll a1 = constraints.generateAll a2) /\
  (forall a1 a2 : tasks.Aggregated R ConstraintPtr,
      tasks._tasks a1 = tasks._tasks a2 ->
      tasks.clear (tasks.base a1) = tasks.clear (tasks.base a2) ->
      tasks.generateAll a1 = tasks.generateAll a2).
Proof.
  split; [|split; [apply task_generateAll_idempotent|
                   split; [apply constraint_generateAll_pure
                          |apply task_generateAll_pure]]].
  intros a a' Hg. rewrite <- Hg.
  apply generateAll_inv in Hg as (c & Hm & _ & ->).
  pose proof (foldM_merge_grows _ _ _ _ Hm) as [Hi Hx _ _ _ _ _ _].
  apply constraint_generateAll_pure; try reflexivity; assumption.
Qed.

(** C8. A child whose [x_size] differs from the aggregate's makes every
    constructor of the aggregated constraint and of the aggregated task
    stop at the assertion of [checkSizes()] (line 228, line 83), which
    runs before the first merge; [checkSizes()] passes exactly when
    every child has the aggregate's [x_size]. *)
Theorem size_mismatch_rejected :
  (forall (bounds : list (constraints.Constraint R)) (x_size : nat) (policy : N)
          (b : constraints.Constraint R),
      b ∈ bounds -> constraints.getXSize b <> x_size ->
      constraints.Aggregated_from_list bounds x_size policy
      = Err (AssertionFailed 228) /\
      (forall child_update (q : Vector R),
          length q = x_size ->
          constraints.Aggregated_from_state child_update bounds q policy
          = Err (AssertionFailed 228))) /\
  (forall (b1 b2 : constraints.Constraint R) (x_size : nat) (policy : N),
      constraints.getXSize b1 <> x_size \/ constraints.getXSize b2 <> x_size ->
      constraints.Aggregated_from_pair b1 b2 x_size policy
      = Err (AssertionFailed 228)) /\
  (forall (ts : list (tasks.Task R ConstraintPtr)) (x_size : nat)
          (t : tasks.Task R ConstraintPtr),
      t ∈ ts -> tasks.getXSize t <> x_size ->
      tasks.Aggregated_from_list ts x_size = Err (AssertionFailed 83) /\
      (forall child_update (q : Vector R),
          length q = x_size ->
          tasks.Aggregated_from_state child_update ts q
          = Err (AssertionFailed 83))) /\
  (forall (t1 t2 : tasks.Task R ConstraintPtr) (x_size : nat),
      tasks.getXSize t1 <> x_size \/ tasks.getXSize t2 <> x_size ->
      tasks.Aggregated_from_pair t1 t2 x_size = Err (AssertionFailed 83)) /\
  (forall a : constraints.Aggregated R,
      constraints.checkSizes a = Ok tt <->
      forall b, b ∈ constraints._bounds a ->
                constraints.getXSize b
                = constraints.getXSize (constraints.base a)) /\
  (forall a : tasks.Aggregated R ConstraintPtr,
      tasks.checkSizes a = Ok tt <->
      forall t, t ∈ tasks._tasks a ->
                tasks.getXSize t = tasks.getXSize (tasks.base a)).
Proof.
  repeat apply conj.
  - intros bounds x_size policy b Hin Hne.
    unfold constraints.Aggregated_from_list, constraints.Aggregated_from_state,
      constraints.checkSizes.
    simpl. split.
    + rewrite (size_loop_fails _ _ _ _ b Hin Hne). reflexivity.
    + intros child_update q ->.
      destruct bounds as [|b' bounds]; [inversion Hin|].
      rewrite (size_loop_fails _ _ _ _ b Hin Hne). reflexivity.
  - intros b1 b2 x_size policy Hne.
    unfold constraints.Aggregated_from_pair, constraints.checkSizes. simpl.
    destruct (Nat.eqb_spec x_size (constraints.getXSize b1)) as [E1|E1];
      simpl; [|reflexivity].
    destruct (Nat.eqb_spec x_size (constraints.getXSize b2)) as [E2|E2];
      simpl; [|reflexivity].
    destruct Hne; congruence.
  - intros ts x_size t Hin Hne.
    unfold tasks.Aggregated_from_list, tasks.Aggregated_from_state,
      tasks.checkSizes.
    simpl. split.
    + rewrite (size_loop_fails _ _ _ _ t Hin Hne). reflexivity.
    + intros child_update q ->.
      rewrite (size_loop_fails _ _ _ _ t Hin Hne). reflexivity.
  - intros t1 t2 x_size Hne.
    unfold tasks.Aggregated_from_pair, tasks.checkSizes. simpl.
    destruct (Nat.eqb_spec x_size (tasks.getXSize t1)) as [E1|E1];
      simpl; [|reflexivity].
    destruct (Nat.eqb_spec x_size (tasks.getXSize t2)) as [E2|E2];
      simpl; [|reflexivity].
    destruct Hne; congruence.
  - intros a. unfold constraints.checkSizes. split.
    + intros Hok b Hin.
      destruct (Nat.eq_dec (constraints.getXSize b)
                           (constraints.getXSize (constraints.base a)))
        as [E|E]; [exact E|].
      rewrite (size_loop_fails _ _ _ _ b Hin E) in Hok. discriminate.
    + apply size_loop_passes.
  - intros a. unfold tasks.checkSizes. split.
    + intros Hok t Hin.
      destruct (Nat.eq_dec (tasks.getXSize t) (tasks.getXSize (tasks.base a)))
        as [E|E]; [exact E|].
      rewrite (size_loop_fails _ _ _ _ t Hin E) in Hok. discriminate.
    + apply size_loop_passes.
Qed.

End BothAggregates.

(** ** OptvarHelper *)
Section OptvarFacts.
Import OptvarHelper.

Lemma int_wrap_small (z : Z) :
  (- 2 ^ 31 <= z <= INT_MAX)%Z -> int_wrap z = z.
Proof.
  unfold int_wrap, INT_MAX. intros Hz.
  rewrite Z.mod_small by lia. lia.
Qed.

Lemma register_inv h (pair : string * Z) h' :
  register h pair = Ok h' ->
  _vars_map h !! pair.1 = None /\
  h' = mkOptvarHelper (int_wrap (_size h + pair.2))
                      (_vars h ++ [mkVarInfo pair.2 (_size h)])
                      (<[pair.1 := mkVarInfo pair.2 (_size h)]> (_vars_map h)).
Proof.
  unfold register. destruct (_vars_map h !! pair.1); [discriminate|].
  intros Hr. injection Hr as <-. split; reflexivity.
Qed.

Lemma ctor_loop_duplicate (l : list (string * Z)) :
  forall h,
    (exists n, n ∈ l.*1 /\ is_Some (_vars_map h !! n)) \/ ~ NoDup l.*1 ->
    foldM register h l = Err duplicate_names.
Proof.
  induction l as [|pair l IH]; intros h Hdup.
  - destruct Hdup as [(n & Hn & _)|Hnd]; [inversion Hn|].
    exfalso. apply Hnd. constructor.
  - simpl. destruct (register h pair) as [h1|e] eqn:Hr.
    + simpl. apply register_inv in Hr as [Hnone ->]. apply IH. simpl.
      destruct (decide (pair.1 ∈ l.*1)) as [Hin|Hnin].
      { left. exists pair.1. split; [exact Hin|].
        rewrite lookup_insert_eq. eauto. }
      destruct Hdup as [(n & Hn & Hsome)|Hnd].
      * left. exists n. simpl in Hn. apply elem_of_cons in Hn as [->|Hn].
        { rewrite Hnone in Hsome. destruct Hsome; discriminate. }
        split; [exact Hn|].
        destruct (decide (pair.1 = n)) as [->|Hne];
          [rewrite lookup_insert_eq; eauto
          |rewrite lookup_insert_ne by exact Hne; exact Hsome].
      * right. intros Hnd'. apply Hnd. simpl. constructor; assumption.
    + unfold register in Hr. destruct (_vars_map h !! pair.1); [|discriminate].
      injection Hr as <-. reflexivity.
Qed.

Lemma ctor_loop_other_names (l : list (string * Z)) :
  forall h h' name,
    foldM register h l = Ok h' -> name ∉ l.*1 ->
    _vars_map h' !! name = _vars_map h !! name.
Proof.
  induction l as [|pair l IH]; intros h h' name Hf Hn; simpl in Hf.
  - injection Hf as <-. reflexivity.
  - apply bind_Ok_inv in Hf as (h1 & Hr & Hf).
    apply register_inv in Hr as [_ ->].
    simpl in Hn. apply not_elem_of_cons in Hn as [Hne Hn].
    rewrite (IH _ _ _ Hf Hn). simpl.
    apply lookup_insert_ne. congruence.
Qed.

Lemma total_size_nonneg (l : list (string * Z)) :
  (forall p, p ∈ l -> (0 <= p.2)%Z) -> (0 <= total_size l)%Z.
Proof.
  induction l as [|p l IH]; intros Hall; simpl; [lia|].
  specialize (Hall p (list_elem_of_here _ _)) as Hp.
  assert (0 <= total_size l)%Z by (apply IH; intros q Hq; apply Hall; right; exact Hq).
  lia.
Qed.

Lemma total_size_app (l1 l2 : list (string * Z)) :
  total_size (l1 ++ l2) = (total_size l1 + total_size l2)%Z.
Proof. induction l1 as [|p l1 IH]; simpl; [reflexivity|]. rewrite IH. lia. Qed.

Lemma ctor_loop_layout (l : list (string * Z)) :
  forall h h',
    foldM register h l = Ok h' ->
    (forall p, p ∈ l -> (0 <= p.2)%Z) ->
    (0 <= _size h)%Z -> (_size h + total_size l <= INT_MAX)%Z ->
    _size h' = (_size h + total_size l)%Z /\
    forall before name sz after,
      l = before ++ (name, sz) :: after ->
      _vars_map h' !! name
      = Some (mkVarInfo sz (_size h + total_size before)).
Proof.
  induction l as [|pair l IH]; intros h h' Hf Hpos Hh Hmax; simpl in Hf.
  - injection Hf as <-. simpl. split; [lia|].
    intros [|? ?] ? ? ? Hnil; discriminate.
  - apply bind_Ok_inv in Hf as (h1 & Hr & Hf).
    apply register_inv in Hr as [Hnone ->].
    assert (Hp : (0 <= pair.2)%Z) by (apply Hpos; left).
    assert (Hl : forall p, p ∈ l -> (0 <= p.2)%Z)
      by (intros q Hq; apply Hpos; right; exact Hq).
    pose proof (total_size_nonneg l Hl) as Htl.
    simpl in Hmax.
    assert (Hw : int_wrap (_size h + pair.2) = (_size h + pair.2)%Z).
    { apply int_wrap_small. unfold INT_MAX in *. lia. }
    destruct (IH _ _ Hf Hl) as [Hsz Hlk]; simpl; rewrite ?Hw; try lia.
    simpl in Hsz, Hlk. rewrite Hw in Hsz, Hlk.
    split; [lia|].
    intros [|p0 before] name sz after Heq; simpl in Heq.
    + injection Heq as -> ->. simpl.
      destruct (decide (name ∈ after.*1)) as [Hin|Hnin].
      * rewrite ctor_loop_duplicate in Hf; [discriminate|].
        left. exists name. split; [exact Hin|].
        simpl. rewrite lookup_insert_eq. eauto.
      * rewrite (ctor_loop_other_names _ _ _ _ Hf Hnin). simpl.
        rewrite lookup_insert_eq, Z.add_0_r. reflexivity.
    + injection Heq as -> ->.
      rewrite (Hlk before name sz after eq_refl). simpl.
      do 2 f_equal. lia.
Qed.

Context {R : Type} `{Scalar R}.

Lemma entry_identity (r c i j : nat) :
  i < r -> j < c ->
  entry (identity r c) i j = Some (if j =? i then s_one else s_zero).
Proof.
  intros Hi Hj. unfold entry, identity, unit_row. simpl.
  rewrite list_lookup_fmap, lookup_seq_lt by lia. simpl.
  rewrite list_lookup_fmap, lookup_seq_lt by lia. reflexivity.
Qed.

Lemma getVar_registered h (name : string) (sz off : Z) :
  _vars_map h !! name = Some (mkVarInfo sz off) ->
  (0 <= sz)%Z -> (0 <= off)%Z -> (off + sz <= _size h)%Z ->
  exists M,
    getVar h name = Ok (mkAffineHelper M (vzero (Z.to_nat sz))) /\
    rows M = Z.to_nat sz /\ cols M = Z.to_nat (_size h) /\
    forall i j,
      i < Z.to_nat sz -> j < Z.to_nat (_size h) ->
      entry M i j = Some (if j =? Z.to_nat off + i then s_one else s_zero).
Proof.
  intros Hlk Hsz Hoff Hfit. unfold getVar. rewrite Hlk. simpl.
  replace (sz <? 0)%Z with false by (symmetry; apply Z.ltb_ge; lia).
  replace (_size h <? 0)%Z with false by (symmetry; apply Z.ltb_ge; lia).
  simpl. unfold assign_block.
  assert (Hrows : rows (zero_matrix (Z.to_nat sz) (Z.to_nat (_size h)))
                  = Z.to_nat sz).
  { unfold rows, zero_matrix. simpl. apply length_replicate. }
  rewrite Hrows.
  assert (Hrows' : rows (identity (Z.to_nat sz) (Z.to_nat sz)) = Z.to_nat sz).
  { unfold rows, identity. simpl. rewrite length_map, length_seq. reflexivity. }
  rewrite Hrows'. cbn [cols zero_matrix identity].
  rewrite !Z2Nat.id by lia.
  replace ((0 <=? 0)%Z && (0 <=? sz)%Z && (0 + sz <=? sz)%Z && (0 <=? off)%Z
           && (0 <=? sz)%Z && (off + sz <=? _size h)%Z && (sz =? sz)%Z
           && (sz =? sz)%Z) with true.
  2:{ symmetry. rewrite !andb_true_iff, !Z.leb_le, Z.eqb_eq. lia. }
  cbn [bind]. eexists. split; [reflexivity|].
  unfold rows. cbn [mrows cols].
  split; [rewrite length_imap; apply length_replicate|].
  split; [reflexivity|].
  intros i j Hi Hj. unfold entry at 1, zero_matrix. cbn [mrows].
  rewrite list_lookup_imap, lookup_replicate_2 by lia. cbn [fmap option_fmap option_map].
  rewrite list_lookup_imap. unfold vzero at 1.
  rewrite lookup_replicate_2 by lia. cbn [fmap option_fmap option_map].
  f_equal. change (Z.to_nat 0) with 0. rewrite Z.add_0_l, Nat.sub_0_r.
  destruct (Nat.leb_spec (Z.to_nat off) j) as [Hle|Hgt]; nat_bools.
  - rewrite entry_identity by lia. simpl.
    destruct (Nat.eqb_spec (j - Z.to_nat off) i), (Nat.eqb_spec j (Z.to_nat off + i));
      try reflexivity; lia.
  - destruct (Nat.eqb_spec j (Z.to_nat off + i)); [lia|reflexivity].
  - destruct (Nat.eqb_spec j (Z.to_nat off + i)); [lia|reflexivity].
Qed.

Lemma ctor_loop_succeeds (l : list (string * Z)) :
  forall h,
    NoDup l.*1 -> (forall n, n ∈ l.*1 -> _vars_map h !! n = None) ->
    exists h', foldM register h l = Ok h'.
Proof.
  induction l as [|pair l IH]; intros h Hnd Hfree; [simpl; eauto|].
  simpl in Hnd. apply NoDup_cons in Hnd as [Hnin Hnd].
  assert (Hfr : _vars_map h !! pair.1 = None) by (apply Hfree; left).
  cbn [foldM]. unfold register at 1. rewrite Hfr. cbn [bind].
  apply IH; [exact Hnd|]. intros n Hn. simpl.
  rewrite lookup_insert_ne by (intros Heq; apply Hnin; rewrite Heq; exact Hn).
  apply Hfree. right. exact Hn.
Qed.

(** C9. A list of named sizes with a repeated name is refused by the
    constructor with the duplicate-name exception (and a list without
    one is accepted); on a constructed layout [getVar] of a name that
    was not registered raises the unknown-name exception; for a
    registered name, sizes being non-negative and their sum an [int],
    [getVar] returns [(M, q)] with [q] the zero vector of the segment's
    size and [M] of that many rows and total-size columns, whose entry
    [(i, j)] is one exactly when [j] is the segment's offset, the sum of
    the sizes registered before it, plus [i], and zero otherwise. *)
Theorem variable_layout :
  (forall pairs : list (string * Z),
      ~ NoDup pairs.*1 -> ctor pairs = Err duplicate_names) /\
  (forall pairs : list (string * Z),
      NoDup pairs.*1 -> exists h, ctor pairs = Ok h) /\
  (forall (pairs : list (string * Z)) h (name : string),
      ctor pairs = Ok h -> name ∉ pairs.*1 ->
      getVar (R:=R) h name = Err unknown_name) /\
  (forall (before after : list (string * Z)) (name : string) (sz : Z) h,
      let pairs := before ++ (name, sz) :: after in
      ctor pairs = Ok h ->
      (forall p, p ∈ pairs -> (0 <= p.2)%Z) ->
      (total_size pairs <= INT_MAX)%Z ->
      exists M,
        getVar h name = Ok (mkAffineHelper M (vzero (Z.to_nat sz))) /\
        rows M = Z.to_nat sz /\ cols M = Z.to_nat (total_size pairs) /\
        forall i j,
          i < Z.to_nat sz -> j < Z.to_nat (total_size pairs) ->
          entry M i j
          = Some (if j =? Z.to_nat (total_size before) + i
                  then s_one else s_zero)).
Proof.
  repeat apply conj.
  - intros pairs Hdup. apply ctor_loop_duplicate. right. exact Hdup.
  - intros pairs Hnd. apply ctor_loop_succeeds; [exact Hnd|].
    intros n _. apply lookup_empty.
  - intros pairs h name Hc Hn. unfold getVar.
    rewrite (ctor_loop_other_names _ _ _ _ Hc Hn). simpl.
    rewrite lookup_empty. reflexivity.
  - intros before after name sz h pairs Hc Hpos Hmax.
    destruct (ctor_loop_layout _ _ _ Hc Hpos) as [Hsz Hlk]; simpl; try lia.
    simpl in Hsz, Hlk. specialize (Hlk before name sz after eq_refl).
    rewrite Z.add_0_l in Hlk, Hsz.
    assert (Hb : (0 <= total_size before)%Z).
    { apply total_size_nonneg. intros p Hp. apply Hpos.
      apply elem_of_app. left. exact Hp. }
    assert (Ha : (0 <= total_size after)%Z).
    { apply total_size_nonneg. intros p Hp. apply Hpos.
      apply elem_of_app. right. right. exact Hp. }
    assert (Hs : (0 <= sz)%Z).
    { apply (Hpos (name, sz)). apply elem_of_app. right. left. }
    assert (Ht : total_size pairs = (total_size before + (sz + total_size after))%Z).
    { unfold pairs. rewrite total_size_app. reflexivity. }
    rewrite <- Hsz. apply getVar_registered; try assumption. lia.
Qed.

End OptvarFacts.

(** ** The laws hold for the integers *)

#[global] Instance Z_ScalarRing : ScalarRing Z.
Proof. split; simpl; intros; lia. Qed.

#[global] Instance Z_ScalarOrder : ScalarOrder Z.
Proof.
  split; simpl.
  - intros x. apply Z.ltb_irrefl.
  - intros x y Hxy. apply Z.ltb_lt in Hxy. apply Z.ltb_ge. lia.
  - intros x y z Hxy Hyz. apply Z.ltb_ge in Hxy, Hyz. apply Z.ltb_ge. lia.
Qed.

(** ** The statements at concrete inputs *)
Section Concrete.
Import constraints examples.

Lemma box_bounds_intersection_witness :
  generateAll (aggregate [box1; box2] 0)
  = Ok (merged [-1; -2]%Z [1; 2]%Z [] [] [] [] [] [box1; box2] 0) /\
  exists u l,
    [1; 2]%Z !! 0 = Some u /\ [-1; -2]%Z !! 0 = Some l /\
    is_minimum u [2; 1]%Z /\ is_maximum l [-2; -1]%Z.
Proof.
  split; [reflexivity|].
  refine (proj2 (proj2 (box_bounds_intersection
                          (aggregate [box1; box2] 0)
                          (merged [-1; -2]%Z [1; 2]%Z [] [] [] [] []
                                  [box1; box2] 0)
                          box1 [box2] eq_refl _ eq_refl)) 0 _).
  - intros b Hb. apply elem_of_cons in Hb as [->|Hb]; [split; reflexivity|].
    apply elem_of_cons in Hb as [->|Hb]; [split; reflexivity|].
    inversion Hb.
  - simpl. lia.
Defined.

(** C2. Without UNILATERAL_TO_BILATERAL, a child with only a lower bound
    [5 <= x0 + 2 x1] leaves the merge loop with the flipped row
    [-x0 - 2 x1] in [_Aineq] and nothing in [_bUpperBound] (the negated
    bound [-5] is not stacked), and [generateAll()] stops at the
    assertion of line 216; a child with only an upper bound, or with
    both bounds, is merged as described ([_bLowerBound] stays empty) and
    [generateAll()] then stops at the assertion of line 218. *)
Theorem unilateral_inequalities_rejected :
  merge_all (aggregate [lower_only] 0)
  = Ok (base (merged [] [] [] [] [[-1; -2]%Z] [] [] [lower_only] 0)) /\
  generateAll (aggregate [lower_only] 0) = Err (AssertionFailed 216) /\
  merge_all (aggregate [upper_only] 0)
  = Ok (base (merged [] [] [] [] [[1; 2]%Z] [] [5%Z] [upper_only] 0)) /\
  generateAll (aggregate [upper_only] 0) = Err (AssertionFailed 218) /\
  merge_all (aggregate [two_sided] 0)
  = Ok (base (merged [] [] [] [] [[1; 2]; [-1; -2]]%Z [] [5; -3]%Z
                     [two_sided] 0)) /\
  generateAll (aggregate [two_sided] 0) = Err (AssertionFailed 218).
Proof. repeat split; reflexivity. Qed.

(** C6. With EQUALITIES_TO_INEQUALITIES alone, the equality
    [x0 + 2 x1 = 7] leaves the merge loop as the two rows
    [x0 + 2 x1 <= 7] and [-x0 - 2 x1 <= -7] of the inequality block, the
    equality block empty, and [generateAll()] then stops at the
    assertion of line 218. *)
Theorem unilateral_folding_rejected :
  merge_all (aggregate [equality] EQUALITIES_TO_INEQUALITIES)
  = Ok (base (merged [] [] [] [] [[1; 2]; [-1; -2]]%Z [] [7; -7]%Z
                     [equality] EQUALITIES_TO_INEQUALITIES)) /\
  generateAll (aggregate [equality] EQUALITIES_TO_INEQUALITIES)
  = Err (AssertionFailed 218).
Proof. split; reflexivity. Qed.

Lemma generateAll_consistent_witness :
  generateAll (aggregate mixed bilateral_folding) = Ok mixed_merged /\
  rows (getAineq (base mixed_merged))
  = length (getbUpperBound (base mixed_merged)) /\
  rows (getAineq (base mixed_merged))
  = length (getbLowerBound (base mixed_merged)).
Proof.
  split; [reflexivity|].
  pose proof (generateAll_consistent (aggregate mixed bilateral_folding)
                                     mixed_merged eq_refl)
    as (_ & _ & _ & _ & Hu & Hl & _).
  split; [exact Hu | exact (Hl eq_refl)].
Defined.

Lemma equalities_folded_bilateral_witness :
  generateAll (aggregate mixed bilateral_folding) = Ok mixed_merged /\
  exists first_row : nat,
    take 1 (drop first_row [[1; 2]; [1; 2]]%Z) = [[1; 2]%Z] /\
    take 1 (drop first_row [3; 7]%Z) = [7%Z] /\
    take 1 (drop first_row [5; 7]%Z) = [7%Z].
Proof.
  split; [reflexivity|].
  exact (proj2 (proj2 (equalities_folded_bilateral
                         (aggregate mixed bilateral_folding) mixed_merged
                         [two_sided] [box1] equality
                         eq_refl eq_refl eq_refl eq_refl))).
Defined.

Lemma task_weighting_witness :
  mrows (tasks.getA (tasks.base (tasks.generateAll task_aggregate)))
  = [[2; 4]; [6; 8]; [7; 8]]%Z /\
  tasks.getb (tasks.base (tasks.generateAll task_aggregate))
  = [10; 12; 27]%Z.
Proof.
  refine (proj2 (task_weighting task_aggregate _) T1 T2
                eq_refl eq_refl eq_refl eq_refl eq_refl eq_refl eq_refl eq_refl).
  intros t Ht. apply elem_of_cons in Ht as [->|Ht]; [reflexivity|].
  apply elem_of_cons in Ht as [->|Ht]; [reflexivity|]. inversion Ht.
Defined.

Lemma generateAll_idempotent_witness :
  generateAll (aggregate mixed bilateral_folding) = Ok mixed_merged /\
  generateAll mixed_merged = Ok mixed_merged.
Proof.
  split; [reflexivity|].
  exact (proj1 (generateAll_idempotent (ConstraintPtr:=nat))
               (aggregate mixed bilateral_folding) mixed_merged eq_refl).
Defined.

Lemma size_mismatch_rejected_witness :
  getXSize seven <> 2 /\
  Aggregated_from_list [box1; seven] 2 0 = Err (AssertionFailed 228).
Proof.
  assert (Hne : getXSize seven <> 2) by (simpl; lia).
  split; [exact Hne|].
  refine (proj1 (proj1 (size_mismatch_rejected (ConstraintPtr:=nat))
                       [box1; seven] 2 0%N seven _ Hne)).
  right. left.
Defined.

Lemma update_keeps_weighting_witness :
  exists a0,
    tasks.Aggregated_from_list [T1; T2] 2 = Ok a0 /\
    tasks.getWeight (tasks.base a0) = identity 3 3 /\
    tasks.getHessianAtype (tasks.base a0) = tasks.HST_SEMIDEF /\
    rows (tasks.getA (tasks.base (tasks.update shrink [0; 0]%Z a0))) = 2 /\
    tasks.getWeight (tasks.base (tasks.update shrink [0; 0]%Z a0))
    = identity 3 3.
Proof.
  exists (tasks.init_weight (tasks.generateAll task_aggregate)).
  split; [reflexivity|].
  pose proof (update_keeps_weighting
                shrink (tasks.init_weight (tasks.generateAll task_aggregate))
                [0; 0]%Z)
    as (_ & _ & (Hw & _ & _) & Hctor).
  destruct (Hctor [T1; T2] T1 T2 2 [] _ (or_introl eq_refl)) as [HW HH].
  split; [exact HW|]. split; [exact HH|]. split; [reflexivity|].
  rewrite Hw. exact HW.
Defined.

Lemma variable_layout_witness :
  OptvarHelper.ctor [("q", 7%Z); ("q", 3%Z)] = Err duplicate_names /\
  (forall h, OptvarHelper.ctor [("a", 2%Z); ("b", 3%Z)] = Ok h ->
             OptvarHelper.getVar (R:=Z) h "missing" = Err unknown_name /\
             exists M,
               OptvarHelper.getVar h "b"
               = Ok (OptvarHelper.mkAffineHelper M [0; 0; 0]%Z) /\
               entry M 1 3 = Some 1%Z /\ entry M 1 2 = Some 0%Z).
Proof.
  destruct (variable_layout (R:=Z)) as (Hdup & _ & Hmiss & Hreg).
  split.
  - apply Hdup. simpl. intros Hnd. apply NoDup_cons in Hnd as [Hn _].
    apply Hn. left.
  - intros h Hh. split.
    + apply (Hmiss _ h "missing" Hh). simpl. intros Hin.
      apply elem_of_cons in Hin as [Hin|Hin]; [discriminate|].
      apply elem_of_cons in Hin as [Hin|Hin]; [discriminate|]. inversion Hin.
    + destruct (Hreg [("a", 2%Z)] [] "b" 3%Z h Hh) as (M & HM & _ & _ & He).
      * intros p Hp. apply elem_of_cons in Hp as [->|Hp]; [simpl; lia|].
        apply elem_of_cons in Hp as [->|Hp]; [simpl; lia|]. inversion Hp.
      * vm_compute. discriminate.
      * exists M. split; [exact HM|].
        split; [apply (He 1 3) | apply (He 1 2)]; simpl; lia.
Defined.

End Concrete.

(** * Further properties of the aggregated constraint *)
Section MergeFacts.
Context {R : Type} `{Scalar R}.
Import constraints.

Implicit Types (c b : Constraint R) (a : Aggregated R) (p : N).

Ltac pile_inv' :=
  repeat match goal with
    | Hq : pile _ _ = Ok _ |- _ => apply pile_Ok_inv in Hq as [? ->]
    end.

(** A loop whose every step appends to a list-valued field appends, in
    order, the contributions of all elements. *)
Lemma foldM_appends {A B C : Type} (step : A -> B -> result A)
      (f : A -> list C) (g : B -> list C) :
  (forall x y x', step x y = Ok x' -> f x' = f x ++ g y) ->
  forall l x x', foldM step x l = Ok x' -> f x' = f x ++ concat (map g l).
Proof.
  intros Hstep l. induction l as [|y l IH]; intros x x' Hf; simpl in Hf.
  - injection Hf as <-. simpl. rewrite app_nil_r. reflexivity.
  - apply bind_Ok_inv in Hf as (x1 & H1 & Hf).
    rewrite (IH _ _ Hf), (Hstep _ _ _ H1). simpl.
    rewrite <- app_assoc. reflexivity.
Qed.

Lemma copy_bounds_blocks c b c' :
  copy_bounds c b = Ok c' ->
  getAeq c' = getAeq c /\ getbeq c' = getbeq c /\
  getAineq c' = getAineq c /\ getbLowerBound c' = getbLowerBound c /\
  getbUpperBound c' = getbUpperBound c.
Proof.
  intros Hc. apply copy_bounds_inv in Hc as (lo & up & ->).
  repeat split; reflexivity.
Qed.

Lemma copy_inequalities_eq_block p c b c' :
  copy_inequalities p c b = Ok c' ->
  getAeq c' = getAeq c /\ getbeq c' = getbeq c.
Proof.
  unfold copy_inequalities. intros Hc. monad_inv; try (subst c'; split; reflexivity).
  match goal with
  | Hn : normalize_sides _ _ _ _ = Ok ?t |- _ => destruct t as [[? ?] ?]
  end.
  monad_inv; subst c'; split; reflexivity.
Qed.

Lemma copy_equalities_stacked p c b c' :
  flag_set p EQUALITIES_TO_INEQUALITIES = false ->
  copy_equalities p c b = Ok c' ->
  mrows (getAeq c') = mrows (getAeq c) ++ mrows (getAeq b) /\
  getbeq c' = getbeq c ++ getbeq b.
Proof.
  unfold copy_equalities. intros -> Hc. monad_inv; pile_inv'; subst c';
    bool_to_prop; simpl.
  - split; reflexivity.
  - unfold rows in *.
    rewrite (nil_length_inv (mrows (getAeq b))) by lia.
    rewrite (nil_length_inv (getbeq b)) by lia.
    rewrite !app_nil_r. split; reflexivity.
Qed.

Lemma merge_bound_eq_stacked p c b c' :
  flag_set p EQUALITIES_TO_INEQUALITIES = false ->
  merge_bound p c b = Ok c' ->
  mrows (getAeq c') = mrows (getAeq c) ++ mrows (getAeq b) /\
  getbeq c' = getbeq c ++ getbeq b.
Proof.
  unfold merge_bound. intros Hp Hm.
  apply bind_Ok_inv in Hm as (c1 & H1 & Hm).
  apply bind_Ok_inv in Hm as (c2 & H2 & H3).
  apply copy_bounds_blocks in H1 as (E1 & E2 & _).
  apply (copy_equalities_stacked _ _ _ _ Hp) in H2 as [S1 S2].
  apply copy_inequalities_eq_block in H3 as [F1 F2].
  rewrite F1, F2, S1, S2, E1, E2. split; reflexivity.
Qed.

(** X1. Without EQUALITIES_TO_INEQUALITIES the merged equality block is
    the children's equality blocks stacked in list order. *)
Theorem equalities_stacked a a' :
  flag_set (_aggregationPolicy a) EQUALITIES_TO_INEQUALITIES = false ->
  generateAll a = Ok a' ->
  cols (getAeq (base a')) = getXSize (base a) /\
  mrows (getAeq (base a')) = concat (map (fun b => mrows (getAeq b)) (_bounds a)) /\
  getbeq (base a') = concat (map getbeq (_bounds a)).
Proof.
  intros Hp Hg. apply generateAll_inv in Hg as (c & Hm & _ & ->). simpl.
  unfold merge_all in Hm.
  pose proof (foldM_merge_grows _ _ _ _ Hm) as [_ _ Hc _ _ _ _ _].
  split; [exact Hc|]. split.
  - apply (foldM_appends (merge_bound (_aggregationPolicy a))
             (fun c => mrows (getAeq c)) (fun b => mrows (getAeq b)))
      in Hm; [exact Hm|].
    intros x y x' Hs. apply (merge_bound_eq_stacked _ _ _ _ Hp Hs).
  - apply (foldM_appends (merge_bound (_aggregationPolicy a))
             getbeq getbeq) in Hm; [exact Hm|].
    intros x y x' Hs. apply (merge_bound_eq_stacked _ _ _ _ Hp Hs).
Qed.

Lemma copy_equalities_bilateral p c b c' :
  flag_set p UNILATERAL_TO_BILATERAL = true ->
  copy_equalities p c b = Ok c' ->
  mrows (getAineq c')
  = mrows (getAineq c)
    ++ (if flag_set p EQUALITIES_TO_INEQUALITIES then mrows (getAeq b) else []) /\
  getbLowerBound c'
  = getbLowerBound c
    ++ (if flag_set p EQUALITIES_TO_INEQUALITIES then getbeq b else []) /\
  getbUpperBound c'
  = getbUpperBound c
    ++ (if flag_set p EQUALITIES_TO_INEQUALITIES then getbeq b else []).
Proof.
  intros HU Hc. destruct (flag_set p EQUALITIES_TO_INEQUALITIES) eqn:HE.
  - apply (copy_equalities_folded _ _ _ _ HE HU) in Hc as (A1 & A2 & A3 & _).
    repeat split; assumption.
  - unfold copy_equalities in Hc. rewrite HE in Hc.
    monad_inv; pile_inv'; subst c'; simpl; rewrite !app_nil_r;
      repeat split; reflexivity.
Qed.

Lemma normalize_sides_bilateral_inv p (A A' : Matrix R) (l u l' u' : list R) :
  flag_set p UNILATERAL_TO_BILATERAL = true ->
  normalize_sides p A l u = Ok (A', l', u') ->
  A' = A /\
  l' = (if length u =? 0 then l
        else if length l =? 0 then vones_times (rows A) (s_opp s_max) else l) /\
  u' = (if length u =? 0 then vones_times (rows A) s_infinity else u).
Proof.
  unfold normalize_sides. intros -> Hn.
  destruct (length u =? 0); [|destruct (length l =? 0)];
    monad_inv; simplify_eq; repeat split; reflexivity.
Qed.

Lemma copy_inequalities_bilateral p c b c' :
  flag_set p UNILATERAL_TO_BILATERAL = true ->
  copy_inequalities p c b = Ok c' ->
  mrows (getAineq c') = mrows (getAineq c) ++ mrows (getAineq b) /\
  getbLowerBound c'
  = getbLowerBound c
    ++ (if length (getbUpperBound b) =? 0 then getbLowerBound b
        else if length (getbLowerBound b) =? 0
             then vones_times (rows (getAineq b)) (s_opp s_max)
             else getbLowerBound b) /\
  getbUpperBound c'
  = getbUpperBound c
    ++ (if length (getbUpperBound b) =? 0
        then vones_times (rows (getAineq b)) s_infinity
        else getbUpperBound b).
Proof.
  intros HU Hc. unfold copy_inequalities in Hc. rewrite HU in Hc.
  destruct (negb (rows (getAineq b) =? 0)
            || negb (length (getbUpperBound b) =? 0)
            || negb (length (getbLowerBound b) =? 0)) eqn:Hany.
  - monad_inv.
    match goal with
    | Hn : normalize_sides _ _ _ _ = Ok ?t |- _ =>
        destruct t as [[A' l'] u'];
        apply (normalize_sides_bilateral_inv _ _ _ _ _ _ _ HU) in Hn
          as (-> & -> & ->)
    end.
    monad_inv. pile_inv'. subst c'. simpl. repeat split; reflexivity.
  - injection Hc as <-. bool_to_prop. unfold rows in *.
    rewrite (nil_length_inv (mrows (getAineq b))) by lia.
    rewrite (nil_length_inv (getbLowerBound b)) by lia.
    rewrite (nil_length_inv (getbUpperBound b)) by lia.
    simpl. unfold vones_times. simpl. rewrite !app_nil_r.
    repeat split; reflexivity.
Qed.

Lemma merge_bound_bilateral p c b c' :
  flag_set p UNILATERAL_TO_BILATERAL = true ->
  merge_bound p c b = Ok c' ->
  mrows (getAineq c') = mrows (getAineq c) ++ bilateral_rows p b /\
  getbLowerBound c' = getbLowerBound c ++ bilateral_lower p b /\
  getbUpperBound c' = getbUpperBound c ++ bilateral_upper p b.
Proof.
  unfold merge_bound. intros HU Hm.
  apply bind_Ok_inv in Hm as (c1 & H1 & Hm).
  apply bind_Ok_inv in Hm as (c2 & H2 & H3).
  apply copy_bounds_blocks in H1 as (_ & _ & E1 & E2 & E3).
  apply (copy_equalities_bilateral _ _ _ _ HU) in H2 as (S1 & S2 & S3).
  apply (copy_inequalities_bilateral _ _ _ _ HU) in H3 as (T1 & T2 & T3).
  unfold bilateral_rows, bilateral_lower, bilateral_upper.
  rewrite T1, T2, T3, S1, S2, S3, E1, E2, E3, <- !app_assoc.
  repeat split; reflexivity.
Qed.

(** X2. With UNILATERAL_TO_BILATERAL set the merged inequality block is,
    child after child, the child's equality rows (when equalities are
    folded, with [beq] on both sides) followed by its inequality rows,
    where a missing upper side is filled with [1 * infinity()] and a
    missing lower side with [1 * -max()]. *)
Theorem bilateral_inequalities a a' :
  flag_set (_aggregationPolicy a) UNILATERAL_TO_BILATERAL = true ->
  generateAll a = Ok a' ->
  cols (getAineq (base a')) = getXSize (base a) /\
  mrows (getAineq (base a'))
  = concat (map (bilateral_rows (_aggregationPolicy a)) (_bounds a)) /\
  getbLowerBound (base a')
  = concat (map (bilateral_lower (_aggregationPolicy a)) (_bounds a)) /\
  getbUpperBound (base a')
  = concat (map (bilateral_upper (_aggregationPolicy a)) (_bounds a)).
Proof.
  intros HU Hg. apply generateAll_inv in Hg as (c & Hm & _ & ->). simpl.
  unfold merge_all in Hm.
  pose proof (foldM_merge_grows _ _ _ _ Hm) as [_ _ _ Hc _ _ _ _].
  split; [exact Hc|].
  repeat split.
  - apply (foldM_appends (merge_bound (_aggregationPolicy a))
             (fun c => mrows (getAineq c))
             (bilateral_rows (_aggregationPolicy a))) in Hm; [exact Hm|].
    intros x y x' Hs. apply (merge_bound_bilateral _ _ _ _ HU Hs).
  - apply (foldM_appends (merge_bound (_aggregationPolicy a))
             getbLowerBound (bilateral_lower (_aggregationPolicy a)))
      in Hm; [exact Hm|].
    intros x y x' Hs. apply (merge_bound_bilateral _ _ _ _ HU Hs).
  - apply (foldM_appends (merge_bound (_aggregationPolicy a))
             getbUpperBound (bilateral_upper (_aggregationPolicy a)))
      in Hm; [exact Hm|].
    intros x y x' Hs. apply (merge_bound_bilateral _ _ _ _ HU Hs).
Qed.

(** *** Children that expose nothing *)

Lemma merge_bound_nothing p c b :
  exposes_nothing b = true -> merge_bound p c b = Ok c.
Proof.
  unfold exposes_nothing. intros He.
  repeat (apply andb_true_iff in He as [He ?]).
  unfold merge_bound, copy_bounds, copy_equalities, copy_inequalities.
  repeat match goal with
    | Hz : (_ =? 0) = true |- _ => rewrite Hz; clear Hz
    end.
  reflexivity.
Qed.

(** X3. A child that exposes no bounds, no equality and no inequality is
    skipped: with it or without it in the list, [generateAll()] ends in
    the same merged members, or in the same failure. *)
Theorem empty_child_ignored (c0 : Constraint R) (l1 l2 : list (Constraint R))
        (e : Constraint R) (p : N) :
  exposes_nothing e = true ->
  match generateAll (mkAggregated c0 (l1 ++ e :: l2) p),
        generateAll (mkAggregated c0 (l1 ++ l2) p) with
  | Ok r1, Ok r2 => base r1 = base r2
  | Err e1, Err e2 => e1 = e2
  | _, _ => False
  end.
Proof.
  intros He. unfold generateAll, merge_all. simpl.
  rewrite !foldM_app. simpl.
  destruct (foldM (merge_bound p) (reset c0) l1) as [c1|e1]; simpl;
    [|reflexivity].
  rewrite (merge_bound_nothing p c1 e He). simpl.
  destruct (foldM (merge_bound p) c1 l2) as [c2|e2]; simpl; [|reflexivity].
  destruct (check_merged p c2) as [[]|e3]; simpl; reflexivity.
Qed.

(** *** When the merge loop passes all its assertions *)

Ltac to_props :=
  repeat progress
    (rewrite ?andb_true_iff, ?orb_true_iff, ?andb_false_iff, ?orb_false_iff,
       ?negb_true_iff, ?negb_false_iff, ?Nat.eqb_eq, ?Nat.eqb_neq,
       ?Nat.ltb_lt, ?Nat.ltb_ge in * ).

(** Run the code forward: every assertion met on the way holds. *)
Ltac pass_asserts :=
  repeat first
    [ progress cbn [bind assert_]
    | match goal with
      | |- context [assert_ _ ?cnd] =>
          let E := fresh "E" in
          destruct cnd eqn:E; [|exfalso; to_props; unfold rows in *; lia]
      end ].

Lemma consistent_child_inv (x : nat) b :
  consistent_child x b = true ->
  ((length (getUpperBound b) = 0 /\ length (getLowerBound b) = 0) \/
   (length (getUpperBound b) = x /\ length (getLowerBound b) = x)) /\
  rows (getAeq b) = length (getbeq b) /\
  (rows (getAeq b) = 0 \/ cols (getAeq b) = x) /\
  ((rows (getAineq b) = 0 /\ length (getbLowerBound b) = 0 /\
    length (getbUpperBound b) = 0) \/
   (0 < rows (getAineq b) /\ cols (getAineq b) = x /\
    (0 < length (getbLowerBound b) \/ 0 < length (getbUpperBound b)) /\
    (length (getbLowerBound b) = 0 \/
     length (getbLowerBound b) = rows (getAineq b)) /\
    (length (getbUpperBound b) = 0 \/
     length (getbUpperBound b) = rows (getAineq b)))).
Proof.
  unfold consistent_child. intros Hc. to_props. tauto.
Qed.

Lemma copy_bounds_passes c b :
  consistent_child (getXSize c) b = true -> shape_ok c ->
  exists c', copy_bounds c b = Ok c' /\ shape_ok c' /\
             getXSize c' = getXSize c /\
             getAineq c' = getAineq c /\
             getbLowerBound c' = getbLowerBound c /\
             getbUpperBound c' = getbUpperBound c.
Proof.
  intros Hb (Hce & Hci & Hbox & Heq).
  apply consistent_child_inv in Hb as (Hbb & _).
  unfold copy_bounds.
  destruct (negb (length (getUpperBound b) =? 0)
            || negb (length (getLowerBound b) =? 0)) eqn:Hany.
  - pass_asserts.
    destruct ((length (getUpperBound c) =? 0)
              || (length (getLowerBound c) =? 0)) eqn:Hfirst.
    + pass_asserts. eexists. split; [reflexivity|].
      unfold shape_ok. simpl. to_props. repeat split; try assumption; lia.
    + eexists. split; [reflexivity|].
      to_props.
      rewrite intersect_boxes_zip by lia.
      unfold shape_ok. simpl. rewrite !length_zip_with.
      repeat split; try assumption. right. lia.
  - eexists. split; [reflexivity|]. unfold shape_ok. repeat split; assumption.
Qed.

Lemma copy_equalities_passes p c b :
  consistent_child (getXSize c) b = true -> shape_ok c ->
  exists c', copy_equalities p c b = Ok c' /\ shape_ok c' /\
             getXSize c' = getXSize c.
Proof.
  intros Hb (Hce & Hci & Hbox & Heq).
  apply consistent_child_inv in Hb as (_ & Hbe & Hbc & _).
  unfold copy_equalities.
  destruct (negb (rows (getAeq b) =? 0) || negb (length (getbeq b) =? 0))
    eqn:Hany; [|eexists; split; [reflexivity|];
                unfold shape_ok; repeat split; assumption].
  assert (Hcols : cols (getAeq b) = getXSize c).
  { to_props. unfold rows in *. lia. }
  pass_asserts. unfold pile.
  destruct (flag_set p EQUALITIES_TO_INEQUALITIES).
  - pass_asserts. rewrite ?Hci, ?Hcols, ?Nat.eqb_refl. cbn [bind].
    destruct (flag_set p UNILATERAL_TO_BILATERAL).
    + eexists. split; [reflexivity|].
      unfold shape_ok. simpl. repeat split; assumption.
    + cbn [cols assert_ bind mscale]. rewrite ?Hcols, ?Hci, ?Nat.eqb_refl.
      cbn [assert_ bind].
      eexists. split; [reflexivity|].
      unfold shape_ok. simpl. repeat split; assumption.
  - pass_asserts. rewrite ?Hce, ?Hcols, ?Nat.eqb_refl. cbn [bind].
    eexists. split; [reflexivity|].
    unfold shape_ok, rows, pile_vec in *. simpl. rewrite !length_app.
    repeat split; try assumption. lia.
Qed.

Lemma copy_inequalities_passes p c b :
  consistent_child (getXSize c) b = true -> shape_ok c ->
  exists c', copy_inequalities p c b = Ok c' /\ shape_ok c' /\
             getXSize c' = getXSize c.
Proof.
  intros Hb (Hce & Hci & Hbox & Heq).
  apply consistent_child_inv in Hb as (_ & _ & _ & Hbi).
  unfold copy_inequalities.
  destruct (negb (rows (getAineq b) =? 0)
            || negb (length (getbUpperBound b) =? 0)
            || negb (length (getbLowerBound b) =? 0)) eqn:Hany;
    [|eexists; split; [reflexivity|];
      unfold shape_ok; repeat split; assumption].
  destruct Hbi as [Hnone|(Hrows & Hcols & Hside & Hl & Hu)];
    [exfalso; to_props; lia|].
  pass_asserts. unfold normalize_sides, pile.
  destruct (flag_set p UNILATERAL_TO_BILATERAL);
    destruct (length (getbUpperBound b) =? 0) eqn:EU;
    try destruct (length (getbLowerBound b) =? 0) eqn:EL;
    repeat first
      [ progress cbn [bind assert_ cols mrows mscale]
      | progress unfold rows, vscale
      | progress rewrite ?length_map, ?Hci, ?Hcols, ?Nat.eqb_refl
      | match goal with
        | |- context [assert_ _ ?cnd] =>
            let E := fresh "E" in
            destruct cnd eqn:E; [|exfalso; to_props; unfold rows in *; lia]
        end ];
    (eexists; split; [reflexivity|];
     unfold shape_ok; simpl; repeat split; assumption).
Qed.

Lemma merge_bound_passes p c b :
  consistent_child (getXSize c) b = true -> shape_ok c ->
  exists c', merge_bound p c b = Ok c' /\ shape_ok c' /\
             getXSize c' = getXSize c.
Proof.
  intros Hb Hc. unfold merge_bound.
  destruct (copy_bounds_passes c b Hb Hc) as (c1 & -> & Hc1 & Hx1 & _).
  cbn [bind]. rewrite <- Hx1 in Hb.
  destruct (copy_equalities_passes p c1 b Hb Hc1) as (c2 & -> & Hc2 & Hx2).
  cbn [bind]. rewrite <- Hx2 in Hb.
  destruct (copy_inequalities_passes p c2 b Hb Hc2) as (c3 & -> & Hc3 & Hx3).
  exists c3. split; [reflexivity|]. split; [assumption|congruence].
Qed.

Lemma foldM_merge_passes p (l : list (Constraint R)) :
  forall c,
    shape_ok c ->
    (forall b, b ∈ l -> consistent_child (getXSize c) b = true) ->
    exists c', foldM (merge_bound p) c l = Ok c' /\ shape_ok c' /\
               getXSize c' = getXSize c.
Proof.
  induction l as [|b l IH]; intros c Hc Hall; simpl.
  - exists c. split; [reflexivity|]. split; [assumption|reflexivity].
  - destruct (merge_bound_passes p c b (Hall b (list_elem_of_here _ _)) Hc)
      as (c1 & -> & Hc1 & Hx1).
    cbn [bind]. destruct (IH c1 Hc1) as (c2 & Hf & Hc2 & Hx2).
    { intros b' Hb'. rewrite Hx1. apply Hall. right. exact Hb'. }
    exists c2. split; [assumption|]. split; [assumption|congruence].
Qed.

Lemma reset_shape_ok c : shape_ok (reset c).
Proof. unfold shape_ok, reset. simpl. repeat split. left. split; reflexivity. Qed.

Lemma check_merged_passes p c :
  shape_ok c ->
  rows (getAineq c) = length (getbUpperBound c) ->
  (flag_set p UNILATERAL_TO_BILATERAL = false ->
   rows (getAineq c) = length (getbLowerBound c)) ->
  check_merged p c = Ok tt.
Proof.
  intros (Hce & Hci & Hbox & Heq) Hu Hl. unfold check_merged.
  destruct (flag_set p UNILATERAL_TO_BILATERAL) eqn:HU; cbn [negb];
    [|specialize (Hl eq_refl)];
    repeat first
      [ progress cbn [bind assert_]
      | match goal with
        | |- context [assert_ _ ?cnd] =>
            let E := fresh "E" in
            destruct cnd eqn:E; [|exfalso; to_props; unfold rows in *; lia]
        | |- context [if ?cnd then _ else _] => destruct cnd
        end ];
    reflexivity.
Qed.

(** *** Pure-unilateral mode *)

Lemma merge_bound_rows_at_least p c b c' :
  merge_bound p c b = Ok c' ->
  rows (getAineq c) + rows (getAineq b)
  + (if flag_set p EQUALITIES_TO_INEQUALITIES then rows (getAeq b) else 0)
  <= rows (getAineq c').
Proof.
  unfold merge_bound. intros Hm.
  apply bind_Ok_inv in Hm as (c1 & H1 & Hm).
  apply bind_Ok_inv in Hm as (c2 & H2 & H3).
  apply copy_bounds_blocks in H1 as (_ & _ & E1 & _).
  assert (S2 : rows (getAineq c1)
               + (if flag_set p EQUALITIES_TO_INEQUALITIES
                  then rows (getAeq b) else 0) <= rows (getAineq c2)).
  { unfold copy_equalities in H2.
    destruct (flag_set p EQUALITIES_TO_INEQUALITIES);
      monad_inv; pile_inv'; subst c2; to_props; unfold rows in *; simpl;
      rewrite ?length_app, ?length_map; lia. }
  assert (S3 : rows (getAineq c2) + rows (getAineq b) <= rows (getAineq c')).
  { unfold copy_inequalities in H3. monad_inv.
    - match goal with
      | Hn : normalize_sides _ _ _ _ = Ok ?t |- _ =>
          destruct t as [[A' l'] u'];
          assert (HA : rows (getAineq b) <= rows A')
      end.
      { unfold normalize_sides in *. monad_inv; pile_inv'; simplify_eq;
          unfold rows; simpl; rewrite ?length_app, ?length_map; lia. }
      monad_inv; pile_inv'; subst c'; unfold rows in *; simpl;
        rewrite length_app; lia.
    - subst c'. to_props. lia. }
  rewrite E1 in S2. lia.
Qed.

Lemma merge_bound_unilateral_quiet p c b c' :
  flag_set p UNILATERAL_TO_BILATERAL = false ->
  consistent_child (getXSize c) b = true ->
  rows (getAineq b) = 0 ->
  (flag_set p EQUALITIES_TO_INEQUALITIES = true -> rows (getAeq b) = 0) ->
  merge_bound p c b = Ok c' ->
  getAineq c' = getAineq c /\ getbUpperBound c' = getbUpperBound c.
Proof.
  intros HU Hb Hi He Hm.
  apply consistent_child_inv in Hb as (_ & Hbe & _ & Hbi).
  unfold merge_bound in Hm.
  apply bind_Ok_inv in Hm as (c1 & H1 & Hm).
  apply bind_Ok_inv in Hm as (c2 & H2 & H3).
  apply copy_bounds_blocks in H1 as (_ & _ & E1 & _ & E3).
  assert (S2 : getAineq c2 = getAineq c1 /\ getbUpperBound c2 = getbUpperBound c1).
  { unfold copy_equalities in H2.
    destruct (flag_set p EQUALITIES_TO_INEQUALITIES) eqn:HE.
    - specialize (He eq_refl).
      replace (negb (rows (getAeq b) =? 0) || negb (length (getbeq b) =? 0))
        with false in H2 by (symmetry; to_props; lia).
      injection H2 as <-. split; reflexivity.
    - monad_inv; subst c2; split; reflexivity. }
  assert (S3 : c' = c2).
  { unfold copy_inequalities in H3.
    replace (negb (rows (getAineq b) =? 0)
             || negb (length (getbUpperBound b) =? 0)
             || negb (length (getbLowerBound b) =? 0))
      with false in H3 by (symmetry; to_props; lia).
    injection H3 as <-. reflexivity. }
  subst c'. destruct S2 as [-> ->]. split; congruence.
Qed.

Lemma foldM_unilateral_quiet p (l : list (Constraint R)) :
  forall c0 c,
    flag_set p UNILATERAL_TO_BILATERAL = false ->
    (forall b, b ∈ l -> consistent_child (getXSize c0) b = true) ->
    (forall b, b ∈ l ->
               rows (getAineq b) = 0 /\
               (flag_set p EQUALITIES_TO_INEQUALITIES = true ->
                rows (getAeq b) = 0)) ->
    foldM (merge_bound p) c0 l = Ok c ->
    getAineq c = getAineq c0 /\ getbUpperBound c = getbUpperBound c0 /\
    getbLowerBound c = getbLowerBound c0.
Proof.
  induction l as [|b l IH]; intros c0 c HU Hall Hquiet Hm; simpl in Hm.
  - injection Hm as <-. repeat split; reflexivity.
  - apply bind_Ok_inv in Hm as (c1 & H1 & Hm).
    pose proof (merge_bound_grows _ _ _ _ H1) as [_ Hx _ _ _ _ _ _].
    destruct (IH c1 c HU) as (K1 & K2 & K3); try assumption.
    { intros b' Hb'. rewrite Hx. apply Hall. right. exact Hb'. }
    { intros b' Hb'. apply Hquiet. right. exact Hb'. }
    destruct (Hquiet b (list_elem_of_here _ _)) as [Q1 Q2].
    pose proof (merge_bound_unilateral_bLower _ _ _ _ HU H1) as K4.
    apply (merge_bound_unilateral_quiet _ _ _ _ HU) in H1 as [K5 K6];
      try assumption; [|apply Hall; left].
    repeat split; congruence.
Qed.

(** X5. Without UNILATERAL_TO_BILATERAL, and for children consistent with
    the aggregate's [x_size], [generateAll()] returns exactly when no
    child brings an inequality row and, if equalities are folded, no
    equality row either: the closing assertion of line 218 compares the
    merged row count with the lower-bound vector, which stays empty. *)
Theorem unilateral_generateAll_succeeds_iff a :
  flag_set (_aggregationPolicy a) UNILATERAL_TO_BILATERAL = false ->
  (forall b, b ∈ _bounds a -> consistent_child (getXSize (base a)) b = true) ->
  (exists a', generateAll a = Ok a') <->
  (forall b, b ∈ _bounds a ->
             rows (getAineq b) = 0 /\
             (flag_set (_aggregationPolicy a) EQUALITIES_TO_INEQUALITIES = true ->
              rows (getAeq b) = 0)).
Proof.
  intros HU Hall. split.
  - intros (a' & Hg) b Hin.
    pose proof (unilateral_generateAll_has_no_row a a' HU Hg) as Hrows.
    apply generateAll_inv in Hg as (c & Hm & _ & ->). simpl in Hrows.
    unfold merge_all in Hm.
    apply list_elem_of_split in Hin as (l1 & l2 & Hl).
    rewrite Hl, foldM_app in Hm. simpl in Hm.
    apply bind_Ok_inv in Hm as (c1 & _ & Hm).
    apply bind_Ok_inv in Hm as (c2 & H2 & H3).
    apply merge_bound_rows_at_least in H2.
    apply foldM_merge_grows in H3 as [_ _ _ _ [d Hd] _ _ _].
    unfold rows in *. rewrite Hd, length_app in Hrows.
    destruct (flag_set (_aggregationPolicy a) EQUALITIES_TO_INEQUALITIES);
      split; try lia; intros _; lia.
  - intros Hquiet. unfold generateAll.
    destruct (foldM_merge_passes (_aggregationPolicy a) (_bounds a)
                (reset (base a)) (reset_shape_ok _) Hall) as (c & Hm & Hc & _).
    unfold merge_all at 1. rewrite Hm. cbn [bind].
    destruct (foldM_unilateral_quiet _ _ (reset (base a)) c HU Hall Hquiet Hm)
      as (K1 & K2 & K3).
    rewrite (check_merged_passes _ c Hc); [cbn [bind]; eauto| |];
      rewrite ?K1, ?K2, ?K3; reflexivity.
Qed.

(** *** Identifiers *)

Lemma string_app_assoc (s1 s2 s3 : string) :
  (s1 +:+ s2) +:+ s3 = s1 +:+ (s2 +:+ s3).
Proof.
  induction s1 as [|ch s1 IH]; unfold String.append; fold String.append;
    [reflexivity|].
  f_equal. exact IH.
Qed.

Lemma string_app_nil_r (s1 : string) : s1 +:+ "" = s1.
Proof.
  induction s1 as [|ch s1 IH]; unfold String.append; fold String.append;
    [reflexivity|].
  f_equal. exact IH.
Qed.

Lemma ids_loop_from (l : list (Constraint R)) :
  forall acc : string,
    (fold_left
       (fun (st : string * Z) (c : Constraint R) =>
          let concatenatedId := st.1 +:+ getConstraintID c in
          let constraintSize := (st.2 - 1)%Z in
          (if (0 <? constraintSize)%Z then concatenatedId +:+ "+"
           else concatenatedId,
           constraintSize))
       l (acc, Z.of_nat (length l))).1
    = acc +:+ concatenateConstraintsIds l.
Proof.
  induction l as [|c l IH]; intros acc.
  - simpl. rewrite string_app_nil_r. reflexivity.
  - cbn [fold_left length fst snd].
    replace (Z.of_nat (S (length l)) - 1)%Z with (Z.of_nat (length l)) by lia.
    rewrite IH. destruct l as [|c' l'].
    + simpl. rewrite string_app_nil_r. reflexivity.
    + replace (0 <? Z.of_nat (length (c' :: l')))%Z with true
        by (symmetry; apply Z.ltb_lt; simpl; lia).
      cbn [concatenateConstraintsIds]. rewrite !string_app_assoc. reflexivity.
Qed.

Lemma ids_of_app (l1 l2 : list (Constraint R)) :
  l1 <> [] -> l2 <> [] ->
  concatenateConstraintsIds (l1 ++ l2)
  = concatenateConstraintsIds l1 +:+ "+" +:+ concatenateConstraintsIds l2.
Proof.
  intros H1 H2. induction l1 as [|c l1 IH]; [contradiction|].
  destruct l1 as [|c' l1'].
  - destruct l2 as [|c2 l2]; [contradiction|]. reflexivity.
  - change ((c :: c' :: l1') ++ l2) with (c :: (c' :: l1') ++ l2).
    change (concatenateConstraintsIds (c :: (c' :: l1') ++ l2))
      with (getConstraintID c +:+ "+"
            +:+ concatenateConstraintsIds ((c' :: l1') ++ l2)).
    rewrite IH by discriminate.
    change (concatenateConstraintsIds (c :: c' :: l1'))
      with (getConstraintID c +:+ "+" +:+ concatenateConstraintsIds (c' :: l1')).
    rewrite !string_app_assoc. reflexivity.
Qed.

(** X18. The identifier loop of [concatenateConstraintsIds] yields the
    children's identifiers separated by ["+"], with no sign before the
    first or after the last; the identifier of two non-empty lists put
    together is the two identifiers joined by ["+"], so that aggregating
    two aggregates names the result like the aggregate of all their
    children; and the constructor gives the aggregate that identifier. *)
Theorem identifiers_compose :
  (forall l : list (Constraint R),
      concatenateConstraintsIds_loop l = concatenateConstraintsIds l) /\
  (forall l1 l2 : list (Constraint R),
      l1 <> [] -> l2 <> [] ->
      concatenateConstraintsIds_loop (l1 ++ l2)
      = concatenateConstraintsIds_loop l1 +:+ "+"
        +:+ concatenateConstraintsIds_loop l2) /\
  (forall (l1 l2 : list (Constraint R)) (b1 b2 : Constraint R),
      l1 <> [] -> l2 <> [] ->
      getConstraintID b1 = concatenateConstraintsIds_loop l1 ->
      getConstraintID b2 = concatenateConstraintsIds_loop l2 ->
      concatenateConstraintsIds_loop [b1; b2]
      = concatenateConstraintsIds_loop (l1 ++ l2)) /\
  (forall (bounds : list (Constraint R)) (x_size : nat) p a,
      Aggregated_from_list bounds x_size p = Ok a ->
      getConstraintID (base a) = concatenateConstraintsIds_loop bounds /\
      getXSize (base a) = x_size /\ _bounds a = bounds /\
      _aggregationPolicy a = p).
Proof.
  assert (Hloop : forall l : list (Constraint R),
             concatenateConstraintsIds_loop l = concatenateConstraintsIds l).
  { intros l. unfold concatenateConstraintsIds_loop. rewrite ids_loop_from.
    reflexivity. }
  repeat apply conj.
  - exact Hloop.
  - intros l1 l2 H1 H2. rewrite !Hloop. apply ids_of_app; assumption.
  - intros l1 l2 b1 b2 H1 H2 E1 E2. rewrite !Hloop in *.
    rewrite ids_of_app by assumption. simpl. rewrite E1, E2. reflexivity.
  - intros bounds x_size p a Ha. unfold Aggregated_from_list in Ha.
    apply bind_Ok_inv in Ha as (u & _ & Ha).
    apply generateAll_inv in Ha as (c & Hm & _ & ->). simpl.
    apply foldM_merge_grows in Hm as [Hi Hx _ _ _ _ _ _]. simpl in Hi, Hx.
    rewrite Hloop. repeat split; assumption.
Qed.

(** *** Rows of the merged matrices *)

Lemma wf_matrix_rows (A : Matrix R) :
  wf_matrix A = true <-> forall r, r ∈ mrows A -> length r = cols A.
Proof.
  unfold wf_matrix. rewrite forallb_forall. split.
  - intros Hw r Hr. apply Nat.eqb_eq, Hw, list_elem_of_In, Hr.
  - intros Hw r Hr. apply Nat.eqb_eq, Hw, list_elem_of_In, Hr.
Qed.

Lemma wf_pile (A B C : Matrix R) :
  pile A B = Ok C -> wf_matrix A = true -> wf_matrix B = true ->
  wf_matrix C = true.
Proof.
  intros Hp HA HB. apply pile_Ok_inv in Hp as [Hc ->].
  rewrite wf_matrix_rows in *. simpl. intros r Hr.
  apply elem_of_app in Hr as [Hr|Hr]; [apply HA, Hr|].
  rewrite Hc. apply HB, Hr.
Qed.

Lemma wf_mscale (k : R) (A : Matrix R) :
  wf_matrix A = true -> wf_matrix (mscale k A) = true.
Proof.
  rewrite !wf_matrix_rows. unfold mscale, vscale. simpl. intros HA r Hr.
  apply list_elem_of_fmap in Hr as (r0 & -> & Hr0).
  rewrite length_map. apply HA, Hr0.
Qed.

Lemma merge_bound_wf p c b c' :
  wf_matrix (getAeq b) = true -> wf_matrix (getAineq b) = true ->
  merge_bound p c b = Ok c' ->
  wf_matrix (getAeq c) = true /\ wf_matrix (getAineq c) = true ->
  wf_matrix (getAeq c') = true /\ wf_matrix (getAineq c') = true.
Proof.
  intros Hbe Hbi Hm [Hce Hci]. unfold merge_bound in Hm.
  apply bind_Ok_inv in Hm as (c1 & H1 & Hm).
  apply bind_Ok_inv in Hm as (c2 & H2 & H3).
  apply copy_bounds_blocks in H1 as (E1 & _ & E2 & _).
  rewrite <- E1 in Hce. rewrite <- E2 in Hci. clear E1 E2.
  assert (W2 : wf_matrix (getAeq c2) = true /\ wf_matrix (getAineq c2) = true).
  { unfold copy_equalities in H2. monad_inv; subst c2; simpl;
      try (split; assumption);
      repeat match goal with
        | Hq : pile _ _ = Ok _ |- _ =>
            apply wf_pile in Hq; [|assumption|try apply wf_mscale; assumption]
        end; split; assumption. }
  destruct W2 as [W2e W2i].
  unfold copy_inequalities in H3. monad_inv; try (subst c'; split; assumption).
  match goal with
  | Hn : normalize_sides _ _ _ _ = Ok ?t |- _ =>
      destruct t as [[A' l'] u']; assert (HA : wf_matrix A' = true)
  end.
  { unfold normalize_sides in *. monad_inv; simplify_eq;
      try assumption; try (apply wf_mscale; assumption).
    match goal with
    | Hq : pile _ _ = Ok _ |- _ =>
        apply wf_pile in Hq; [assumption|assumption|apply wf_mscale; assumption]
    end. }
  monad_inv;
    match goal with
    | Hq : pile _ _ = Ok _ |- _ => apply wf_pile in Hq; [|assumption..]
    end; subst c'; split; assumption.
Qed.

Lemma foldM_merge_wf p (l : list (Constraint R)) :
  forall c0 c,
    (forall b, b ∈ l ->
               wf_matrix (getAeq b) = true /\ wf_matrix (getAineq b) = true) ->
    wf_matrix (getAeq c0) = true /\ wf_matrix (getAineq c0) = true ->
    foldM (merge_bound p) c0 l = Ok c ->
    wf_matrix (getAeq c) = true /\ wf_matrix (getAineq c) = true.
Proof.
  induction l as [|b l IH]; intros c0 c Hall H0 Hm; simpl in Hm.
  - injection Hm as <-. exact H0.
  - apply bind_Ok_inv in Hm as (c1 & H1 & Hm).
    apply (IH c1 c); [|  |exact Hm].
    + intros b' Hb'. apply Hall. right. exact Hb'.
    + destruct (Hall b (list_elem_of_here _ _)) as [Hbe Hbi].
      apply (merge_bound_wf _ _ _ _ Hbe Hbi H1 H0).
Qed.

(** X7. When the matrices of the children are rectangular (each row as
    long as the column count), every row of the merged equality and
    inequality matrices has exactly [x_size] entries. *)
Theorem merged_rows_have_x_size a a' :
  (forall b, b ∈ _bounds a ->
             wf_matrix (getAeq b) = true /\ wf_matrix (getAineq b) = true) ->
  generateAll a = Ok a' ->
  (forall r, r ∈ mrows (getAeq (base a')) -> length r = getXSize (base a)) /\
  (forall r, r ∈ mrows (getAineq (base a')) -> length r = getXSize (base a)).
Proof.
  intros Hall Hg. apply generateAll_inv in Hg as (c & Hm & _ & ->). simpl.
  unfold merge_all in Hm.
  pose proof (foldM_merge_grows _ _ _ _ Hm) as [_ _ Hce Hci _ _ _ _].
  simpl in Hce, Hci.
  destruct (foldM_merge_wf _ _ (reset (base a)) c Hall
              (conj (eq_refl : wf_matrix (getAeq (reset (base a))) = true)
                    (eq_refl : wf_matrix (getAineq (reset (base a))) = true))
              Hm) as [We Wi].
  rewrite wf_matrix_rows in We, Wi. rewrite Hce in We. rewrite Hci in Wi.
  split; assumption.
Qed.

(** *** No child at all *)

(** X8. With an empty list of constraints the constructor taking
    [x_size] builds an aggregate whose merged members are all empty, its
    matrices having [x_size] columns, while the constructor taking a state
    vector stops at the assertion of line 32. *)
Theorem no_child_constructors (x_size : nat) (p : N)
        (child_update : Vector R -> Constraint R -> Constraint R)
        (q : Vector R) :
  Aggregated_from_list [] x_size p
  = Ok (mkAggregated
          (mkConstraint "" x_size [] [] (empty_matrix x_size) []
                        (empty_matrix x_size) [] [])
          [] p) /\
  Aggregated_from_state child_update [] q p = Err (AssertionFailed 32).
Proof.
  split; [|reflexivity].
  unfold Aggregated_from_list, generateAll, check_merged. simpl.
  destruct (flag_set p UNILATERAL_TO_BILATERAL); reflexivity.
Qed.

(** *** The merged box as a set of points *)
Section BoxPoints.
Context `{!ScalarOrder R}.

Lemma merged_box_pointwise a a' :
  _bounds a <> [] ->
  (forall b, b ∈ _bounds a ->
             length (getUpperBound b) = getXSize (base a) /\
             length (getLowerBound b) = getXSize (base a)) ->
  generateAll a = Ok a' ->
  forall i, i < getXSize (base a) ->
    exists u l,
      getUpperBound (base a') !! i = Some u /\
      getLowerBound (base a') !! i = Some l /\
      is_minimum u (map (fun b => getUpperBound b !!! i) (_bounds a)) /\
      is_maximum l (map (fun b => getLowerBound b !!! i) (_bounds a)).
Proof.
  intros Hne Hall Hg i Hi.
  destruct (_bounds a) as [|b0 rest] eqn:Hb; [contradiction|].
  apply generateAll_inv in Hg as (c & Hm & _ & ->). simpl.
  unfold merge_all in Hm. rewrite Hb in Hm. simpl in Hm.
  apply bind_Ok_inv in Hm as (c2 & H2 & Hf).
  pose proof (merge_bound_grows _ _ _ _ H2) as [_ Hx _ _ _ _ _ _].
  simpl in Hx.
  apply merge_bound_boxes in H2 as (c1 & H1 & Eu & El).
  destruct (Hall b0) as [Hbu Hbl]; [left|].
  apply copy_bounds_first in H1 as [Fu Fl]; try reflexivity; try assumption.
  apply foldM_merge_boxes in Hf as [Gu Gl].
  2,3: congruence.
  2:{ intros b Hin. rewrite Hx. apply Hall. right. exact Hin. }
  rewrite Eu, Fu in Gu. rewrite El, Fl in Gl.
  destruct (lookup_lt_is_Some_2 (getUpperBound b0) i) as [u0 Hu0]; [lia|].
  destruct (lookup_lt_is_Some_2 (getLowerBound b0) i) as [l0 Hl0]; [lia|].
  eexists _, _. rewrite Gu, Gl. split.
  { apply (lookup_fold_zip std_min i _ _ u0 Hu0).
    intros l Hl. apply list_elem_of_fmap in Hl as (b & -> & Hin).
    apply lookup_lt_is_Some_2.
    destruct (Hall b) as [-> _]; [right; exact Hin | exact Hi]. }
  split.
  { apply (lookup_fold_zip std_max i _ _ l0 Hl0).
    intros l Hl. apply list_elem_of_fmap in Hl as (b & -> & Hin).
    apply lookup_lt_is_Some_2.
    destruct (Hall b) as [_ ->]; [right; exact Hin | exact Hi]. }
  simpl. rewrite (list_lookup_total_correct _ _ _ Hu0).
  rewrite (list_lookup_total_correct _ _ _ Hl0).
  rewrite !map_map.
  split; [apply fold_min_is_minimum | apply fold_max_is_maximum].
Qed.

(** X6. When every child exposes box bounds of length [x_size], a point
    lies inside the merged box exactly when it lies inside the box of
    every child. *)
Theorem merged_box_contains a a' (x : list R) :
  _bounds a <> [] ->
  (forall b, b ∈ _bounds a ->
             length (getUpperBound b) = getXSize (base a) /\
             length (getLowerBound b) = getXSize (base a)) ->
  generateAll a = Ok a' ->
  in_box (getLowerBound (base a')) (getUpperBound (base a')) x <->
  (forall b, b ∈ _bounds a -> in_box (getLowerBound b) (getUpperBound b) x).
Proof.
  intros Hne Hall Hg.
  pose proof (merged_box_pointwise a a' Hne Hall Hg) as Hpt.
  split.
  - intros Hin b Hb i lb ub v Hlb Hub Hv.
    assert (Hi : i < getXSize (base a)).
    { destruct (Hall b Hb) as [<- _]. eapply lookup_lt_Some. exact Hub. }
    destruct (Hpt i Hi) as (u & l & Hu & Hl & [_ Hmin] & [_ Hmax]).
    destruct (Hin i l u v Hl Hu Hv) as [Hvl Huv].
    assert (Hlb' : s_ltb l lb = false).
    { apply Hmax. apply list_elem_of_fmap. exists b. split; [|exact Hb].
      symmetry. apply list_lookup_total_correct. exact Hlb. }
    assert (Hub' : s_ltb ub u = false).
    { apply Hmin. apply list_elem_of_fmap. exists b. split; [|exact Hb].
      symmetry. apply list_lookup_total_correct. exact Hub. }
    split; eapply s_ltb_negtrans; eassumption.
  - intros Hin i l u v Hl Hu Hv.
    assert (Hi : i < getXSize (base a)).
    { destruct (Nat.lt_ge_cases i (getXSize (base a))) as [Hlt|Hge];
        [exact Hlt|].
      exfalso. destruct (_bounds a) as [|b0 rest] eqn:Hb; [contradiction|].
      apply generateAll_inv in Hg as (c & Hm & Hchk & ->). simpl in *.
      apply check_merged_inv in Hchk as (_ & [Hz|Hx] & _).
      - apply lookup_lt_Some in Hu. lia.
      - apply lookup_lt_Some in Hu.
        pose proof (foldM_merge_grows _ _ _ _ Hm) as [_ Hxs _ _ _ _ _ _].
        simpl in Hxs. lia. }
    destruct (Hpt i Hi) as (u' & l' & Hu' & Hl' & [Humem _] & [Hlmem _]).
    rewrite Hu in Hu'. rewrite Hl in Hl'.
    injection Hu' as <-. injection Hl' as <-.
    apply list_elem_of_fmap in Humem as (bu & Hbu & Hbuin).
    apply list_elem_of_fmap in Hlmem as (bl & Hbl & Hblin).
    destruct (Hall bu Hbuin) as [Hlenu1 Hlenl1].
    destruct (Hall bl Hblin) as [Hlenu2 Hlenl2].
    destruct (lookup_lt_is_Some_2 (getUpperBound bu) i) as [u1 Hu1]; [lia|].
    destruct (lookup_lt_is_Some_2 (getLowerBound bu) i) as [l1 Hl1]; [lia|].
    destruct (lookup_lt_is_Some_2 (getUpperBound bl) i) as [u2 Hu2]; [lia|].
    destruct (lookup_lt_is_Some_2 (getLowerBound bl) i) as [l2 Hl2]; [lia|].
    rewrite (list_lookup_total_correct _ _ _ Hu1) in Hbu.
    rewrite (list_lookup_total_correct _ _ _ Hl2) in Hbl. subst u1 l2.
    destruct (Hin bu Hbuin i l1 u v Hl1 Hu1 Hv) as [_ Huv].
    destruct (Hin bl Hblin i l u2 v Hl2 Hu2 Hv) as [Hvl _].
    split; assumption.
Qed.

End BoxPoints.

(** *** Aggregates of aggregates *)

Section Nesting.
Context `{!ScalarOrder R}.

Lemma s_ltb_trans (x y z : R) :
  s_ltb x y = true -> s_ltb y z = true -> s_ltb x z = true.
Proof.
  intros Hxy Hyz. destruct (s_ltb x z) eqn:Hxz; [reflexivity|].
  pose proof (s_ltb_asym _ _ Hyz) as Hzy.
  rewrite (s_ltb_negtrans x z y Hxz Hzy) in Hxy. discriminate.
Qed.

Lemma std_min_assoc (a b c : R) :
  std_min (std_min a b) c = std_min a (std_min b c).
Proof.
  unfold std_min.
  destruct (s_ltb b a) eqn:Hba, (s_ltb c b) eqn:Hcb;
    rewrite ?Hba, ?Hcb; try reflexivity.
  - rewrite (s_ltb_trans c b a) by assumption. reflexivity.
  - rewrite (s_ltb_negtrans c b a) by assumption. reflexivity.
Qed.

Lemma std_max_assoc (a b c : R) :
  std_max (std_max a b) c = std_max a (std_max b c).
Proof.
  unfold std_max.
  destruct (s_ltb a b) eqn:Hab, (s_ltb b c) eqn:Hbc;
    rewrite ?Hab, ?Hbc; try reflexivity.
  - rewrite (s_ltb_trans a b c) by assumption. reflexivity.
  - rewrite (s_ltb_negtrans a b c) by assumption. reflexivity.
Qed.

Lemma zip_with_assoc (f : R -> R -> R) :
  (forall x y z : R, f (f x y) z = f x (f y z)) ->
  forall l1 l2 l3 : list R,
    zip_with f (zip_with f l1 l2) l3 = zip_with f l1 (zip_with f l2 l3).
Proof.
  intros Hf l1. induction l1 as [|a l1 IH]; intros [|b l2] [|c l3];
    simpl; try reflexivity.
  rewrite Hf, IH. reflexivity.
Qed.

Lemma box_op_nil_r (x : nat) (B : list R * list R) : box_op x B ([], []) = B.
Proof. reflexivity. Qed.

Lemma box_op_nil_l (x : nat) (C : list R * list R) : box_op x ([], []) C = C.
Proof.
  unfold box_op. simpl.
  destruct C as [[|u us] [|l ls]]; reflexivity.
Qed.

Lemma box_op_full (x : nat) (B C : list R * list R) :
  0 < x ->
  length B.1 = x -> length B.2 = x -> length C.1 = x -> length C.2 = x ->
  box_op x B C = (zip_with std_min B.1 C.1, zip_with std_max B.2 C.2).
Proof.
  intros Hx H1 H2 H3 H4. unfold box_op.
  rewrite intersect_boxes_zip by assumption.
  rewrite H1, H2, H3, H4.
  destruct x; [lia|]. reflexivity.
Qed.

Lemma valid_box_cases (x : nat) (B : list R * list R) :
  valid_box x B ->
  B = ([], []) \/ (0 < x /\ length B.1 = x /\ length B.2 = x).
Proof.
  intros [[H1 H2]|[H1 H2]].
  - left. destruct B; simpl in *; congruence.
  - destruct x.
    + left. destruct B as [u l]; simpl in *.
      rewrite (nil_length_inv u), (nil_length_inv l) by assumption.
      reflexivity.
    + right. split; [lia|]. split; assumption.
Qed.

Lemma box_op_valid (x : nat) (B C : list R * list R) :
  valid_box x B -> valid_box x C -> valid_box x (box_op x B C).
Proof.
  intros HB HC.
  destruct (valid_box_cases x C HC) as [->|(Hx & C1 & C2)];
    [rewrite box_op_nil_r; exact HB|].
  destruct (valid_box_cases x B HB) as [->|(_ & B1 & B2)];
    [rewrite box_op_nil_l; exact HC|].
  rewrite box_op_full by assumption.
  right. simpl. rewrite !length_zip_with. lia.
Qed.

Lemma box_op_assoc (x : nat) (A B C : list R * list R) :
  valid_box x A -> valid_box x B -> valid_box x C ->
  box_op x (box_op x A B) C = box_op x A (box_op x B C).
Proof.
  intros HA HB HC.
  destruct (valid_box_cases x C HC) as [->|(Hx & C1 & C2)];
    [rewrite !box_op_nil_r; reflexivity|].
  destruct (valid_box_cases x B HB) as [->|(_ & B1 & B2)];
    [rewrite box_op_nil_r, box_op_nil_l; reflexivity|].
  destruct (valid_box_cases x A HA) as [->|(_ & A1 & A2)];
    [rewrite !box_op_nil_l; reflexivity|].
  rewrite (box_op_full x A B), (box_op_full x B C) by assumption.
  rewrite !box_op_full; simpl; rewrite ?length_zip_with; try lia.
  rewrite (zip_with_assoc std_min std_min_assoc).
  rewrite (zip_with_assoc std_max std_max_assoc). reflexivity.
Qed.

Lemma fold_box_op_valid (x : nat) (Bs : list (list R * list R)) :
  Forall (valid_box x) Bs ->
  forall A, valid_box x A -> valid_box x (fold_left (box_op x) Bs A).
Proof.
  induction 1 as [|B Bs HB _ IH]; intros A HA; simpl; [exact HA|].
  apply IH. apply box_op_valid; assumption.
Qed.

Lemma valid_box_nil (x : nat) : valid_box x (([], []) : list R * list R).
Proof. left. split; reflexivity. Qed.

(** Merging a run of boxes into [A] is merging their own merge into
    [A]. *)
Lemma fold_box_op_fusion (x : nat) (Bs : list (list R * list R)) :
  Forall (valid_box x) Bs ->
  forall A, valid_box x A ->
            fold_left (box_op x) Bs A
            = box_op x A (fold_left (box_op x) Bs ([], [])).
Proof.
  induction 1 as [|B Bs HB HBs IH]; intros A HA; simpl.
  - rewrite box_op_nil_r. reflexivity.
  - rewrite box_op_nil_l.
    rewrite (IH (box_op x A B)) by (apply box_op_valid; assumption).
    rewrite (IH B HB).
    apply box_op_assoc; try assumption.
    apply fold_box_op_valid; [assumption | apply valid_box_nil].
Qed.

Lemma copy_bounds_box c b c' :
  copy_bounds c b = Ok c' ->
  box_of c' = box_op (getXSize c) (box_of c) (box_of b).
Proof.
  unfold copy_bounds, box_of, box_op. cbn [fst snd]. intros Hc.
  destruct (negb (length (getUpperBound b) =? 0)
            || negb (length (getLowerBound b) =? 0)) eqn:Hany.
  - apply bind_Ok_inv in Hc as (? & _ & Hc).
    apply bind_Ok_inv in Hc as (? & _ & Hc).
    destruct ((length (getUpperBound c) =? 0)
              || (length (getLowerBound c) =? 0)) eqn:Hfirst.
    + apply bind_Ok_inv in Hc as (? & _ & Hc). injection Hc as <-.
      reflexivity.
    + injection Hc as <-. simpl. symmetry. apply surjective_pairing.
  - injection Hc as <-. reflexivity.
Qed.

Lemma merge_bound_box p c b c' :
  merge_bound p c b = Ok c' ->
  box_of c' = box_op (getXSize c) (box_of c) (box_of b).
Proof.
  intros Hm. apply merge_bound_boxes in Hm as (c1 & H1 & Eu & El).
  apply copy_bounds_box in H1. rewrite <- H1. unfold box_of. congruence.
Qed.

Lemma copy_bounds_consistent c b c' :
  copy_bounds c b = Ok c' ->
  (length (getUpperBound b) = 0 /\ length (getLowerBound b) = 0) \/
  (length (getUpperBound b) = getXSize c /\
   length (getLowerBound b) = getXSize c).
Proof.
  unfold copy_bounds. intros Hc.
  destruct (negb (length (getUpperBound b) =? 0)
            || negb (length (getLowerBound b) =? 0)) eqn:Hany.
  - apply bind_Ok_inv in Hc as (? & A1 & Hc).
    apply bind_Ok_inv in Hc as (? & A2 & _).
    apply assert_Ok_inv in A1, A2. to_props. right. split; assumption.
  - to_props. left. exact Hany.
Qed.

Lemma copy_equalities_consistent p c b c' :
  cols (getAeq c) = getXSize c -> cols (getAineq c) = getXSize c ->
  copy_equalities p c b = Ok c' ->
  rows (getAeq b) = length (getbeq b) /\
  (rows (getAeq b) = 0 \/ cols (getAeq b) = getXSize c).
Proof.
  unfold copy_equalities. intros Hce Hci Hc.
  destruct (negb (rows (getAeq b) =? 0) || negb (length (getbeq b) =? 0))
    eqn:Hany.
  - apply bind_Ok_inv in Hc as (? & A1 & Hc). apply assert_Ok_inv in A1.
    destruct (flag_set p EQUALITIES_TO_INEQUALITIES);
      apply bind_Ok_inv in Hc as (? & A2 & _); apply assert_Ok_inv in A2;
      to_props; split; try assumption; right; congruence.
  - to_props. split; [lia | left; lia].
Qed.

Lemma copy_inequalities_consistent p c b c' :
  flag_set p UNILATERAL_TO_BILATERAL = true ->
  copy_inequalities p c b = Ok c' ->
  (rows (getAineq b) = 0 /\ length (getbLowerBound b) = 0 /\
   length (getbUpperBound b) = 0) \/
  (0 < rows (getAineq b) /\ cols (getAineq b) = getXSize c /\
   (0 < length (getbLowerBound b) \/ 0 < length (getbUpperBound b)) /\
   (length (getbLowerBound b) = 0 \/
    length (getbLowerBound b) = rows (getAineq b)) /\
   (length (getbUpperBound b) = 0 \/
    length (getbUpperBound b) = rows (getAineq b))).
Proof.
  unfold copy_inequalities. intros HU Hc.
  destruct (negb (rows (getAineq b) =? 0)
            || negb (length (getbUpperBound b) =? 0)
            || negb (length (getbLowerBound b) =? 0)) eqn:Hany.
  - apply bind_Ok_inv in Hc as (? & A1 & Hc). apply assert_Ok_inv in A1.
    apply bind_Ok_inv in Hc as (? & A2 & Hc). apply assert_Ok_inv in A2.
    apply bind_Ok_inv in Hc as (? & A3 & Hc). apply assert_Ok_inv in A3.
    apply bind_Ok_inv in Hc as ([[A' l'] u'] & Hn & _).
    right. unfold normalize_sides in Hn. rewrite HU in Hn.
    destruct (length (getbUpperBound b) =? 0) eqn:EU;
      [|destruct (length (getbLowerBound b) =? 0) eqn:EL];
      monad_inv; to_props; repeat apply conj; try assumption; lia.
  - to_props. left. lia.
Qed.

Lemma merge_bound_consistent p c b c' :
  flag_set p UNILATERAL_TO_BILATERAL = true ->
  shape_ok c ->
  merge_bound p c b = Ok c' ->
  consistent_child (getXSize c) b = true.
Proof.
  intros HU (Hce & Hci & _ & _) Hm. unfold merge_bound in Hm.
  apply bind_Ok_inv in Hm as (c1 & H1 & Hm).
  apply bind_Ok_inv in Hm as (c2 & H2 & H3).
  pose proof (copy_bounds_consistent _ _ _ H1) as Hbox.
  pose proof (copy_bounds_grows p _ _ _ H1) as [_ X1 E1 I1 _ _ _ _].
  pose proof (copy_equalities_grows _ _ _ _ H2) as [_ X2 _ _ _ _ _ _].
  apply copy_equalities_consistent in H2 as [Heq Hcols]; [|congruence..].
  apply (copy_inequalities_consistent _ _ _ _ HU) in H3.
  rewrite X2, X1 in H3. rewrite X1 in Hcols.
  unfold consistent_child. to_props. tauto.
Qed.

(** What a run of the merge loop leaves in the merged members, in
    bilateral mode. *)
Lemma foldM_merge_summary p (l : list (Constraint R)) :
  flag_set p UNILATERAL_TO_BILATERAL = true ->
  forall c c',
    shape_ok c ->
    foldM (merge_bound p) c l = Ok c' ->
    shape_ok c' /\
    (forall b, b ∈ l -> consistent_child (getXSize c) b = true) /\
    box_of c' = fold_left (box_op (getXSize c)) (map box_of l) (box_of c).
Proof.
  intros HU. induction l as [|b l IH]; intros c c' Hc Hf; simpl in Hf.
  - injection Hf as <-. split; [exact Hc|]. split; [|reflexivity].
    intros b Hb. inversion Hb.
  - apply bind_Ok_inv in Hf as (c1 & H1 & Hf).
    pose proof (merge_bound_consistent _ _ _ _ HU Hc H1) as Hb.
    destruct (merge_bound_passes p c b Hb Hc) as (c1' & H1' & Hc1 & Hx1).
    rewrite H1 in H1'. injection H1' as <-.
    destruct (IH _ _ Hc1 Hf) as (Hc' & Hall & Hbox).
    split; [exact Hc'|]. split.
    + intros b' Hb'. apply elem_of_cons in Hb' as [->|Hb']; [exact Hb|].
      rewrite <- Hx1. apply Hall. exact Hb'.
    + simpl. rewrite Hbox, Hx1, (merge_bound_box _ _ _ _ H1). reflexivity.
Qed.

(** X4. With UNILATERAL_TO_BILATERAL set, [generateAll()] passes every
    assertion exactly when each child is consistent with the aggregate's
    [x_size]: boxes both empty or both [x_size] long, equality rows
    matching [beq] with [x_size] columns, inequality rows with [x_size]
    columns and each present bound of the row count. *)
Theorem bilateral_generateAll_succeeds_iff a :
  flag_set (_aggregationPolicy a) UNILATERAL_TO_BILATERAL = true ->
  (exists a', generateAll a = Ok a') <->
  (forall b, b ∈ _bounds a -> consistent_child (getXSize (base a)) b = true).
Proof.
  intros HU. split.
  - intros [a' Hg]. apply generateAll_inv in Hg as (c & Hm & _ & _).
    unfold merge_all in Hm.
    destruct (foldM_merge_summary _ _ HU _ _ (reset_shape_ok _) Hm)
      as (_ & Hall & _).
    exact Hall.
  - intros Hall. unfold generateAll.
    destruct (foldM_merge_passes (_aggregationPolicy a) (_bounds a)
                (reset (base a)) (reset_shape_ok _) Hall) as (c & Hm & Hc & _).
    unfold merge_all at 1. rewrite Hm. cbn [bind].
    destruct (merge_all_balanced a c HU Hm) as [Bl Bu].
    rewrite (check_merged_passes _ c Hc); [cbn [bind]; eauto|lia|].
    rewrite HU. discriminate.
Qed.

Lemma merge_bound_eq_block p c b c' :
  merge_bound p c b = Ok c' ->
  mrows (getAeq c')
  = mrows (getAeq c)
    ++ (if flag_set p EQUALITIES_TO_INEQUALITIES then []
        else mrows (getAeq b)) /\
  getbeq c'
  = getbeq c
    ++ (if flag_set p EQUALITIES_TO_INEQUALITIES then [] else getbeq b).
Proof.
  intros Hm. destruct (flag_set p EQUALITIES_TO_INEQUALITIES) eqn:HE.
  - pose proof (merge_bound_grows _ _ _ _ Hm) as [_ _ _ _ _ _ _ Hk].
    rewrite HE in Hk. destruct (Hk eq_refl) as [-> ->].
    rewrite !app_nil_r. split; reflexivity.
  - apply (merge_bound_eq_stacked _ _ _ _ HE Hm).
Qed.

Lemma matrix_ext (A B : Matrix R) :
  cols A = cols B -> mrows A = mrows B -> A = B.
Proof. destruct A, B. simpl. congruence. Qed.

Lemma shape_ok_valid_box c : shape_ok c -> valid_box (getXSize c) (box_of c).
Proof.
  intros (_ & _ & [[Hu Hl]|[Hu Hl]] & _); [left|right]; simpl.
  - split; apply nil_length_inv; assumption.
  - split; assumption.
Qed.

Lemma consistent_valid_box (x : nat) b :
  consistent_child x b = true -> valid_box x (box_of b).
Proof.
  intros Hb. apply consistent_child_inv in Hb as ([[Hu Hl]|[Hu Hl]] & _);
    [left|right]; simpl.
  - split; apply nil_length_inv; assumption.
  - split; assumption.
Qed.

(** The merged members of [l], merged from a reset constraint, in
    bilateral mode. *)
Lemma merge_all_summary p (c0 : Constraint R) (l : list (Constraint R)) m :
  flag_set p UNILATERAL_TO_BILATERAL = true ->
  foldM (merge_bound p) (reset c0) l = Ok m ->
  (getConstraintID m = getConstraintID c0 /\ getXSize m = getXSize c0) /\
  (shape_ok m /\ balanced m) /\
  (forall b, b ∈ l -> consistent_child (getXSize c0) b = true) /\
  box_of m = fold_left (box_op (getXSize c0)) (map box_of l) ([], []) /\
  (cols (getAeq m) = getXSize c0 /\ cols (getAineq m) = getXSize c0) /\
  (mrows (getAeq m)
   = concat (map (fun b => if flag_set p EQUALITIES_TO_INEQUALITIES then []
                           else mrows (getAeq b)) l) /\
   getbeq m
   = concat (map (fun b => if flag_set p EQUALITIES_TO_INEQUALITIES then []
                           else getbeq b) l)) /\
  mrows (getAineq m) = concat (map (bilateral_rows p) l) /\
  getbLowerBound m = concat (map (bilateral_lower p) l) /\
  getbUpperBound m = concat (map (bilateral_upper p) l).
Proof.
  intros HU Hm.
  pose proof (foldM_merge_grows _ _ _ _ Hm) as [Hid Hx Hce Hci _ _ _ _].
  destruct (foldM_merge_summary p l HU _ _ (reset_shape_ok c0) Hm)
    as (Hs & Hall & Hbox).
  pose proof (foldM_merge_balanced _ _ _ _ HU Hm (reset_balanced c0)) as Hbal.
  split; [split; assumption|]. split; [split; assumption|].
  split; [exact Hall|]. split; [exact Hbox|].
  split; [split; assumption|].
  split; [split|split; [|split]].
  - apply (foldM_appends (merge_bound p) (fun c => mrows (getAeq c))
             (fun b => if flag_set p EQUALITIES_TO_INEQUALITIES then []
                       else mrows (getAeq b))) in Hm; [exact Hm|].
    intros x y x' Hstep. apply (merge_bound_eq_block _ _ _ _ Hstep).
  - apply (foldM_appends (merge_bound p) getbeq
             (fun b => if flag_set p EQUALITIES_TO_INEQUALITIES then []
                       else getbeq b)) in Hm; [exact Hm|].
    intros x y x' Hstep. apply (merge_bound_eq_block _ _ _ _ Hstep).
  - apply (foldM_appends (merge_bound p) (fun c => mrows (getAineq c))
             (bilateral_rows p)) in Hm; [exact Hm|].
    intros x y x' Hstep. apply (merge_bound_bilateral _ _ _ _ HU Hstep).
  - apply (foldM_appends (merge_bound p) getbLowerBound
             (bilateral_lower p)) in Hm; [exact Hm|].
    intros x y x' Hstep. apply (merge_bound_bilateral _ _ _ _ HU Hstep).
  - apply (foldM_appends (merge_bound p) getbUpperBound
             (bilateral_upper p)) in Hm; [exact Hm|].
    intros x y x' Hstep. apply (merge_bound_bilateral _ _ _ _ HU Hstep).
Qed.

Lemma size_loop_inv {A : Type} (sz : A -> nat) (line x : nat) (l : list A) :
  foldM (fun (_ : unit) t => assert_ line (x =? sz t)) tt l = Ok tt ->
  forall t, t ∈ l -> sz t = x.
Proof.
  intros Hf t Ht. destruct (Nat.eq_dec (sz t) x) as [Heq|Hne]; [exact Heq|].
  rewrite (size_loop_fails sz line x l t Ht Hne) in Hf. discriminate.
Qed.

Lemma merged_eq_folded p (c0 : Constraint R) (l : list (Constraint R)) m :
  flag_set p EQUALITIES_TO_INEQUALITIES = true ->
  foldM (merge_bound p) (reset c0) l = Ok m ->
  mrows (getAeq m) = [] /\ getbeq m = [].
Proof.
  intros HE Hm.
  pose proof (foldM_merge_grows _ _ _ _ Hm) as [_ _ _ _ _ _ _ Hk].
  destruct (Hk HE) as [-> ->]. split; reflexivity.
Qed.

(** A merged constraint adds to an enclosing aggregate exactly its own
    inequality block. *)
Lemma merged_contribution p (c0 : Constraint R) (l : list (Constraint R)) m :
  flag_set p UNILATERAL_TO_BILATERAL = true ->
  foldM (merge_bound p) (reset c0) l = Ok m ->
  bilateral_rows p m = mrows (getAineq m) /\
  bilateral_lower p m = getbLowerBound m /\
  bilateral_upper p m = getbUpperBound m /\
  (if flag_set p EQUALITIES_TO_INEQUALITIES then []
   else mrows (getAeq m)) = mrows (getAeq m) /\
  (if flag_set p EQUALITIES_TO_INEQUALITIES then []
   else getbeq m) = getbeq m.
Proof.
  intros HU Hm.
  pose proof (foldM_merge_balanced _ _ _ _ HU Hm (reset_balanced c0))
    as [Bl Bu].
  assert (HE : flag_set p EQUALITIES_TO_INEQUALITIES = true ->
               mrows (getAeq m) = [] /\ getbeq m = []).
  { intros HE. apply (merged_eq_folded p c0 l m HE Hm). }
  unfold bilateral_rows, bilateral_lower, bilateral_upper.
  assert (Hl : (if length (getbUpperBound m) =? 0 then getbLowerBound m
                else if length (getbLowerBound m) =? 0
                     then vones_times (rows (getAineq m)) (s_opp s_max)
                     else getbLowerBound m) = getbLowerBound m).
  { destruct (length (getbUpperBound m) =? 0) eqn:EU; [reflexivity|].
    destruct (length (getbLowerBound m) =? 0) eqn:EL; [|reflexivity].
    exfalso. to_props. lia. }
  assert (Hu : (if length (getbUpperBound m) =? 0
                then vones_times (rows (getAineq m)) s_infinity
                else getbUpperBound m) = getbUpperBound m).
  { destruct (length (getbUpperBound m) =? 0) eqn:EU; [|reflexivity].
    to_props. rewrite <- Bu, EU.
    symmetry. apply nil_length_inv. exact EU. }
  rewrite Hl, Hu.
  destruct (flag_set p EQUALITIES_TO_INEQUALITIES).
  - destruct (HE eq_refl) as [-> ->]. repeat split; reflexivity.
  - repeat split; reflexivity.
Qed.

Lemma merged_consistent p (c0 : Constraint R) (l : list (Constraint R)) m :
  flag_set p UNILATERAL_TO_BILATERAL = true ->
  foldM (merge_bound p) (reset c0) l = Ok m ->
  consistent_child (getXSize c0) m = true.
Proof.
  intros HU Hm.
  destruct (merge_all_summary p c0 l m HU Hm)
    as ([_ Hx] & [(Hce & Hci & Hbox & Heq) [Bl Bu]] & _).
  rewrite <- Hx. unfold consistent_child. to_props.
  unfold rows in *. lia.
Qed.

(** In bilateral mode the constructor body runs through on consistent
    children of the right size. *)
Lemma bilateral_ctor_runs p (c0 : Constraint R) (l : list (Constraint R)) :
  flag_set p UNILATERAL_TO_BILATERAL = true ->
  (forall b, b ∈ l -> getXSize b = getXSize c0) ->
  (forall b, b ∈ l -> consistent_child (getXSize c0) b = true) ->
  exists m,
    foldM (merge_bound p) (reset c0) l = Ok m /\
    (checkSizes (mkAggregated c0 l p) ;;; generateAll (mkAggregated c0 l p))
    = Ok (mkAggregated m l p).
Proof.
  intros HU Hsz Hall.
  destruct (foldM_merge_passes p l (reset c0) (reset_shape_ok _) Hall)
    as (m & Hm & Hs & _).
  exists m. split; [exact Hm|].
  unfold checkSizes. cbn [base _bounds].
  rewrite (size_loop_passes getXSize 228 (getXSize c0) l Hsz). cbn [bind].
  unfold generateAll, merge_all. cbn [base _bounds _aggregationPolicy].
  rewrite Hm. cbn [bind].
  pose proof (foldM_merge_balanced _ _ _ _ HU Hm (reset_balanced c0))
    as [Bl Bu].
  rewrite (check_merged_passes p m Hs); [reflexivity|lia|].
  rewrite HU. discriminate.
Qed.

Lemma from_list_inv (l : list (Constraint R)) (x_size : nat) p a :
  Aggregated_from_list l x_size p = Ok a ->
  (forall b, b ∈ l -> getXSize b = x_size) /\
  foldM (merge_bound p)
        (reset (Constraint_ctor (concatenateConstraintsIds l) x_size)) l
  = Ok (base a).
Proof.
  unfold Aggregated_from_list. intros Ha.
  apply bind_Ok_inv in Ha as ([] & Hsz & Hg).
  split; [exact (size_loop_inv getXSize 228 x_size l Hsz)|].
  apply generateAll_inv in Hg as (c & Hm & _ & ->). exact Hm.
Qed.

(** X19. In bilateral mode an aggregate of two aggregates is the
    aggregate of all their children: when the aggregates over [l1] and
    over [l2] can be built, so can the aggregate of the two and the
    aggregate over [l1 ++ l2], and both end with the same merged members;
    when neither list is empty they also carry the same identifier. *)
Theorem nested_aggregate_flattens (l1 l2 : list (Constraint R))
        (x_size : nat) p a1 a2 :
  flag_set p UNILATERAL_TO_BILATERAL = true ->
  Aggregated_from_list l1 x_size p = Ok a1 ->
  Aggregated_from_list l2 x_size p = Ok a2 ->
  exists a12 a,
    Aggregated_from_pair (base a1) (base a2) x_size p = Ok a12 /\
    Aggregated_from_list (l1 ++ l2) x_size p = Ok a /\
    merged_members (base a12) = merged_members (base a) /\
    getXSize (base a12) = getXSize (base a) /\
    (l1 <> [] -> l2 <> [] -> base a12 = base a).
Proof.
  intros HU H1 H2.
  apply from_list_inv in H1 as [Hsz1 Hm1].
  apply from_list_inv in H2 as [Hsz2 Hm2].
  set (m1 := base a1) in *. set (m2 := base a2) in *.
  destruct (merge_all_summary p _ l1 m1 HU Hm1)
    as ([Hid1 Hx1] & [Hs1 _] & Hall1 & Hbox1 & _ & [Ae1 Be1] & Ai1 & Lo1 & Up1).
  destruct (merge_all_summary p _ l2 m2 HU Hm2)
    as ([Hid2 Hx2] & [Hs2 _] & Hall2 & Hbox2 & _ & [Ae2 Be2] & Ai2 & Lo2 & Up2).
  cbn [Constraint_ctor getXSize getConstraintID] in *.
  pose proof (merged_consistent p _ l1 m1 HU Hm1) as Hc1.
  pose proof (merged_consistent p _ l2 m2 HU Hm2) as Hc2.
  cbn [Constraint_ctor getXSize] in Hc1, Hc2.
  destruct (merged_contribution p _ l1 m1 HU Hm1) as (R1 & L1 & U1 & E1 & F1).
  destruct (merged_contribution p _ l2 m2 HU Hm2) as (R2 & L2 & U2 & E2 & F2).
  (* the aggregate of the two aggregates *)
  destruct (bilateral_ctor_runs p
              (Constraint_ctor (getConstraintID m1 +:+ "+" +:+ getConstraintID m2)
                               x_size) [m1; m2] HU)
    as (m12 & Hm12 & Hrun12).
  { intros b Hb. cbn [Constraint_ctor getXSize].
    apply elem_of_cons in Hb as [->|Hb]; [exact Hx1|].
    apply elem_of_cons in Hb as [->|Hb]; [exact Hx2|]. inversion Hb. }
  { intros b Hb. cbn [Constraint_ctor getXSize].
    apply elem_of_cons in Hb as [->|Hb]; [exact Hc1|].
    apply elem_of_cons in Hb as [->|Hb]; [exact Hc2|]. inversion Hb. }
  (* the aggregate of all children *)
  destruct (bilateral_ctor_runs p
              (Constraint_ctor (concatenateConstraintsIds (l1 ++ l2)) x_size)
              (l1 ++ l2) HU)
    as (m & Hm & Hrun).
  { intros b Hb. cbn [Constraint_ctor getXSize].
    apply elem_of_app in Hb as [Hb|Hb]; [apply Hsz1 | apply Hsz2]; exact Hb. }
  { intros b Hb. cbn [Constraint_ctor getXSize].
    apply elem_of_app in Hb as [Hb|Hb]; [apply Hall1 | apply Hall2]; exact Hb. }
  exists (mkAggregated m12 [m1; m2] p), (mkAggregated m (l1 ++ l2) p).
  split; [exact Hrun12|]. split; [exact Hrun|].
  cbn [base].
  destruct (merge_all_summary p _ _ m12 HU Hm12)
    as ([Hid12 Hx12] & _ & _ & Hbox12 & [Ce12 Ci12] & [Ae12 Be12]
        & Ai12 & Lo12 & Up12).
  destruct (merge_all_summary p _ _ m HU Hm)
    as ([Hid Hx] & _ & _ & Hbox & [Ce Ci] & [Ae Be] & Ai & Lo & Up).
  cbn [Constraint_ctor getXSize getConstraintID map concat] in *.
  rewrite ?app_nil_r in *.
  rewrite map_app, concat_app in Ae, Be, Ai, Lo, Up.
  rewrite E1, E2 in Ae12. rewrite F1, F2 in Be12.
  rewrite R1, R2 in Ai12. rewrite L1, L2 in Lo12. rewrite U1, U2 in Up12.
  assert (Hboxes : box_of m12 = box_of m).
  { rewrite Hbox12, Hbox. cbn [fold_left].
    rewrite box_op_nil_l, map_app, fold_left_app, <- Hbox1.
    rewrite (fold_box_op_fusion x_size (map box_of l2)).
    - rewrite <- Hbox2. reflexivity.
    - apply Forall_forall. intros B HB.
      apply list_elem_of_fmap in HB as (b & -> & Hb).
      apply consistent_valid_box. apply Hall2. exact Hb.
    - rewrite <- Hx1. apply shape_ok_valid_box. exact Hs1. }
  unfold box_of in Hboxes. injection Hboxes as Hup Hlo.
  assert (HAeq : getAeq m12 = getAeq m).
  { apply matrix_ext; congruence. }
  assert (HAineq : getAineq m12 = getAineq m).
  { apply matrix_ext; congruence. }
  assert (Hmem : merged_members m12 = merged_members m).
  { unfold merged_members. congruence. }
  split; [exact Hmem|]. split; [congruence|].
  intros Hne1 Hne2.
  assert (Hids : getConstraintID m12 = getConstraintID m).
  { rewrite Hid12, Hid, Hid1, Hid2. symmetry. apply ids_of_app; assumption. }
  assert (Hxs : getXSize m12 = getXSize m) by congruence.
  unfold merged_members in Hmem.
  destruct m12, m. cbn in *. congruence.
Qed.

End Nesting.

End MergeFacts.

(** * Further properties of the aggregated task *)
Section MoreTaskFacts.
Context {R : Type} `{Scalar R} {ConstraintPtr : Type}.
Import tasks.

Implicit Types (t : Task R ConstraintPtr) (a : Aggregated R ConstraintPtr).

Lemma row_times_length (w : list R) (B : Matrix R) :
  wf_matrix B = true -> length (row_times w B) = cols B.
Proof.
  intros Hwf. unfold row_times.
  assert (Hrows : forall wr, wr ∈ zip w (mrows B) -> length wr.2 = cols B).
  { intros [wk r] Hin. apply elem_of_zip_r in Hin. simpl.
    unfold wf_matrix in Hwf. rewrite forallb_forall in Hwf.
    apply Nat.eqb_eq, Hwf, list_elem_of_In, Hin. }
  assert (Hacc : length (vzero (R:=R) (cols B)) = cols B)
    by apply length_replicate.
  revert Hrows Hacc. generalize (vzero (R:=R) (cols B)) as v.
  induction (zip w (mrows B)) as [|[wk r] zl IH]; intros v Hrows Hv; simpl.
  - exact Hv.
  - apply IH.
    + intros wr Hwr. apply Hrows. right. exact Hwr.
    + unfold vadd, vscale. rewrite length_zip_with, length_map.
      pose proof (Hrows (wk, r) (list_elem_of_here _ _)) as Hr.
      simpl in Hr. lia.
Qed.

Lemma task_stack_dims a :
  (forall t, t ∈ _tasks a -> cols (getA t) = getXSize (base a)) ->
  cols (getA (base (generateAll a))) = getXSize (base a) /\
  rows (getA (base (generateAll a)))
  = sum_list (map (fun t => rows (getWeight t)) (_tasks a)) /\
  length (getb (base (generateAll a))) = rows (getA (base (generateAll a))).
Proof.
  intros Hcols.
  destruct (fold_merge_task_stack (_tasks a) (clear (base a)) Hcols)
    as (Hc & Hr & Hb & _).
  cbn [clear getA getb empty_matrix mrows cols app] in Hc, Hr, Hb.
  unfold generateAll, rows. cbn [base]. rewrite Hr, Hb.
  assert (Hsum : forall f g : Task R ConstraintPtr -> nat,
             (forall t, f t = g t) ->
             sum_list (map f (_tasks a)) = sum_list (map g (_tasks a))).
  { intros f g Hfg. f_equal. apply map_ext. exact Hfg. }
  split; [exact Hc|]. split.
  - rewrite length_concat. unfold fmap, list_fmap. rewrite map_map.
    apply Hsum. intros t. unfold mmul. simpl. apply length_map.
  - rewrite !length_concat. unfold fmap, list_fmap. rewrite !map_map.
    apply Hsum. intros t. unfold mvmul, mmul, mscale_r. simpl.
    rewrite !length_map. reflexivity.
Qed.

(** X9. For children whose [A] has [x_size] columns, the merged [A] has
    as many rows as the children's weight matrices together, the merged
    [b] has as many entries as the merged [A] has rows, and, when the
    children's [A] are rectangular, every merged row has [x_size]
    entries. *)
Theorem merged_task_dimensions a :
  (forall t, t ∈ _tasks a -> cols (getA t) = getXSize (base a)) ->
  rows (getA (base (generateAll a)))
  = sum_list (map (fun t => rows (getWeight t)) (_tasks a)) /\
  length (getb (base (generateAll a))) = rows (getA (base (generateAll a))) /\
  ((forall t, t ∈ _tasks a -> wf_matrix (getA t) = true) ->
   forall r, r ∈ mrows (getA (base (generateAll a))) ->
             length r = getXSize (base a)).
Proof.
  intros Hcols.
  destruct (task_stack_dims a Hcols) as (_ & Hrows & Hlen).
  split; [exact Hrows|]. split; [exact Hlen|].
  destruct (fold_merge_task_stack (_tasks a) (clear (base a)) Hcols)
    as (_ & Hr & _ & _).
  cbn [clear getA empty_matrix mrows app] in Hr.
  unfold generateAll. cbn [base]. rewrite Hr.
  intros Hwf r Hr'.
  apply list_elem_of_In, in_concat in Hr' as (rs & Hrs & Hin).
  apply in_map_iff in Hrs as (t & <- & Ht). apply list_elem_of_In in Ht.
  unfold mmul in Hin. simpl in Hin.
  apply in_map_iff in Hin as (w & <- & _).
  rewrite row_times_length by (apply Hwf, Ht). apply Hcols, Ht.
Qed.

(** X10. The constructor of the aggregated task returns exactly when every
    child reports the aggregate's [x_size]; the aggregate it returns has
    [x_size] columns in [A], as many entries in [b] as rows in [A], and the
    identity of that size as weight. *)
Theorem task_constructor_postcondition (ts : list (Task R ConstraintPtr))
        (x_size : nat) :
  (forall t, t ∈ ts -> cols (getA t) = getXSize t) ->
  ((exists a, Aggregated_from_list ts x_size = Ok a) <->
   (forall t, t ∈ ts -> getXSize t = x_size)) /\
  (forall a, Aggregated_from_list ts x_size = Ok a ->
             _tasks a = ts /\
             cols (getA (base a)) = x_size /\
             length (getb (base a)) = rows (getA (base a)) /\
             getWeight (base a)
             = identity (rows (getA (base a))) (rows (getA (base a)))).
Proof.
  intros Hcols.
  assert (Hpost : forall a, Aggregated_from_list ts x_size = Ok a ->
                            (forall t, t ∈ ts -> getXSize t = x_size) /\
                            a = init_weight
                                  (generateAll
                                     (mkAggregated (Task_ctor "aggregated" x_size) ts))).
  { intros a Ha. unfold Aggregated_from_list in Ha.
    apply bind_Ok_inv in Ha as ([] & Hchk & Ha). injection Ha as <-.
    split; [|reflexivity]. intros t Ht.
    destruct (Nat.eq_dec (getXSize t) x_size) as [E|E]; [exact E|].
    unfold checkSizes in Hchk. simpl in Hchk.
    rewrite (size_loop_fails _ _ _ _ t Ht E) in Hchk. discriminate. }
  split.
  - split.
    + intros (a & Ha). apply (Hpost a Ha).
    + intros Hsz. unfold Aggregated_from_list, checkSizes. simpl.
      rewrite size_loop_passes by exact Hsz. simpl. eauto.
  - intros a Ha. destruct (Hpost a Ha) as [Hsz ->].
    set (a0 := mkAggregated (Task_ctor "aggregated" x_size) ts).
    assert (Hc0 : forall t, t ∈ _tasks a0 -> cols (getA t) = getXSize (base a0)).
    { intros t Ht. simpl in *. rewrite (Hcols t Ht). apply Hsz, Ht. }
    destruct (task_stack_dims a0 Hc0) as (Hc & _ & Hl).
    simpl. repeat split; assumption.
Qed.

End MoreTaskFacts.

(** * Further properties of OptvarHelper *)
Section MoreOptvarFacts.
Import OptvarHelper.

Lemma ctor_loop_names (l : list (string * Z)) :
  forall h0 h,
    foldM register h0 l = Ok h ->
    map size (_vars h) = map size (_vars h0) ++ l.*2 /\
    forall name, is_Some (_vars_map h !! name) <->
                 is_Some (_vars_map h0 !! name) \/ name ∈ l.*1.
Proof.
  induction l as [|pair l IH]; intros h0 h Hf; simpl in Hf.
  - injection Hf as <-. simpl. rewrite app_nil_r. split; [reflexivity|].
    intros name. split; [auto|]. intros [Hs|Hin]; [exact Hs|inversion Hin].
  - apply bind_Ok_inv in Hf as (h1 & Hr & Hf).
    apply register_inv in Hr as [Hnone ->].
    destruct (IH _ _ Hf) as [Hv Hn]. simpl in Hv, Hn. split.
    + rewrite Hv, map_app. simpl. rewrite <- app_assoc. reflexivity.
    + intros name. rewrite Hn. simpl.
      destruct (decide (pair.1 = name)) as [<-|Hne].
      * rewrite lookup_insert_eq. split; [intros _; right; left|eauto].
      * rewrite lookup_insert_ne by exact Hne. split.
        -- intros [Hs|Hin]; [left; exact Hs|right; right; exact Hin].
        -- intros [Hs|Hin]; [left; exact Hs|].
           apply elem_of_cons in Hin as [Heq|Hin]; [congruence|right; exact Hin].
Qed.

Lemma ctor_loop_vars (l : list (string * Z)) :
  forall h0 h,
    foldM register h0 l = Ok h ->
    (forall p, p ∈ l -> (0 <= p.2)%Z) ->
    (0 <= _size h0)%Z -> (_size h0 + total_size l <= INT_MAX)%Z ->
    _vars h = _vars h0 ++ layout_from (_size h0) l.
Proof.
  induction l as [|pair l IH]; intros h0 h Hf Hpos Hh Hmax; simpl in Hf.
  - injection Hf as <-. simpl. rewrite app_nil_r. reflexivity.
  - apply bind_Ok_inv in Hf as (h1 & Hr & Hf).
    apply register_inv in Hr as [_ ->].
    assert (Hp : (0 <= pair.2)%Z) by (apply Hpos; left).
    assert (Hl : forall p, p ∈ l -> (0 <= p.2)%Z)
      by (intros q Hq; apply Hpos; right; exact Hq).
    pose proof (total_size_nonneg l Hl) as Htl. simpl in Hmax.
    assert (Hw : int_wrap (_size h0 + pair.2) = (_size h0 + pair.2)%Z).
    { apply int_wrap_small. unfold INT_MAX in *. lia. }
    rewrite (IH _ _ Hf Hl); simpl; rewrite ?Hw; try lia.
    rewrite <- app_assoc. reflexivity.
Qed.

(** X11. A constructed layout records one segment per pair, with the
    sizes as given and in the given order, and knows exactly the given
    names; when the sizes are non-negative and their sum is an [int],
    [getSize()] is that sum and the recorded segments lie back to back
    from offset zero. *)
Theorem layout_bookkeeping (pairs : list (string * Z)) h :
  ctor pairs = Ok h ->
  map size (_vars h) = pairs.*2 /\
  (forall name, is_Some (_vars_map h !! name) <-> name ∈ pairs.*1) /\
  ((forall p, p ∈ pairs -> (0 <= p.2)%Z) ->
   (total_size pairs <= INT_MAX)%Z ->
   getSize h = total_size pairs /\ _vars h = layout_from 0 pairs).
Proof.
  intros Hc. unfold ctor in Hc.
  destruct (ctor_loop_names _ _ _ Hc) as [Hv Hn]. simpl in Hv, Hn.
  split; [exact Hv|]. split.
  - intros name. rewrite Hn, lookup_empty. split.
    + intros [[x Hx]|Hin]; [discriminate|exact Hin].
    + intros Hin. right. exact Hin.
  - intros Hpos Hmax. split.
    + destruct (ctor_loop_layout _ _ _ Hc Hpos) as [Hsz _]; simpl; try lia.
      exact Hsz.
    + rewrite (ctor_loop_vars _ _ _ Hc Hpos); simpl; try lia. reflexivity.
Qed.

(** X12. Two names registered one after the other (not necessarily
    adjacent) get segments that do not overlap: the earlier one ends at or
    before the offset of the later one, which ends within the total
    size. *)
Theorem segments_do_not_overlap (l1 l2 l3 : list (string * Z))
        (n1 n2 : string) (s1 s2 : Z) h :
  let pairs := l1 ++ (n1, s1) :: l2 ++ (n2, s2) :: l3 in
  ctor pairs = Ok h ->
  (forall p, p ∈ pairs -> (0 <= p.2)%Z) ->
  (total_size pairs <= INT_MAX)%Z ->
  exists o1 o2 : Z,
    _vars_map h !! n1 = Some (mkVarInfo s1 o1) /\
    _vars_map h !! n2 = Some (mkVarInfo s2 o2) /\
    (0 <= o1)%Z /\ (o1 + s1 <= o2)%Z /\ (o2 + s2 <= getSize h)%Z.
Proof.
  intros pairs Hc Hpos Hmax.
  destruct (ctor_loop_layout _ _ _ Hc Hpos) as [Hsz Hlk]; simpl; try lia.
  simpl in Hsz, Hlk.
  pose proof (Hlk l1 n1 s1 (l2 ++ (n2, s2) :: l3) eq_refl) as H1.
  pose proof (Hlk (l1 ++ (n1, s1) :: l2) n2 s2 l3) as H2.
  rewrite <- app_assoc in H2. specialize (H2 eq_refl).
  exists (total_size l1), (total_size (l1 ++ (n1, s1) :: l2)).
  rewrite Z.add_0_l in H1, H2, Hsz.
  split; [exact H1|]. split; [exact H2|].
  assert (Hnn : forall l, (forall p, p ∈ l -> p ∈ pairs) -> (0 <= total_size l)%Z).
  { intros l Hsub. apply total_size_nonneg. intros p Hp. apply Hpos, Hsub, Hp. }
  assert (N1 : (0 <= total_size l1)%Z).
  { apply Hnn. intros p Hp. apply elem_of_app. left. exact Hp. }
  assert (N2 : (0 <= total_size l2)%Z).
  { apply Hnn. intros p Hp. apply elem_of_app. right. right.
    apply elem_of_app. left. exact Hp. }
  assert (N3 : (0 <= total_size l3)%Z).
  { apply Hnn. intros p Hp. apply elem_of_app. right. right.
    apply elem_of_app. right. right. exact Hp. }
  unfold getSize. rewrite Hsz. unfold pairs.
  rewrite !total_size_app. simpl. rewrite !total_size_app. simpl. lia.
Qed.

(** *** The selection operator applied to a vector *)
Section Selection.
Context {R : Type} `{Scalar R} `{!ScalarRing R}.

Lemma assign_block_row_lengths (M M' : Matrix R) (i0 j0 br bc : Z) (B : Matrix R) :
  assign_block M i0 j0 br bc B = Ok M' ->
  cols M' = cols M /\ map length (mrows M') = map length (mrows M).
Proof.
  unfold assign_block. intros Ha.
  destruct (_ && _) in Ha; [|discriminate]. injection Ha as <-. simpl.
  split; [reflexivity|].
  apply list_eq. intros i.
  rewrite !list_lookup_fmap, list_lookup_imap.
  destruct (mrows M !! i) as [r|]; simpl; [|reflexivity].
  rewrite length_imap. reflexivity.
Qed.

Lemma rows_from_entries (M : Matrix R) (n m : nat) (f : nat -> nat -> R) :
  rows M = n ->
  (forall r, r ∈ mrows M -> length r = m) ->
  (forall i j, i < n -> j < m -> entry M i j = Some (f i j)) ->
  mrows M = map (fun i => map (f i) (seq 0 m)) (seq 0 n).
Proof.
  unfold rows, entry. intros Hn Hlen Hent. apply list_eq. intros i.
  destruct (Nat.lt_ge_cases i n) as [Hi|Hi].
  - destruct (lookup_lt_is_Some_2 (mrows M) i) as [r Hr]; [lia|].
    rewrite Hr, list_lookup_fmap, lookup_seq_lt by lia. simpl. f_equal.
    apply list_eq. intros j.
    destruct (Nat.lt_ge_cases j m) as [Hj|Hj].
    + specialize (Hent i j Hi Hj). rewrite Hr in Hent.
      rewrite Hent, list_lookup_fmap, lookup_seq_lt by lia. reflexivity.
    + rewrite !lookup_ge_None_2; [reflexivity| |].
      * rewrite length_map, length_seq. lia.
      * rewrite (Hlen r) by (eapply list_elem_of_lookup_2; exact Hr). lia.
  - rewrite !lookup_ge_None_2; [reflexivity| |].
    + rewrite length_map, length_seq. lia.
    + lia.
Qed.

Lemma take_drop_lookups (x : list R) (off sz : nat) :
  off + sz <= length x ->
  map (fun i => x !!! (off + i)) (seq 0 sz) = take sz (drop off x).
Proof.
  intros Hfit. apply list_eq. intros i.
  destruct (Nat.lt_ge_cases i sz) as [Hi|Hi].
  - rewrite list_lookup_fmap, lookup_seq_lt, lookup_take_lt, lookup_drop by lia.
    simpl. symmetry. apply list_lookup_lookup_total_lt. lia.
  - rewrite !lookup_ge_None_2; [reflexivity| |].
    + rewrite length_take, length_drop. lia.
    + rewrite length_map, length_seq. lia.
Qed.

Lemma vadd_vzero_r (v : list R) : vadd v (vzero (length v)) = v.
Proof.
  unfold vadd, vzero. induction v as [|y v IH]; simpl; [reflexivity|].
  rewrite s_add_0_r, IH. reflexivity.
Qed.

(** X13. For a registered name, sizes being non-negative and their sum an
    [int], the pair [(M, q)] returned by [getVar] selects the segment:
    [M x + q] is the run of the segment's size found at the segment's
    offset in any vector [x] of the total size. *)
Theorem getVar_selects_segment (before after : list (string * Z))
        (name : string) (sz : Z) h :
  let pairs := before ++ (name, sz) :: after in
  ctor pairs = Ok h ->
  (forall p, p ∈ pairs -> (0 <= p.2)%Z) ->
  (total_size pairs <= INT_MAX)%Z ->
  exists af,
    getVar h name = Ok af /\
    forall x : list R,
      length x = Z.to_nat (total_size pairs) ->
      vadd (mvmul (getM af) x) (getq af)
      = take (Z.to_nat sz) (drop (Z.to_nat (total_size before)) x).
Proof.
  intros pairs Hc Hpos Hmax.
  destruct (ctor_loop_layout _ _ _ Hc Hpos) as [Hsz Hlk]; simpl; try lia.
  simpl in Hsz, Hlk. specialize (Hlk before name sz after eq_refl).
  rewrite Z.add_0_l in Hlk, Hsz.
  assert (Hb : (0 <= total_size before)%Z).
  { apply total_size_nonneg. intros p Hp. apply Hpos.
    apply elem_of_app. left. exact Hp. }
  assert (Ha : (0 <= total_size after)%Z).
  { apply total_size_nonneg. intros p Hp. apply Hpos.
    apply elem_of_app. right. right. exact Hp. }
  assert (Hs : (0 <= sz)%Z).
  { apply (Hpos (name, sz)). apply elem_of_app. right. left. }
  assert (Ht : total_size pairs = (total_size before + (sz + total_size after))%Z).
  { unfold pairs. rewrite total_size_app. reflexivity. }
  destruct (getVar_registered (R:=R) h name sz (total_size before) Hlk Hs Hb)
    as (M & HM & Hrows & Hcols & Hent); [lia|].
  exists (mkAffineHelper M (vzero (Z.to_nat sz))). split; [exact HM|].
  intros x Hx. cbn [getM getq].
  assert (Hlen : forall r, r ∈ mrows M -> length r = Z.to_nat (_size h)).
  { unfold getVar in HM. rewrite Hlk in HM. simpl in HM.
    destruct ((sz <? 0)%Z || (_size h <? 0)%Z); [discriminate|].
    apply bind_Ok_inv in HM as (M' & HA & HM). injection HM as <-.
    apply assign_block_row_lengths in HA as [_ HA].
    intros r Hr. apply list_elem_of_lookup in Hr as [i Hi].
    assert (Hl : map length (mrows M') !! i = Some (length r))
      by (rewrite list_lookup_fmap, Hi; reflexivity).
    rewrite HA in Hl. unfold zero_matrix in Hl. simpl in Hl.
    rewrite list_lookup_fmap in Hl.
    destruct (replicate (Z.to_nat sz) (vzero (Z.to_nat (_size h))) !! i)
      as [z|] eqn:Hz; [|discriminate].
    apply lookup_replicate in Hz as [-> _]. simpl in Hl.
    injection Hl as <-. unfold vzero. apply length_replicate. }
  unfold mvmul. rewrite (rows_from_entries M _ _ _ Hrows Hlen Hent), map_map.
  assert (Hdot : forall i, i < Z.to_nat sz ->
    dot (map (fun j => if j =? Z.to_nat (total_size before) + i
                       then s_one else s_zero) (seq 0 (Z.to_nat (_size h)))) x
    = x !!! (Z.to_nat (total_size before) + i)).
  { intros i Hi. unfold dot.
    replace (Z.to_nat (_size h)) with (length x) by lia.
    rewrite fold_dot_weighted.
    replace (0 <=? Z.to_nat (total_size before) + i) with true by reflexivity.
    replace (Z.to_nat (total_size before) + i <? 0 + length x) with true
      by (symmetry; apply Nat.ltb_lt; lia).
    simpl. rewrite Nat.sub_0_r, s_mul_1_l, s_add_0_l. reflexivity. }
  rewrite (map_ext_in _ (fun i => x !!! (Z.to_nat (total_size before) + i))).
  2:{ intros i Hi. apply in_seq in Hi. apply Hdot. lia. }
  rewrite take_drop_lookups by lia.
  assert (Hl : length (take (Z.to_nat sz) (drop (Z.to_nat (total_size before)) x))
               = Z.to_nat sz).
  { rewrite length_take, length_drop. lia. }
  rewrite <- Hl at 2. apply vadd_vzero_r.
Qed.

End Selection.

End MoreOptvarFacts.

(** * Properties of the Cartesian impedance task *)
Section TorqueSetters.
Context {R : Type} `{Scalar R} {ConstraintPtr : Type}.
Import torque.

(** X14. [setStiffness] and [setDamping] take a matrix only when it is
    6 by 6 and otherwise leave the task as it was; [setStiffnessDamping]
    applies the two tests separately, so that one malformed matrix does
    not keep the other from being stored. *)
Theorem stiffness_damping_setters
        (s : CartesianImpedanceCtrl R ConstraintPtr) (K D : Matrix R) :
  (rows K = 6 /\ cols K = 6 ->
   getStiffness (setStiffness K s) = K /\
   getDamping (setStiffness K s) = getDamping s) /\
  (~ (rows K = 6 /\ cols K = 6) -> setStiffness K s = s) /\
  (rows D = 6 /\ cols D = 6 ->
   getDamping (setDamping D s) = D /\
   getStiffness (setDamping D s) = getStiffness s) /\
  (~ (rows D = 6 /\ cols D = 6) -> setDamping D s = s) /\
  getStiffnessDamping (setStiffnessDamping K D s)
  = (if (cols K =? 6) && (rows K =? 6) then K else getStiffness s,
     if (cols D =? 6) && (rows D =? 6) then D else getDamping s) /\
  task (setStiffnessDamping K D s) = task s /\
  getReference (setStiffnessDamping K D s) = getReference s.
Proof.
  unfold setStiffnessDamping, setStiffness, setDamping, getStiffnessDamping,
    getStiffness, getDamping, getReference.
  repeat apply conj.
  - intros [Hr Hc]. rewrite (proj2 (Nat.eqb_eq _ _) Hr), (proj2 (Nat.eqb_eq _ _) Hc).
    split; reflexivity.
  - intros Hn. destruct (Nat.eqb_spec (cols K) 6), (Nat.eqb_spec (rows K) 6);
      simpl; try reflexivity. tauto.
  - intros [Hr Hc]. rewrite (proj2 (Nat.eqb_eq _ _) Hr), (proj2 (Nat.eqb_eq _ _) Hc).
    split; reflexivity.
  - intros Hn. destruct (Nat.eqb_spec (cols D) 6), (Nat.eqb_spec (rows D) 6);
      simpl; try reflexivity. tauto.
  - destruct ((cols K =? 6) && (rows K =? 6)), ((cols D =? 6) && (rows D =? 6));
      reflexivity.
  - destruct ((cols K =? 6) && (rows K =? 6)), ((cols D =? 6) && (rows D =? 6));
      reflexivity.
  - destruct ((cols K =? 6) && (rows K =? 6)), ((cols D =? 6) && (rows D =? 6));
      reflexivity.
Qed.

End TorqueSetters.

Section TorqueFacts.
Context {R : Type} `{Scalar R} {ConstraintPtr : Type}.
Context (WORLD_FRAME_NAME : string) (hundred : R)
        (inverse : Matrix R -> Matrix R)
        (computeCartesianError : Matrix R -> Matrix R -> Vector R * Vector R).
Import torque.

Abbreviation Ctrl := (CartesianImpedanceCtrl R ConstraintPtr).
Abbreviation update_b' := (update_b computeCartesianError).
Abbreviation _update' := (_update inverse computeCartesianError).

(** [update_b] writes the four error vectors and [_b], nothing else. *)
Lemma update_b_inv (robot : ModelInterface R) (s s' : Ctrl) :
  update_b' robot s = Ok s' ->
  exists lin ang b,
    s' = set_b
           (set_orientationVelocityError
              (set_linearVelocityError
                 (set_orientationError
                    (set_positionError s
                       (computeCartesianError (_actualPose s) (_desiredPose s)).1)
                    (computeCartesianError (_actualPose s) (_desiredPose s)).2)
                 lin)
              ang)
           b.
Proof.
  unfold update_b. intros Hu. monad_inv. subst s'. eauto.
Qed.

(** X15. [setReference(desiredPose)] stops at the assertion of line 144
    or 145 unless the pose is 4 by 4, and the overload with a twist stops
    first at line 155 unless the twist has six entries. When they return,
    [getReference] gives back what was set (the desired twist being zero
    for the first overload), the position and orientation errors are
    those of the actual pose against the new reference, and stiffness,
    damping, Jacobian, [A], weight and actual pose are untouched. *)
Theorem setReference_spec (robot : ModelInterface R) (s : Ctrl)
        (pose : Matrix R) (twist : Vector R) :
  (rows pose <> 4 ->
   setReference computeCartesianError robot pose s = Err (AssertionFailed 144)) /\
  (rows pose = 4 -> cols pose <> 4 ->
   setReference computeCartesianError robot pose s = Err (AssertionFailed 145)) /\
  (length twist <> 6 ->
   setReference_twist computeCartesianError robot pose twist s
   = Err (AssertionFailed 155)) /\
  (length twist = 6 -> rows pose <> 4 ->
   setReference_twist computeCartesianError robot pose twist s
   = Err (AssertionFailed 156)) /\
  (length twist = 6 -> rows pose = 4 -> cols pose <> 4 ->
   setReference_twist computeCartesianError robot pose twist s
   = Err (AssertionFailed 157)) /\
  (forall s' : Ctrl,
      (setReference computeCartesianError robot pose s = Ok s' /\
       twist = vzero (length (_desiredTwist s))) \/
      setReference_twist computeCartesianError robot pose twist s = Ok s' ->
      getReference_twist s' = (pose, twist) /\
      (positionError s', orientationError s')
      = computeCartesianError (_actualPose s) pose /\
      getStiffness s' = getStiffness s /\ getDamping s' = getDamping s /\
      _J s' = _J s /\ getActualPose s' = getActualPose s /\
      tasks.getA (task s') = tasks.getA (task s) /\
      tasks.getWeight (task s') = tasks.getWeight (task s)).
Proof.
  unfold setReference, setReference_twist.
  repeat apply conj.
  - intros Hr. apply Nat.eqb_neq in Hr. rewrite Hr. reflexivity.
  - intros Hr Hc. apply Nat.eqb_eq in Hr. apply Nat.eqb_neq in Hc.
    rewrite Hr, Hc. reflexivity.
  - intros Ht. apply Nat.eqb_neq in Ht. rewrite Ht. reflexivity.
  - intros Ht Hr. apply Nat.eqb_eq in Ht. apply Nat.eqb_neq in Hr.
    rewrite Ht, Hr. reflexivity.
  - intros Ht Hr Hc. apply Nat.eqb_eq in Ht, Hr. apply Nat.eqb_neq in Hc.
    rewrite Ht, Hr, Hc. reflexivity.
  - intros s' [[Hs ->]|Hs]; monad_inv;
      apply update_b_inv in Hs as (lin & ang & b & ->);
      destruct (computeCartesianError (_actualPose s) pose) eqn:E;
      simpl; rewrite ?E; repeat split; reflexivity.
Qed.

Lemma _update_inv (robot : ModelInterface R) (x : Vector R) (s s' : Ctrl) :
  _update' robot x s = Ok s' ->
  Some (_J s')
  = (if _base_link_is_world s
     then getJacobian robot (_distal_link s)
     else getRelativeJacobian robot (_distal_link s) (_base_link s)) /\
  (_use_inertia_matrix s = false ->
   tasks.getA (task s') = _J s' /\ _M s' = _M s) /\
  (_use_inertia_matrix s = true ->
   _M s' = getInertiaMatrix robot /\
   checked_mmul (_J s') (inverse (_M s')) = Ok (tasks.getA (task s'))) /\
  getActualPose s'
  = (if _base_link_is_world s
     then getPose robot (_distal_link s)
     else getRelativePose robot (_base_link s) (_distal_link s)) /\
  getReference s'
  = (if rows (_desiredPose s) =? 0 then getActualPose s' else getReference s) /\
  _desiredTwist s' = vzero (length (_desiredTwist s)) /\
  (getStiffness s' = getStiffness s /\ getDamping s' = getDamping s) /\
  (tasks.getWeight (task s') = tasks.getWeight (task s) /\
   tasks.getLambda (task s') = tasks.getLambda (task s) /\
   tasks.getHessianAtype (task s') = tasks.getHessianAtype (task s) /\
   tasks.getXSize (task s') = tasks.getXSize (task s) /\
   tasks.getTaskID (task s') = tasks.getTaskID (task s)) /\
  (_distal_link s' = _distal_link s /\ _base_link s' = _base_link s /\
   _base_link_is_world s' = _base_link_is_world s /\
   _use_inertia_matrix s' = _use_inertia_matrix s /\
   _base_link_index s' = _base_link_index s /\
   _distal_link_index s' = _distal_link_index s).
Proof.
  unfold _update, getActualPose, getReference, getStiffness, getDamping.
  intros Hu.
  apply bind_Ok_inv in Hu as (s1 & H1 & Hu).
  apply bind_Ok_inv in Hu as (s2 & H2 & Hu).
  apply bind_Ok_inv in Hu as (s3 & H3 & Hu).
  injection Hu as <-.
  apply update_b_inv in H3 as (lin & ang & b & ->).
  destruct (_base_link_is_world s) eqn:Ew;
    [destruct (getJacobian robot (_distal_link s)) as [J|] eqn:EJ
    |destruct (getRelativeJacobian robot (_distal_link s) (_base_link s))
       as [J|] eqn:EJ];
    try discriminate; injection H1 as <-;
    cbn in H2; destruct (_use_inertia_matrix s) eqn:Ei;
    monad_inv; subst s2; cbn; rewrite ?Ew;
    destruct (rows (_desiredPose s) =? 0); cbn; rewrite ?Ew;
    repeat split; try reflexivity; try discriminate; try assumption.
Qed.

(** X16. [_update] stops at the assertion of line 77 or 80 when the robot
    model has no Jacobian for the link. When it returns, [_J] is that
    Jacobian, [A] is [_J] itself or, with the inertia matrix in use,
    [_J] times its inverse; the reference is latched: a task without
    reference takes the actual pose as reference, and a task that has one
    keeps it; the desired twist is reset to zero; stiffness, damping,
    weight and [lambda] are untouched. *)
Theorem update_spec (robot : ModelInterface R) (x : Vector R) (s : Ctrl) :
  (_base_link_is_world s = true ->
   getJacobian robot (_distal_link s) = None ->
   _update' robot x s = Err (AssertionFailed 77)) /\
  (_base_link_is_world s = false ->
   getRelativeJacobian robot (_distal_link s) (_base_link s) = None ->
   _update' robot x s = Err (AssertionFailed 80)) /\
  (forall s' : Ctrl,
      _update' robot x s = Ok s' ->
      Some (_J s')
      = (if _base_link_is_world s
         then getJacobian robot (_distal_link s)
         else getRelativeJacobian robot (_distal_link s) (_base_link s)) /\
      (_use_inertia_matrix s = false -> tasks.getA (task s') = _J s') /\
      (_use_inertia_matrix s = true ->
       checked_mmul (_J s') (inverse (getInertiaMatrix robot))
       = Ok (tasks.getA (task s'))) /\
      getReference s'
      = (if rows (getReference s) =? 0 then getActualPose s'
         else getReference s) /\
      _desiredTwist s' = vzero (length (_desiredTwist s)) /\
      getStiffness s' = getStiffness s /\ getDamping s' = getDamping s /\
      tasks.getWeight (task s') = tasks.getWeight (task s) /\
      tasks.getLambda (task s') = tasks.getLambda (task s)).
Proof.
  repeat apply conj.
  - intros Hw HJ. unfold _update. rewrite Hw, HJ. reflexivity.
  - intros Hw HJ. unfold _update. rewrite Hw, HJ. reflexivity.
  - intros s' Hu.
    apply _update_inv in Hu
      as (HJ & Hno & Hyes & _ & Href & Htw & [HK HD] & (HW & HL & _) & _).
    repeat split; try assumption.
    + intros Hi. apply (Hno Hi).
    + intros Hi. destruct (Hyes Hi) as [HM HA]. rewrite <- HM. exact HA.
Qed.

(** X17. The constructor stops at the assertion of line 42 when the base
    link is not the world frame and unknown to the robot model, at line 46
    when the distal link is unknown, and at line 49 when both are the
    same link. A constructed task has stiffness [100 I] and damping
    [1 I] (6 by 6), a zero desired twist of six entries, its reference
    equal to the actual pose, the identity of the row count of [A] as
    weight, [lambda = 1], the semi-definite tag and the [x_size] of the
    state vector. *)
Theorem constructor_spec (task_id : string) (x : Vector R)
        (robot : ModelInterface R) (distal_link base_link : string) :
  let ctor := CartesianImpedanceCtrl_ctor
                (ConstraintPtr:=ConstraintPtr) WORLD_FRAME_NAME hundred inverse
                computeCartesianError task_id x robot distal_link base_link in
  (base_link <> WORLD_FRAME_NAME -> (getLinkID robot base_link < 0)%Z ->
   ctor = Err (AssertionFailed 42)) /\
  (base_link = WORLD_FRAME_NAME \/ (0 <= getLinkID robot base_link)%Z ->
   (getLinkID robot distal_link < 0)%Z ->
   ctor = Err (AssertionFailed 46)) /\
  (base_link <> WORLD_FRAME_NAME ->
   (0 <= getLinkID robot base_link)%Z ->
   getLinkID robot distal_link = getLinkID robot base_link ->
   ctor = Err (AssertionFailed 49)) /\
  (forall s : Ctrl,
      ctor = Ok s ->
      getStiffness s = mscale hundred (identity 6 6) /\
      getDamping s = mscale s_one (identity 6 6) /\
      _desiredTwist s = vzero 6 /\
      getReference s = getActualPose s /\
      tasks.getWeight (task s)
      = identity (rows (tasks.getA (task s))) (rows (tasks.getA (task s))) /\
      tasks.getLambda (task s) = s_one /\
      tasks.getHessianAtype (task s) = tasks.HST_SEMIDEF /\
      tasks.getXSize (task s) = length x /\
      baseLinkIsWorld s = String.eqb base_link WORLD_FRAME_NAME /\
      (baseLinkIsWorld s = false ->
       getLinkID robot distal_link <> getLinkID robot base_link)).
Proof.
  intros ctor. unfold ctor, CartesianImpedanceCtrl_ctor. cbn.
  repeat apply conj.
  - intros Hb Hid. apply String.eqb_neq in Hb. rewrite Hb. cbn.
    assert (Hn : (0 <=? getLinkID robot base_link)%Z = false)
      by (apply Z.leb_gt; exact Hid).
    rewrite Hn. reflexivity.
  - intros Hb Hid.
    assert (Hd : (0 <=? getLinkID robot distal_link)%Z = false)
      by (apply Z.leb_gt; exact Hid).
    destruct (String.eqb base_link WORLD_FRAME_NAME) eqn:Ew; cbn;
      rewrite ?Hd; [reflexivity|].
    destruct Hb as [Hb|Hb]; [apply String.eqb_eq in Hb; congruence|].
    assert (Hbb : (0 <=? getLinkID robot base_link)%Z = true)
      by (apply Z.leb_le; exact Hb).
    rewrite Hbb. cbn. rewrite Hd. reflexivity.
  - intros Hb Hid Heq. apply String.eqb_neq in Hb. rewrite Hb. cbn.
    assert (Hbb : (0 <=? getLinkID robot base_link)%Z = true)
      by (apply Z.leb_le; exact Hid).
    rewrite Hbb. cbn. rewrite Heq, Hbb. cbn.
    rewrite bool_decide_eq_true_2 by reflexivity. reflexivity.
  - intros s Hs.
    destruct (String.eqb base_link WORLD_FRAME_NAME) eqn:Ew; cbn in Hs.
    + monad_inv; subst s;
      match goal with
      | Hu : _update _ _ _ _ _ = Ok _ |- _ =>
          apply _update_inv in Hu
            as (_ & _ & _ & _ & Href & Htw & [HK HD] & (_ & _ & _ & Hx & _)
                & (_ & _ & Hw & _))
      end;
      cbn in *; unfold getStiffness, getDamping, getReference, getActualPose,
        baseLinkIsWorld in *; cbn;
      repeat split; try assumption; try reflexivity; try congruence.
    + monad_inv; subst; cbn in *; try discriminate.
      match goal with
      | Hu : _update _ _ _ _ _ = Ok _ |- _ =>
          apply _update_inv in Hu
            as (_ & _ & _ & _ & Href & Htw & [HK HD] & (_ & _ & _ & Hx & _)
                & (_ & _ & Hw & _))
      end.
      cbn in *. unfold getStiffness, getDamping, getReference, getActualPose,
        baseLinkIsWorld in *. cbn.
      repeat split; try assumption; try reflexivity; try congruence.
      intros _ Heq.
      match goal with
      | Hd : negb (bool_decide _) = true |- _ =>
          apply negb_true_iff, bool_decide_eq_false in Hd; apply Hd
      end.
      rewrite Heq. reflexivity.
Qed.

End TorqueFacts.

(** * The further statements at concrete inputs *)
Section MoreConcrete.
Import constraints examples more_examples.

Lemma equalities_stacked_witness :
  exists a',
    generateAll (aggregate [equality; box1; equality2] 0) = Ok a' /\
    mrows (getAeq (base a')) = [[1; 2]; [3; 0]]%Z /\
    getbeq (base a') = [7; 4]%Z.
Proof.
  destruct (generateAll (aggregate [equality; box1; equality2] 0))
    as [a'|e] eqn:Hg; [|vm_compute in Hg; discriminate].
  exists a'. split; [reflexivity|].
  destruct (equalities_stacked (aggregate [equality; box1; equality2] 0)
              a' eq_refl Hg) as (_ & Hr & Hb).
  rewrite Hr, Hb. split; reflexivity.
Defined.

Lemma bilateral_inequalities_witness :
  exists a',
    generateAll (aggregate sided UNILATERAL_TO_BILATERAL) = Ok a' /\
    mrows (getAineq (base a')) = [[1; 2]; [1; 2]; [1; 2]]%Z /\
    getbLowerBound (base a') = [- (2 ^ 1024 - 2 ^ 971); 5; 3]%Z /\
    getbUpperBound (base a') = [5; 2 ^ 1024; 5]%Z.
Proof.
  destruct (generateAll (aggregate sided UNILATERAL_TO_BILATERAL))
    as [a'|e] eqn:Hg; [|vm_compute in Hg; discriminate].
  exists a'. split; [reflexivity|].
  destruct (bilateral_inequalities (aggregate sided UNILATERAL_TO_BILATERAL)
              a' eq_refl Hg) as (_ & Hr & Hl & Hu).
  rewrite Hr, Hl, Hu. repeat split; vm_compute; reflexivity.
Defined.

Lemma empty_child_ignored_witness :
  exposes_nothing nothing = true /\
  exists r1 r2,
    generateAll (mkAggregated (Constraint_ctor "boxes" 2)
                              ([box1] ++ nothing :: [box2]) 0) = Ok r1 /\
    generateAll (mkAggregated (Constraint_ctor "boxes" 2)
                              ([box1] ++ [box2]) 0) = Ok r2 /\
    base r1 = base r2.
Proof.
  split; [reflexivity|].
  pose proof (empty_child_ignored (Constraint_ctor "boxes" 2)
                                  [box1] [box2] nothing 0 eq_refl) as Hw.
  destruct (generateAll (mkAggregated (Constraint_ctor "boxes" 2)
                                      ([box1] ++ nothing :: [box2]) 0))
    as [r1|e1] eqn:H1; [|vm_compute in H1; discriminate].
  destruct (generateAll (mkAggregated (Constraint_ctor "boxes" 2)
                                      ([box1] ++ [box2]) 0))
    as [r2|e2] eqn:H2; [|contradiction].
  exists r1, r2. repeat split. exact Hw.
Defined.

Lemma bilateral_generateAll_succeeds_iff_witness :
  (exists a', generateAll (aggregate sided UNILATERAL_TO_BILATERAL) = Ok a') /\
  ~ (exists a',
        generateAll (aggregate [box1; short_box] UNILATERAL_TO_BILATERAL) = Ok a').
Proof.
  split.
  - apply bilateral_generateAll_succeeds_iff; [reflexivity|].
    intros b Hb. unfold sided in Hb. simpl in Hb.
    repeat (apply elem_of_cons in Hb as [->|Hb]; [reflexivity|]).
    inversion Hb.
  - intros Hex.
    pose proof (proj1 (bilateral_generateAll_succeeds_iff
                         (aggregate [box1; short_box] UNILATERAL_TO_BILATERAL)
                         eq_refl) Hex short_box) as Hc.
    assert (Hin : short_box ∈ _bounds (aggregate [box1; short_box]
                                              UNILATERAL_TO_BILATERAL)).
    { simpl. right. left. }
    specialize (Hc Hin). vm_compute in Hc. discriminate.
Defined.

Lemma unilateral_generateAll_succeeds_iff_witness :
  (exists a', generateAll (aggregate [equality; box1; equality2] 0) = Ok a') /\
  ~ (exists a', generateAll (aggregate [equality; upper_only] 0) = Ok a').
Proof.
  split.
  - apply unilateral_generateAll_succeeds_iff; [reflexivity| |].
    + intros b Hb. simpl in Hb.
      repeat (apply elem_of_cons in Hb as [->|Hb]; [reflexivity|]).
      inversion Hb.
    + intros b Hb. simpl in Hb.
      repeat (apply elem_of_cons in Hb as [->|Hb];
              [split; [reflexivity|discriminate]|]).
      inversion Hb.
  - intros Hex.
    assert (Hall : forall b, b ∈ _bounds (aggregate [equality; upper_only] 0) ->
                             consistent_child 2 b = true).
    { intros b Hb. simpl in Hb.
      repeat (apply elem_of_cons in Hb as [->|Hb]; [reflexivity|]).
      inversion Hb. }
    destruct (proj1 (unilateral_generateAll_succeeds_iff
                       (aggregate [equality; upper_only] 0) eq_refl Hall)
                    Hex upper_only) as [Hrows _]; [right; left|].
    discriminate.
Defined.

Lemma merged_box_contains_witness :
  in_box [-1; -2]%Z [1; 2]%Z [0; 1]%Z <->
  (forall b, b ∈ [box1; box2] ->
             in_box (getLowerBound b) (getUpperBound b) [0; 1]%Z).
Proof.
  refine (merged_box_contains
            (aggregate [box1; box2] 0)
            (merged [-1; -2]%Z [1; 2]%Z [] [] [] [] [] [box1; box2] 0)
            [0; 1]%Z _ _ eq_refl).
  - discriminate.
  - intros b Hb. simpl in Hb.
    repeat (apply elem_of_cons in Hb as [->|Hb]; [split; reflexivity|]).
    inversion Hb.
Defined.

Lemma merged_rows_have_x_size_witness :
  exists a',
    generateAll (aggregate sided UNILATERAL_TO_BILATERAL) = Ok a' /\
    forall r, r ∈ mrows (getAineq (base a')) -> length r = 2.
Proof.
  destruct (generateAll (aggregate sided UNILATERAL_TO_BILATERAL))
    as [a'|e] eqn:Hg; [|vm_compute in Hg; discriminate].
  exists a'. split; [reflexivity|].
  refine (proj2 (merged_rows_have_x_size
                  (aggregate sided UNILATERAL_TO_BILATERAL) a' _ Hg)).
  intros b Hb. unfold sided in Hb. simpl in Hb.
  repeat (apply elem_of_cons in Hb as [->|Hb]; [split; reflexivity|]).
  inversion Hb.
Defined.

Lemma merged_task_dimensions_witness :
  rows (tasks.getA (tasks.base (tasks.generateAll task_aggregate))) = 3 /\
  length (tasks.getb (tasks.base (tasks.generateAll task_aggregate))) = 3.
Proof.
  assert (Hc : forall t, t ∈ tasks._tasks task_aggregate ->
                         cols (tasks.getA t)
                         = tasks.getXSize (tasks.base task_aggregate)).
  { intros t Ht. simpl in Ht.
    repeat (apply elem_of_cons in Ht as [->|Ht]; [reflexivity|]).
    inversion Ht. }
  destruct (merged_task_dimensions task_aggregate Hc) as (Hr & Hl & _).
  rewrite Hl, Hr. split; reflexivity.
Defined.

Lemma task_constructor_postcondition_witness :
  exists a,
    tasks.Aggregated_from_list [T1; T2] 2 = Ok a /\
    length (tasks.getb (tasks.base a)) = rows (tasks.getA (tasks.base a)).
Proof.
  assert (Hc : forall t, t ∈ [T1; T2] -> cols (tasks.getA t) = tasks.getXSize t).
  { intros t Ht.
    repeat (apply elem_of_cons in Ht as [->|Ht]; [reflexivity|]).
    inversion Ht. }
  destruct (task_constructor_postcondition [T1; T2] 2 Hc) as [[_ Hex] Hpost].
  destruct Hex as [a Ha].
  { intros t Ht.
    repeat (apply elem_of_cons in Ht as [->|Ht]; [reflexivity|]).
    inversion Ht. }
  exists a. split; [exact Ha|]. apply (Hpost a Ha).
Defined.

Lemma three_names_nonneg : forall p, p ∈ three_names -> (0 <= p.2)%Z.
Proof.
  intros p Hp. unfold three_names in Hp.
  repeat (apply elem_of_cons in Hp as [->|Hp]; [simpl; lia|]).
  inversion Hp.
Qed.

Lemma layout_bookkeeping_witness :
  exists h,
    OptvarHelper.ctor three_names = Ok h /\
    OptvarHelper.getSize h = 6%Z /\
    OptvarHelper._vars h
    = [OptvarHelper.mkVarInfo 2 0; OptvarHelper.mkVarInfo 3 2;
       OptvarHelper.mkVarInfo 1 5].
Proof.
  destruct (OptvarHelper.ctor three_names) as [h|e] eqn:Hc;
    [|vm_compute in Hc; discriminate].
  exists h. split; [reflexivity|].
  destruct (layout_bookkeeping three_names h Hc) as (_ & _ & Hfit).
  destruct (Hfit three_names_nonneg) as [Hs Hv]; [vm_compute; discriminate|].
  rewrite Hs, Hv. split; reflexivity.
Defined.

Lemma segments_do_not_overlap_witness :
  exists h o1 o2,
    OptvarHelper.ctor three_names = Ok h /\
    OptvarHelper._vars_map h !! "a" = Some (OptvarHelper.mkVarInfo 2 o1) /\
    OptvarHelper._vars_map h !! "c" = Some (OptvarHelper.mkVarInfo 1 o2) /\
    (o1 + 2 <= o2)%Z.
Proof.
  destruct (OptvarHelper.ctor three_names) as [h|e] eqn:Hc;
    [|vm_compute in Hc; discriminate].
  destruct (segments_do_not_overlap [] [("b", 3%Z)] [] "a" "c" 2 1 h Hc
                                    three_names_nonneg)
    as (o1 & o2 & H1 & H2 & _ & Hsep & _); [vm_compute; discriminate|].
  exists h, o1, o2. repeat split; assumption.
Defined.

Lemma getVar_selects_segment_witness :
  exists h af,
    OptvarHelper.ctor three_names = Ok h /\
    OptvarHelper.getVar h "b" = Ok af /\
    vadd (mvmul (OptvarHelper.getM af) [10; 11; 12; 13; 14; 15]%Z)
         (OptvarHelper.getq af)
    = [12; 13; 14]%Z.
Proof.
  destruct (OptvarHelper.ctor three_names) as [h|e] eqn:Hc;
    [|vm_compute in Hc; discriminate].
  destruct (getVar_selects_segment (R:=Z) [("a", 2%Z)] [("c", 1%Z)] "b" 3 h Hc
                                   three_names_nonneg)
    as (af & Hg & Hsel); [vm_compute; discriminate|].
  exists h, af. split; [reflexivity|]. split; [exact Hg|].
  apply (Hsel [10; 11; 12; 13; 14; 15]%Z). reflexivity.
Defined.

Lemma identifiers_compose_witness :
  concatenateConstraintsIds_loop [box1; box2; equality] = "box1+box2+eq" /\
  concatenateConstraintsIds_loop ([box1; box2] ++ [equality])
  = concatenateConstraintsIds_loop [box1; box2] +:+ "+"
    +:+ concatenateConstraintsIds_loop [equality].
Proof.
  split; [reflexivity|].
  apply (proj1 (proj2 (identifiers_compose (R:=Z)))); discriminate.
Defined.

Lemma stiffness_damping_setters_witness :
  exists s,
    new_impedance "hand" "world" = Ok s /\
    torque.getStiffness (torque.setStiffness (identity 6 6) s) = identity 6 6 /\
    torque.setStiffness (identity 2 2) s = s.
Proof.
  destruct (new_impedance "hand" "world") as [s|e] eqn:Hs;
    [|vm_compute in Hs; discriminate].
  exists s. split; [reflexivity|].
  destruct (stiffness_damping_setters s (identity 6 6) (identity 6 6))
    as (Hset & _).
  destruct (stiffness_damping_setters s (identity 2 2) (identity 6 6))
    as (_ & Hkeep & _).
  split; [apply Hset; split; reflexivity|].
  apply Hkeep. intros [Hr _]. discriminate.
Defined.

Lemma setReference_spec_witness :
  exists s s',
    new_impedance "hand" "world" = Ok s /\
    torque.setReference no_error robot (identity 3 3) s
    = Err (AssertionFailed 144) /\
    torque.setReference_twist no_error robot raised_pose [0; 0]%Z s
    = Err (AssertionFailed 155) /\
    torque.setReference_twist no_error robot raised_pose [1; 2; 3; 4; 5; 6]%Z s
    = Ok s' /\
    torque.getReference_twist s' = (raised_pose, [1; 2; 3; 4; 5; 6]%Z) /\
    torque.getStiffness s' = torque.getStiffness s.
Proof.
  destruct (new_impedance "hand" "world") as [s|e] eqn:Hs;
    [|vm_compute in Hs; discriminate].
  destruct (torque.setReference_twist no_error robot raised_pose
              [1; 2; 3; 4; 5; 6]%Z s) as [s'|e] eqn:Hs'.
  2:{ vm_compute in Hs. injection Hs as <-. vm_compute in Hs'. discriminate. }
  exists s, s'. split; [reflexivity|].
  destruct (setReference_spec no_error robot s (identity 3 3) [0; 0]%Z)
    as (H144 & _).
  destruct (setReference_spec no_error robot s raised_pose [0; 0]%Z)
    as (_ & _ & H155 & _).
  destruct (setReference_spec no_error robot s raised_pose [1; 2; 3; 4; 5; 6]%Z)
    as (_ & _ & _ & _ & _ & Hok).
  destruct (Hok s' (or_intror Hs')) as (Href & _ & HK & _).
  split; [apply H144; discriminate|]. split; [apply H155; discriminate|].
  split; [exact Hs'|]. split; [exact Href | exact HK].
Defined.

Lemma update_spec_witness :
  exists s s',
    new_impedance "hand" "world" = Ok s /\
    torque._update (fun m => m) no_error robot [0; 0]%Z
                   (torque.set_distal_link s "foot")
    = Err (AssertionFailed 77) /\
    torque._update (fun m => m) no_error robot [0; 0]%Z s = Ok s' /\
    torque.getReference s' = torque.getReference s /\
    torque._J s' = jacobian.
Proof.
  destruct (new_impedance "hand" "world") as [s|e] eqn:Hs;
    [|vm_compute in Hs; discriminate].
  destruct (torque._update (fun m => m) no_error robot [0; 0]%Z s)
    as [s'|e] eqn:Hs'.
  2:{ vm_compute in Hs. injection Hs as <-. vm_compute in Hs'. discriminate. }
  exists s, s'. split; [reflexivity|].
  vm_compute in Hs. injection Hs as Hs.
  split.
  - apply (proj1 (update_spec (fun m => m) no_error robot [0; 0]%Z
                              (torque.set_distal_link s "foot")));
      subst s; reflexivity.
  - split; [exact Hs'|].
    destruct (proj2 (proj2 (update_spec (fun m => m) no_error robot [0; 0]%Z s))
                    s' Hs') as (HJ & _ & _ & Href & _).
    subst s. cbn in HJ, Href. split; [exact Href|].
    injection HJ as ->. reflexivity.
Defined.

Lemma constructor_spec_witness :
  new_impedance "hand" "elbow" = Err (AssertionFailed 42) /\
  new_impedance "foot" "world" = Err (AssertionFailed 46) /\
  new_impedance "hand" "hand" = Err (AssertionFailed 49) /\
  exists s, new_impedance "hand" "torso" = Ok s /\
            torque.getReference s = torque.getActualPose s /\
            torque._desiredTwist s = [0; 0; 0; 0; 0; 0]%Z.
Proof.
  unfold new_impedance. repeat apply conj.
  - apply (proj1 (constructor_spec "world" 100%Z (fun m => m) no_error
                    "impedance" [0; 0]%Z robot "hand" "elbow"));
      [discriminate | reflexivity].
  - apply (proj1 (proj2 (constructor_spec "world" 100%Z (fun m => m) no_error
                           "impedance" [0; 0]%Z robot "foot" "world")));
      [left; reflexivity | reflexivity].
  - apply (proj1 (proj2 (proj2
             (constructor_spec "world" 100%Z (fun m => m) no_error
                "impedance" [0; 0]%Z robot "hand" "hand"))));
      [discriminate | discriminate | reflexivity].
  - destruct (torque.CartesianImpedanceCtrl_ctor
                (ConstraintPtr:=nat) "world" 100%Z (fun m => m) no_error
                "impedance" [0; 0]%Z robot "hand" "torso")
      as [s|e] eqn:Hs; [|vm_compute in Hs; discriminate].
    exists s. split; [reflexivity|].
    destruct (proj2 (proj2 (proj2
                (constructor_spec "world" 100%Z (fun m => m) no_error
                   "impedance" [0; 0]%Z robot "hand" "torso"))) s Hs)
      as (_ & _ & Htw & Href & _).
    split; [exact Href | exact Htw].
Defined.

Lemma nested_aggregate_flattens_witness :
  exists a1 a2 a12 a,
    Aggregated_from_list [box1; upper_only] 2 bilateral_folding = Ok a1 /\
    Aggregated_from_list [box2; equality; lower_only] 2 bilateral_folding
    = Ok a2 /\
    Aggregated_from_pair (base a1) (base a2) 2 bilateral_folding = Ok a12 /\
    Aggregated_from_list ([box1; upper_only] ++ [box2; equality; lower_only])
                         2 bilateral_folding = Ok a /\
    base a12 = base a.
Proof.
  destruct (Aggregated_from_list [box1; upper_only] 2 bilateral_folding)
    as [a1|e] eqn:H1; [|vm_compute in H1; discriminate].
  destruct (Aggregated_from_list [box2; equality; lower_only] 2
                                 bilateral_folding)
    as [a2|e] eqn:H2; [|vm_compute in H2; discriminate].
  destruct (nested_aggregate_flattens [box1; upper_only]
              [box2; equality; lower_only] 2 bilateral_folding a1 a2
              eq_refl H1 H2) as (a12 & a & H12 & Ha & _ & _ & Hsame).
  exists a1, a2, a12, a. repeat split; try assumption.
  apply Hsame; discriminate.
Defined.

End MoreConcrete.
